(** * xchainer native device: max pooling and average pooling

    A shallow embedding of [xchainer/native/native_device/pool.cc].

    Tensors are C-contiguous: a shape and the flat row-major element list.
    The element type [T] that the source reaches through [VisitDtype] is an
    interface ([Element]); the 64-bit signed integer dtype is its instance
    [Int64] on coqutil's machine words.  Sizes, indices and the spatial
    parameters are [int64_t] in the source and [Z] here: they are bounded by
    the size of an allocated tensor and do not wrap. *)

From Stdlib Require Import ZArith List Lia Bool Permutation.
From coqutil Require Import Word.Interface Word.Properties Word.Naive.
Import ListNotations.
Local Open Scope Z_scope.

(* ------------------------------------------------------------------ *)
(** ** Lists indexed by [int64_t] *)

(** The index range [0, 1, ..., n-1] of a counted loop. *)
Definition zrange (n : Z) : list Z := map Z.of_nat (seq 0 (Z.to_nat n)).

(** [l[i]], with [d] outside the list. *)
Definition znth {A : Type} (i : Z) (l : list A) (d : A) : A :=
  if i <? 0 then d else nth (Z.to_nat i) l d.

Fixpoint upd_nat {A : Type} (n : nat) (f : A -> A) (l : list A) {struct l}
  : list A :=
  match l with
  | [] => []
  | a :: l' =>
      match n with
      | O => f a :: l'
      | S n' => a :: upd_nat n' f l'
      end
  end.

(** [l[i] = f(l[i])]; a position outside the list leaves it as it is. *)
Definition zupd {A : Type} (i : Z) (f : A -> A) (l : list A) : list A :=
  if i <? 0 then l else upd_nat (Z.to_nat i) f l.

(** [l[i] = v]. *)
Definition zset {A : Type} (i : Z) (v : A) (l : list A) : list A :=
  zupd i (fun _ => v) l.

(* ------------------------------------------------------------------ *)
(** ** Shapes and row-major index arithmetic *)

Definition Shape := list Z.
Definition Axes := list Z.

(** [Shape::GetTotalSize]: the product of the dimensions. *)
Definition GetTotalSize (s : Shape) : Z := fold_right Z.mul 1 s.

(** Flat row-major position of a multi-index. *)
Fixpoint ravel (sh : Shape) (idx : list Z) : Z :=
  match sh, idx with
  | _ :: sh', i :: idx' => i * GetTotalSize sh' + ravel sh' idx'
  | _, _ => 0
  end.

(** Multi-index of a flat row-major position. *)
Fixpoint unravel (sh : Shape) (j : Z) : list Z :=
  match sh with
  | [] => []
  | _ :: sh' => j / GetTotalSize sh' :: unravel sh' (j mod GetTotalSize sh')
  end.

(** The multi-index has the rank of the shape and lies inside it. *)
Fixpoint inb (sh : Shape) (idx : list Z) : bool :=
  match sh, idx with
  | [], [] => true
  | d :: sh', i :: idx' => (0 <=? i) && (i <? d) && inb sh' idx'
  | _, _ => false
  end.

(** Every multi-index of a shape, in row-major scan order. *)
Definition all_indices (sh : Shape) : list (list Z) :=
  map (unravel sh) (zrange (GetTotalSize sh)).

(* ------------------------------------------------------------------ *)
(** ** Arrays *)

Record Array (A : Type) : Type := mkArray { shape : Shape; data : list A }.

Arguments mkArray {A} _ _.
Arguments shape {A} _.
Arguments data {A} _.

Definition ndim {A : Type} (a : Array A) : Z := Z.of_nat (length (shape a)).

(** Element access by multi-index. *)
Definition At {A : Type} (d : A) (a : Array A) (idx : list Z) : A :=
  znth (ravel (shape a) idx) (data a) d.

(** The array of a shape whose element at [idx] is [f idx]. *)
Definition tabulate {A : Type} (sh : Shape) (f : list Z -> A) : Array A :=
  mkArray sh (map f (all_indices sh)).

(** Dimensions are not negative and the buffer has the size of the shape. *)
Definition wf {A : Type} (a : Array A) : bool :=
  forallb (fun d => 0 <=? d) (shape a)
  && (Z.of_nat (length (data a)) =? GetTotalSize (shape a)).

(* ------------------------------------------------------------------ *)
(** ** Element types *)

(** Modelled from the spec: [xchainer/dtype.h], [xchainer/scalar.h] and
    [xchainer/numeric_limits.h] are not in the source file.  [VisitDtype]
    runs its body at the C++ element type [T] of a dtype; an [Element T]
    instance is that type: [LowestOrInf] is
    [NumericLimits<T>::LowestOrInf()] (the lowest representable value, or
    negative infinity for a floating type), [t_cast] is
    [static_cast<T>] of an [int64_t], and the rest are the operators of
    [T]. *)
Class Element (T : Type) : Type := {
  LowestOrInf : T;
  t_cast : Z -> T;
  t_add : T -> T -> T;
  t_sub : T -> T -> T;
  t_mul : T -> T -> T;
  t_div : T -> T -> T;
  t_lt : T -> T -> bool
}.

(** The dtype [int64]: two's-complement 64-bit words, signed comparison and
    signed division. *)
Definition int64 : Type := @word.rep 64 Naive.word64.

#[export] Instance Int64 : Element int64 := {|
  LowestOrInf := word.of_Z (- 2 ^ 63);
  t_cast := word.of_Z;
  t_add := word.add;
  t_sub := word.sub;
  t_mul := word.mul;
  t_div := word.divs;
  t_lt := word.lts
|}.

(* ------------------------------------------------------------------ *)
(** ** Failures and instance state *)

(** How a call can end without a result: [throw NotImplementedError{}], a
    failed [assert], [XCHAINER_NEVER_REACH()], and the use of a
    default-constructed (bodiless) [Array]. *)
Inductive Error : Type :=
| NotImplementedError
| AssertionFailure
| NeverReach
| NullArray.

Inductive Result (A : Type) : Type :=
| Ok (a : A)
| Throw (e : Error).

Arguments Ok {A} _.
Arguments Throw {A} _.

(** A method of an object of class [S]: it ends with a result or a failure,
    and leaves the members as they are at that point. *)
Definition M (S A : Type) : Type := S -> Result A * S.

Definition ret {S A : Type} (a : A) : M S A := fun s => (Ok a, s).

Definition throw {S A : Type} (e : Error) : M S A := fun s => (Throw e, s).

Definition bind {S A B : Type} (m : M S A) (k : A -> M S B) : M S B :=
  fun s =>
    match m s with
    | (Ok a, s') => k a s'
    | (Throw e, s') => (Throw e, s')
    end.

Definition get {S : Type} : M S S := fun s => (Ok s, s).

Definition modify {S : Type} (f : S -> S) : M S unit := fun s => (Ok tt, f s).

Notation "x <- c ;; k" := (bind c (fun x => k))
  (at level 61, c at next level, right associativity).
Notation "c ;;; k" := (bind c (fun _ => k))
  (at level 61, right associativity).

(** [assert(b)], in a build that checks assertions. *)
Definition assert {S : Type} (b : bool) : M S unit :=
  if b then ret tt else throw AssertionFailure.

(** The body of an [Array] member; a default-constructed one has none. *)
Definition deref {S A : Type} (a : option (Array A)) : M S (Array A) :=
  match a with
  | Some v => ret v
  | None => throw NullArray
  end.

Definition shape_eqb (s1 s2 : Shape) : bool :=
  if list_eq_dec Z.eq_dec s1 s2 then true else false.

(* ------------------------------------------------------------------ *)
(** ** Axes of a reduction or a transposition *)

(** The entry of [vals] that stands at the place where [axes] holds [p]. *)
Fixpoint lookup_axis (p : Z) (axes : Axes) (vals : list Z) : option Z :=
  match axes, vals with
  | a :: axes', v :: vals' => if a =? p then Some v else lookup_axis p axes' vals'
  | _, _ => None
  end.

(** The index of rank [rank] that has the entries of [ri] on the axes
    [axes] and the entries of [oi], in order, on the others; [p] is the
    axis the next entry is for. *)
Fixpoint expand_from (p : Z) (rank : nat) (axes : Axes) (ri oi : list Z) : list Z :=
  match rank with
  | O => []
  | S rank' =>
      match lookup_axis p axes ri with
      | Some v => v :: expand_from (p + 1) rank' axes ri oi
      | None =>
          match oi with
          | o :: oi' => o :: expand_from (p + 1) rank' axes ri oi'
          | [] => []
          end
      end
  end.

Definition expand_index (rank : nat) (axes : Axes) (ri oi : list Z) : list Z :=
  expand_from 0 rank axes ri oi.

(** The dimensions of a shape that are not on [axes]; [p] is the axis of
    the head. *)
Fixpoint drop_axes_from (p : Z) (axes : Axes) (sh : Shape) : Shape :=
  match sh with
  | [] => []
  | d :: sh' =>
      if existsb (Z.eqb p) axes then drop_axes_from (p + 1) axes sh'
      else d :: drop_axes_from (p + 1) axes sh'
  end.

Definition drop_axes (sh : Shape) (axes : Axes) : Shape := drop_axes_from 0 axes sh.

(** The dimensions of a shape on [axes]. *)
Definition axes_dims (sh : Shape) (axes : Axes) : Shape :=
  map (fun ax => znth ax sh 0) axes.

(** [v.resize(n)] of a vector of integers: cut, or filled up with [0]. *)
Definition resize (n : nat) (v : list Z) : list Z :=
  firstn n v ++ repeat 0 (n - length v).

(** [std::iota(v.begin(), v.end(), start)]. *)
Definition iota (v : list Z) (start : Z) : list Z :=
  map (fun i => start + i) (zrange (Z.of_nat (length v))).

(* ------------------------------------------------------------------ *)
(** ** The window transform *)

(** Modelled from the spec: [xchainer/routines/connection.h]
    ([GetConvOutDim]) is not in the source file.  The output extent along
    one axis is [floor((d + 2*pad - k) / stride) + 1], and one more when
    [cover_all] is set and the stride does not divide [d + 2*pad - k]. *)
Definition GetConvOutDim (in_dim kernel_size stride pad : Z) (cover_all : bool) : Z :=
  (in_dim + 2 * pad - kernel_size) / stride + 1
  + (if cover_all && negb ((in_dim + 2 * pad - kernel_size) mod stride =? 0)
     then 1 else 0).

Fixpoint conv_out_dims (dims kernel_size stride pad : list Z) (cover_all : bool)
  : list Z :=
  match dims, kernel_size, stride, pad with
  | d :: dims', k :: ks, s :: ss, p :: ps =>
      GetConvOutDim d k s p cover_all :: conv_out_dims dims' ks ss ps cover_all
  | _, _, _, _ => []
  end.

(** The input coordinate that window [oo] samples at kernel offset [kk]:
    [o * stride + k - pad] on every spatial axis. *)
Fixpoint sample_coords (oo kk stride pad : list Z) : list Z :=
  match oo, kk, stride, pad with
  | o :: oo', k :: kk', s :: ss, p :: ps =>
      (o * s + k - p) :: sample_coords oo' kk' ss ps
  | _, _, _, _ => []
  end.

Section Routines.

Context {T : Type} {E : Element T}.

(** Modelled from the spec: [xchainer/native/im2col.h] is not in the source
    file.  Window-extract: from [x] of shape [(batch, channel, d_1..d_n)]
    the columnar tensor of shape [(batch, channel, k_1..k_n,
    out_1..out_n)]; a sampled coordinate outside [[0, d_i)] reads as the
    fill value. *)
Definition Im2Col (x : Array T) (kernel_size stride pad : list Z)
    (cover_all : bool) (pad_value : T) : Array T :=
  let batch := znth 0 (shape x) 0 in
  let channel := znth 1 (shape x) 0 in
  let dims := skipn 2 (shape x) in
  let n := length kernel_size in
  let outs := conv_out_dims dims kernel_size stride pad cover_all in
  tabulate (batch :: channel :: kernel_size ++ outs)
    (fun idx =>
       let kk := firstn n (skipn 2 idx) in
       let oo := skipn (2 + n) idx in
       let coords := sample_coords oo kk stride pad in
       if inb dims coords
       then At pad_value x (znth 0 idx 0 :: znth 1 idx 0 :: coords)
       else pad_value).

(** [buf[pos] += v]. *)
Definition add_at (buf : list T) (pos : Z) (v : T) : list T :=
  zupd pos (fun old => t_add old v) buf.

(** Modelled from the spec: [xchainer/native/col2im.h] is not in the source
    file.  Window-scatter: every entry of the columnar tensor [col], of
    shape [(batch, channel, k_1..k_n, out_1..out_n)], is added to the input
    position its window and kernel offset sampled; an entry whose
    coordinate is outside the input contributes nothing. *)
Definition Col2Im (col : Array T) (stride pad : list Z) (out_size : list Z)
  : Array T :=
  let batch := znth 0 (shape col) 0 in
  let channel := znth 1 (shape col) 0 in
  let n := length out_size in
  let sh := batch :: channel :: out_size in
  mkArray sh
    (fold_left
       (fun buf j =>
          let idx := unravel (shape col) j in
          let kk := firstn n (skipn 2 idx) in
          let oo := skipn (2 + n) idx in
          let coords := sample_coords oo kk stride pad in
          if inb out_size coords
          then add_at buf (ravel sh (znth 0 idx 0 :: znth 1 idx 0 :: coords))
                 (znth j (data col) (t_cast 0))
          else buf)
       (zrange (GetTotalSize (shape col)))
       (repeat (t_cast 0) (Z.to_nat (GetTotalSize sh)))).

(* ------------------------------------------------------------------ *)
(** ** Array routines and device primitives *)

(** Modelled from the spec: [xchainer/array.h], [xchainer/routines/] and the
    device primitives are not in the source file.  They are the operations
    of section 6 of the spec: reductions along a set of axes, a zero-filled
    allocator, a strided range, reshape, transpose and broadcast views,
    gather by index and scatter-add at indices. *)

(** The elements that a reduction along [axes] folds into the output
    position [oi], in row-major scan order of the reduced axes. *)
Definition reduced_elems (a : Array T) (axes : Axes) (oi : list Z) : list T :=
  map (fun ri => At (t_cast 0) a (expand_index (length (shape a)) axes ri oi))
    (all_indices (axes_dims (shape a) axes)).

(** The larger of the running maximum and the next element. *)
Definition max_step (acc next : T) : T := if t_lt acc next then next else acc.

(** [Array::Max(axes)]: reduce by maximum along [axes]. *)
Definition Max (a : Array T) (axes : Axes) : Array T :=
  tabulate (drop_axes (shape a) axes)
    (fun oi => fold_left max_step (reduced_elems a axes oi) LowestOrInf).

(** One step of the argmax scan: the running maximum and its position stay
    unless the next element is strictly larger, so that the first of equal
    maxima is kept. *)
Definition argmax_step (acc : T * Z) (next : T * Z) : T * Z :=
  if (snd acc <? 0) || t_lt (fst acc) (fst next) then next else acc.

(** The scan of a list whose first element has position [i]. *)
Fixpoint argmax_scan (l : list T) (i : Z) (acc : T * Z) : T * Z :=
  match l with
  | [] => acc
  | v :: l' => argmax_scan l' (i + 1) (argmax_step acc (v, i))
  end.

(** [Array::ArgMax(axes)]: for every output position the flat offset,
    within the reduced axes, of the first position in scan order that
    attains the maximum. *)
Definition ArgMax (a : Array T) (axes : Axes) : Array Z :=
  tabulate (drop_axes (shape a) axes)
    (fun oi => snd (argmax_scan (reduced_elems a axes oi) 0 (t_cast 0, -1))).

(** [Device::Sum(a, axis, out)]: the new contents of [out]. *)
Definition Sum (a : Array T) (axes : Axes) (out : Array T) : Array T :=
  tabulate (shape out)
    (fun oi => fold_left t_add (reduced_elems a axes oi) (t_cast 0)).

(** [internal::CountItemsAlongAxes(shape, axes)]. *)
Definition CountItemsAlongAxes (sh : Shape) (axes : Axes) : Z :=
  GetTotalSize (axes_dims sh axes).

(** [Device::DivideAS(x1, x2, out)]: every element divided by the scalar. *)
Definition DivideAS (x1 : Array T) (x2 : Z) (out : Array T) : Array T :=
  mkArray (shape out) (map (fun v => t_div v (t_cast x2)) (data x1)).

Fixpoint map2 {A B C : Type} (f : A -> B -> C) (l1 : list A) (l2 : list B)
  : list C :=
  match l1, l2 with
  | a :: l1', b :: l2' => f a b :: map2 f l1' l2'
  | _, _ => []
  end.

(** [Device::Divide(x1, x2, out)]: element by element.  Where a divisor of
    an integer type is zero the division of the code is undefined; this is
    the result where no divisor is zero, and the properties below that state
    an output of ignore mode use it only where every divisor is shown to be
    positive. *)
Definition Divide (x1 x2 out : Array T) : Array T :=
  mkArray (shape out) (map2 t_div (data x1) (data x2)).

(** [operator+] of two index arrays of one shape. *)
Definition Add (a b : Array Z) : Array Z :=
  mkArray (shape a) (map2 Z.add (data a) (data b)).

(** [Zeros(shape, dtype, device)]. *)
Definition Zeros (sh : Shape) : Array T :=
  mkArray sh (repeat (t_cast 0) (Z.to_nat (GetTotalSize sh))).

(** [Empty(shape, dtype)]: the contents are not initialised; every element
    is written before it is read. *)
Definition Empty (sh : Shape) : Array T := Zeros sh.

(** [internal::EmptyReduced(shape, dtype, axes, keepdims = false, device)]. *)
Definition EmptyReduced (sh : Shape) (axes : Axes) : Array T :=
  Empty (drop_axes sh axes).

(** [Arange(start, stop, step, dtype, device)] with a positive step: the
    values [start, start + step, ...] below [stop]. *)
Definition Arange (start stop step : Z) : Array Z :=
  let len := (stop - start + step - 1) / step in
  mkArray [len] (map (fun i => start + i * step) (zrange len)).

(** [Array::Reshape(shape)]: the same elements under another shape. *)
Definition Reshape {A : Type} (a : Array A) (sh : Shape) : Array A :=
  mkArray sh (data a).

(** [Array::Transpose(axes)]: axis [i] of the result is axis [axes[i]] of
    [a]. *)
Definition Transpose (a : Array T) (axes : Axes) : Array T :=
  tabulate (axes_dims (shape a) axes)
    (fun idx =>
       At (t_cast 0) a
         (map (fun p => match lookup_axis p axes idx with
                        | Some v => v
                        | None => 0
                        end)
            (zrange (Z.of_nat (length (shape a)))))).

(** [Array::BroadcastTo(shape)]: leading axes are added and axes of extent
    one are repeated. *)
Definition BroadcastTo (a : Array T) (sh : Shape) : Array T :=
  tabulate sh
    (fun idx =>
       At (t_cast 0) a
         (map2 (fun d i => if d =? 1 then 0 else i) (shape a)
            (skipn (length sh - length (shape a)) idx))).

(** [Device::AddAt(a, indices, axis = 0, b, out)] on flat arrays: [out] is
    [a] with [b[i]] added at position [indices[i]], for every [i]. *)
Definition AddAt (a : Array T) (indices : Array Z) (b : Array T) : Array T :=
  mkArray (shape a)
    (fold_left
       (fun buf i => add_at buf (znth i (data indices) 0) (znth i (data b) (t_cast 0)))
       (zrange (Z.of_nat (length (data indices))))
       (data a)).

(** [Take(a, indices, axis = 0)] of a flat array: the elements of [a] at
    the positions [indices], in the shape of [indices]. *)
Definition Take (a : Array T) (indices : Array Z) : Array T :=
  mkArray (shape indices) (map (fun i => znth i (data a) (t_cast 0)) (data indices)).

(** [TensorDot(a, b, a_axes, b_axes)]: the sum of products over the paired
    axes; the other axes of [a], then those of [b], are the axes of the
    result. *)
Definition TensorDot (a b : Array T) (a_axes b_axes : Axes) : Array T :=
  let sa := drop_axes (shape a) a_axes in
  let sb := drop_axes (shape b) b_axes in
  tabulate (sa ++ sb)
    (fun idx =>
       let ia := firstn (length sa) idx in
       let ib := skipn (length sa) idx in
       fold_left t_add
         (map (fun ri =>
                 t_mul (At (t_cast 0) a (expand_index (length (shape a)) a_axes ri ia))
                       (At (t_cast 0) b (expand_index (length (shape b)) b_axes ri ib)))
            (all_indices (axes_dims (shape a) a_axes)))
         (t_cast 0)).

(** [Elementwise<T>(impl, out)] on a flat array: [impl(i, out[i])] at every
    position [i]. *)
Definition Elementwise (impl : Z -> T -> T) (out : Array T) : Array T :=
  mkArray (shape out)
    (map2 impl (zrange (Z.of_nat (length (data out)))) (data out)).

End Routines.

(* ------------------------------------------------------------------ *)
(** ** pool.cc: the helpers of the anonymous namespace *)

(** [GetLowestOrInf(dtype)]: [VisitDtype] at the element type [T]. *)
Definition GetLowestOrInf {T : Type} {E : Element T} : T := LowestOrInf.

(** [GetSwapSpatialDimensionsAxes(n)]: the axes of the transposition
    [(batch, channel, a_1..a_n, b_1..b_n) -> (batch, channel, b_1..b_n,
    a_1..a_n)]. *)
Definition GetSwapSpatialDimensionsAxes (n : Z) : Axes :=
  let axes := resize (Z.to_nat (2 + 2 * n)) [] in
  let axes := zset 0 0 axes in
  let axes := zset 1 1 axes in
  fold_left
    (fun axes i => zset (n + i) i (zset i (n + i) axes))
    (map (fun j => 2 + j) (zrange n))
    axes.

(* ------------------------------------------------------------------ *)
(** ** pool.cc: [class NativeMaxPoolForwardBackward] *)

Module MaxPool.
Section Class.

Context {T : Type} {E : Element T}.

(** The members.  An [Array] member is [None] while it is still the
    default-constructed array. *)
Record NativeMaxPoolForwardBackward : Type := mkMaxPool {
  kernel_size_ : list Z;
  stride_ : list Z;
  pad_ : list Z;
  x_ : option (Array T);
  cover_all_ : bool;
  col_ : option (Array T);
  axes_ : Axes;
  indices_ : option (Array Z);
  offset_ : option (Array Z)
}.

(** The constructor. *)
Definition new (kernel_size stride pad : list Z) (cover_all : bool)
  : NativeMaxPoolForwardBackward :=
  mkMaxPool kernel_size stride pad None cover_all None [] None None.

Definition set_x_ (v : Array T) (s : NativeMaxPoolForwardBackward) :=
  mkMaxPool (kernel_size_ s) (stride_ s) (pad_ s) (Some v) (cover_all_ s)
    (col_ s) (axes_ s) (indices_ s) (offset_ s).

Definition set_col_ (v : Array T) (s : NativeMaxPoolForwardBackward) :=
  mkMaxPool (kernel_size_ s) (stride_ s) (pad_ s) (x_ s) (cover_all_ s)
    (Some v) (axes_ s) (indices_ s) (offset_ s).

Definition set_axes_ (v : Axes) (s : NativeMaxPoolForwardBackward) :=
  mkMaxPool (kernel_size_ s) (stride_ s) (pad_ s) (x_ s) (cover_all_ s)
    (col_ s) v (indices_ s) (offset_ s).

Definition set_indices_ (v : Array Z) (s : NativeMaxPoolForwardBackward) :=
  mkMaxPool (kernel_size_ s) (stride_ s) (pad_ s) (x_ s) (cover_all_ s)
    (col_ s) (axes_ s) (Some v) (offset_ s).

Definition set_offset_ (v : Array Z) (s : NativeMaxPoolForwardBackward) :=
  mkMaxPool (kernel_size_ s) (stride_ s) (pad_ s) (x_ s) (cover_all_ s)
    (col_ s) (axes_ s) (indices_ s) (Some v).

(** [Array Forward(const Array& x)]. *)
Definition Forward (x : Array T) : M NativeMaxPoolForwardBackward (Array T) :=
  self <- get ;;
  let col := Im2Col x (kernel_size_ self) (stride_ self) (pad_ self)
               (cover_all_ self) GetLowestOrInf in
  modify (set_col_ col) ;;;
  let axes := iota (resize (length (kernel_size_ self)) (axes_ self)) 2 in
  modify (set_axes_ axes) ;;;
  modify (set_x_ x) ;;;
  ret (Max col axes).

(** [Array Backward(const Array& gout)]. *)
Definition Backward (gout : Array T) : M NativeMaxPoolForwardBackward (Array T) :=
  self <- get ;;
  col <- deref (col_ self) ;;
  let indices := ArgMax col (axes_ self) in
  modify (set_indices_ indices) ;;;
  assert (shape_eqb (shape indices) (shape gout)) ;;;
  let kernel_total_size := fold_left Z.mul (kernel_size_ self) 1 in
  let out_total_size := GetTotalSize (shape indices) in
  let out_flat := [out_total_size] in
  x <- deref (x_ self) ;;
  let gcol := Zeros [out_total_size * kernel_total_size] in
  let offset := Arange 0 (out_total_size * kernel_total_size) kernel_total_size in
  modify (set_offset_ offset) ;;;
  let gcol := AddAt gcol (Add (Reshape indices out_flat) offset)
                (Reshape gout out_flat) in
  let out_shape_with_kernel := shape gout ++ kernel_size_ self in
  ret (Col2Im
         (Transpose (Reshape gcol out_shape_with_kernel)
            (GetSwapSpatialDimensionsAxes (Z.of_nat (length (kernel_size_ self)))))
         (stride_ self)
         (pad_ self)
         (skipn 2 (shape x))).

(** [Array DoubleBackward(const Array& ggx)]. *)
Definition DoubleBackward (ggx : Array T)
  : M NativeMaxPoolForwardBackward (Array T) :=
  self <- get ;;
  _ <- deref (x_ self) ;;
  let col := Im2Col ggx (kernel_size_ self) (stride_ self) (pad_ self)
               (cover_all_ self) GetLowestOrInf in
  indices <- deref (indices_ self) ;;
  offset <- deref (offset_ self) ;;
  ret (Take
         (Reshape
            (Transpose col
               (GetSwapSpatialDimensionsAxes (Z.of_nat (length (kernel_size_ self)))))
            [GetTotalSize (shape col)])
         (Add indices (Reshape offset (shape indices)))).

End Class.

Arguments NativeMaxPoolForwardBackward : clear implicits.

End MaxPool.

(** [NativeDevice::GetMaxPoolForwardBackward(kernel_size, stride, pad,
    cover_all)]. *)
Definition GetMaxPoolForwardBackward {T : Type} (kernel_size stride pad : list Z)
    (cover_all : bool) : MaxPool.NativeMaxPoolForwardBackward T :=
  MaxPool.new kernel_size stride pad cover_all.

(* ------------------------------------------------------------------ *)
(** ** pool.cc: average pooling *)

(** Modelled from the spec: [enum class AveragePoolPadMode] of
    [xchainer/routines/pooling.h] is not in the source file.  It has the two
    modes; an object of the enumeration type can also hold a value of the
    underlying integer type that is neither, which is what the [default]
    branch of [Forward] is for. *)
Inductive AveragePoolPadMode : Type :=
| kZero
| kIgnore
| kUnrecognized (value : Z).

Section AveragePoolHelpers.

Context {T : Type} {E : Element T}.

(** [void Mean(const Array& a, const Axes& axis, const Array& out)]: the
    new contents of [out]. *)
Definition Mean (a : Array T) (axis : Axes) (out : Array T) : Array T :=
  let out := Sum a axis out in
  DivideAS out (CountItemsAlongAxes (shape a) axis) out.

(** [Impl::operator()(int64_t i, T& w)] with the members [d], [k], [s] and
    [p]: the new value of [w]. *)
Definition Impl (d k s p : T) (i : Z) (w : T) : T :=
  let start := t_sub (t_mul (t_cast i) s) p in
  let end_ := t_add start k in
  let start := if t_lt start (t_cast 0) then t_cast 0 else start in
  let end_ := if t_lt d end_ then d else end_ in
  t_sub end_ start.

(** The body of the loop of [GetPadModeIgnorePoolingWidths] at axis [i]. *)
Definition widths_step (sh : Shape) (kernel_size stride pad : list Z)
    (widths : option (Array T)) (i : Z) : Result (option (Array T)) :=
  let dim_i := znth (2 + i) sh 0 in
  let kernel_size_i := znth i kernel_size 0 in
  let stride_i := znth i stride 0 in
  let pad_i := znth i pad 0 in
  let width : Array T :=
    Empty [GetConvOutDim dim_i kernel_size_i stride_i pad_i false] in
  let width :=
    Elementwise
      (Impl (t_cast dim_i) (t_cast kernel_size_i) (t_cast stride_i) (t_cast pad_i))
      width in
  if i =? 0 then Ok (Some width)
  else
    match widths with
    | None => Throw NullArray
    | Some widths =>
        let widths_expanded := shape widths ++ [1] in
        let width_expanded := 1 :: shape width in
        Ok (Some (TensorDot (Reshape widths widths_expanded)
                    (Reshape width width_expanded)
                    [ndim widths] [0]))
    end.

(** [Array GetPadModeIgnorePoolingWidths(shape, kernel_size, stride, pad,
    dtype)]; the result is [None] when the loop never assigns [widths]. *)
Definition GetPadModeIgnorePoolingWidths (sh : Shape)
    (kernel_size stride pad : list Z) : Result (option (Array T)) :=
  let n := Z.of_nat (length sh) - 2 in
  if negb ((n =? Z.of_nat (length kernel_size))
           && (n =? Z.of_nat (length stride))
           && (n =? Z.of_nat (length pad)))
  then Throw AssertionFailure
  else
    fold_left
      (fun acc i =>
         match acc with
         | Ok widths => widths_step sh kernel_size stride pad widths i
         | Throw e => Throw e
         end)
      (zrange n)
      (Ok None).

End AveragePoolHelpers.

(** A failure of a function that is not a method leaves the members alone. *)
Definition lift {S A : Type} (r : Result A) : M S A := fun s => (r, s).

Module AveragePool.
Section Class.

Context {T : Type} {E : Element T}.

(** The members; all of them are [const]. *)
Record NativeAveragePoolForwardBackward : Type := mkAveragePool {
  kernel_size_ : list Z;
  stride_ : list Z;
  pad_ : list Z;
  pad_mode_ : AveragePoolPadMode
}.

(** [Array Forward(const Array& x)]. *)
Definition Forward (x : Array T) : M NativeAveragePoolForwardBackward (Array T) :=
  self <- get ;;
  let col := Im2Col x (kernel_size_ self) (stride_ self) (pad_ self) false (t_cast 0) in
  let kernel_axes := iota (resize (length (kernel_size_ self)) []) 2 in
  let out : Array T := EmptyReduced (shape col) kernel_axes in
  match pad_mode_ self with
  | kZero =>
      let out := Mean col kernel_axes out in
      ret out
  | kIgnore =>
      let out := Sum col kernel_axes out in
      widths <- lift (GetPadModeIgnorePoolingWidths (shape x) (kernel_size_ self)
                        (stride_ self) (pad_ self)) ;;
      widths <- deref widths ;;
      let widths := BroadcastTo widths (shape out) in
      let out := Divide out widths out in
      ret out
  | kUnrecognized _ => throw NeverReach
  end.

(** [Array Backward(const Array&)]. *)
Definition Backward (gout : Array T) : M NativeAveragePoolForwardBackward (Array T) :=
  throw NotImplementedError.

End Class.

End AveragePool.

(** [NativeDevice::GetAveragePoolForwardBackward(kernel_size, stride, pad,
    pad_mode)]. *)
Definition GetAveragePoolForwardBackward (kernel_size stride pad : list Z)
    (pad_mode : AveragePoolPadMode)
  : AveragePool.NativeAveragePoolForwardBackward :=
  AveragePool.mkAveragePool kernel_size stride pad pad_mode.

(* ------------------------------------------------------------------ *)
(** ** Vocabulary of the statements *)

(** No dimension is negative. *)
Definition nonneg (sh : Shape) : Prop := Forall (fun d => 0 <= d) sh.

(** The [n] consecutive integers from [s]. *)
Definition consec (s n : Z) : list Z := map (fun i => s + i) (zrange n).

(** The order of an element type: [<] is a strict order and
    [LowestOrInf] is its least value. *)
Class ElementOrder (T : Type) {E : Element T} : Prop := {
  t_lt_irrefl : forall a : T, t_lt a a = false;
  t_lt_trans : forall a b c : T,
      t_lt a b = true -> t_lt b c = true -> t_lt a c = true;
  t_lt_lowest : forall v : T, t_lt LowestOrInf v = false -> v = LowestOrInf
}.

Arguments ElementOrder T {E}.

(** An input of shape [sh] fits a pooling with these parameters: the rank
    is two more than the number of spatial axes, kernel sizes and strides
    are positive, pads are not negative, and no output extent is
    negative. *)
Definition valid_pool (sh : Shape) (kernel_size stride pad : list Z)
    (cover_all : bool) : bool :=
  forallb (fun d => 0 <=? d) sh
  && (length sh =? 2 + length kernel_size)%nat
  && (length stride =? length kernel_size)%nat
  && (length pad =? length kernel_size)%nat
  && forallb (fun k => 0 <? k) kernel_size
  && forallb (fun s => 0 <? s) stride
  && forallb (fun p => 0 <=? p) pad
  && forallb (fun o => 0 <=? o)
       (conv_out_dims (skipn 2 sh) kernel_size stride pad cover_all).

(** The shape of the pooled output. *)
Definition pooled_shape (sh : Shape) (kernel_size stride pad : list Z)
    (cover_all : bool) : Shape :=
  znth 0 sh 0 :: znth 1 sh 0
    :: conv_out_dims (skipn 2 sh) kernel_size stride pad cover_all.

(** [coords] is an input coordinate, inside the input, that the window at
    output position [oo] covers. *)
Definition in_window (dims kernel_size stride pad oo coords : list Z) : Prop :=
  exists kk,
    inb kernel_size kk = true
    /\ coords = sample_coords oo kk stride pad
    /\ inb dims coords = true.

(** [j] is the first position of [l] that holds [m], and no element of [l]
    is above [m]. *)
Definition first_max {T : Type} {E : Element T} (l : list T) (j : Z) (m : T)
  : Prop :=
  0 <= j < Z.of_nat (length l)
  /\ znth j l m = m
  /\ (forall v, In v l -> t_lt m v = false)
  /\ (forall k, 0 <= k < j -> znth k l m <> m).

(** The entries of the window at output position [(bi, ci, oo)] of the
    columnar tensor of [x], by kernel offset in scan order. *)
Definition window_elems {T : Type} {E : Element T} (x : Array T)
    (kernel_size stride pad : list Z) (fill : T) (bi ci : Z) (oo : list Z)
  : list T :=
  map (fun kk =>
         let coords := sample_coords oo kk stride pad in
         if inb (skipn 2 (shape x)) coords
         then At fill x (bi :: ci :: coords)
         else fill)
    (all_indices kernel_size).

(** Concrete inputs: the [int64] value of an integer, and the tensor of
    shape [(1, 1, len)], one batch, one channel and one spatial axis, that
    holds a list of them. *)
Definition i64 (z : Z) : int64 := word.of_Z z.

Definition tensor1 (l : list Z) : Array int64 :=
  mkArray [1; 1; Z.of_nat (length l)] (map i64 l).

Section MaxPoolStates.

Context {T : Type} {E : Element T}.

(** The windowed tensor that [Forward(x)] caches. *)
Definition forward_col (self : MaxPool.NativeMaxPoolForwardBackward T) (x : Array T)
  : Array T :=
  Im2Col x (MaxPool.kernel_size_ self) (MaxPool.stride_ self) (MaxPool.pad_ self)
    (MaxPool.cover_all_ self) LowestOrInf.

(** The kernel axes [2..2+n]. *)
Definition kernel_axes (self : MaxPool.NativeMaxPoolForwardBackward T)
  : Axes :=
  consec 2 (Z.of_nat (length (MaxPool.kernel_size_ self))).

(** The index tensor of the forward pass on [x]: the argmax of its windowed
    tensor along the kernel axes. *)
Definition forward_indices (self : MaxPool.NativeMaxPoolForwardBackward T)
    (x : Array T) : Array Z :=
  ArgMax (forward_col self x) (kernel_axes self).

(** The per-position base offsets [0, k, 2k, ...] for the output of the
    forward pass on [x]. *)
Definition forward_offset (self : MaxPool.NativeMaxPoolForwardBackward T)
    (x : Array T) : Array Z :=
  let k := fold_left Z.mul (MaxPool.kernel_size_ self) 1 in
  let n := GetTotalSize (shape (forward_indices self x)) in
  Arange 0 (n * k) k.

(** The members hold what the most recent [Forward(x)] cached. *)
Definition forward_done (x : Array T)
    (self : MaxPool.NativeMaxPoolForwardBackward T) : Prop :=
  MaxPool.col_ self = Some (forward_col self x)
  /\ MaxPool.x_ self = Some x
  /\ MaxPool.axes_ self = kernel_axes self.

(** The members also hold the index and offset tensors of that forward
    pass. *)
Definition backward_done (x : Array T)
    (self : MaxPool.NativeMaxPoolForwardBackward T) : Prop :=
  forward_done x self
  /\ MaxPool.indices_ self = Some (forward_indices self x)
  /\ MaxPool.offset_ self = Some (forward_offset self x).

(** Two objects were constructed with the same parameters. *)
Definition same_params (s1 s2 : MaxPool.NativeMaxPoolForwardBackward T)
  : Prop :=
  MaxPool.kernel_size_ s1 = MaxPool.kernel_size_ s2
  /\ MaxPool.stride_ s1 = MaxPool.stride_ s2
  /\ MaxPool.pad_ s1 = MaxPool.pad_ s2
  /\ MaxPool.cover_all_ s1 = MaxPool.cover_all_ s2.

(** The gradient calls that can follow a [Forward]. *)
Inductive Call : Type :=
| CallBackward (gout : Array T)
| CallDoubleBackward (ggx : Array T).

Definition call (c : Call) : M (MaxPool.NativeMaxPoolForwardBackward T) (Array T) :=
  match c with
  | CallBackward gout => MaxPool.Backward gout
  | CallDoubleBackward ggx => MaxPool.DoubleBackward ggx
  end.

(** The members after a sequence of calls, whatever each of them returned. *)
Definition after_calls (cs : list Call)
    (self : MaxPool.NativeMaxPoolForwardBackward T)
  : MaxPool.NativeMaxPoolForwardBackward T :=
  fold_left (fun s c => snd (call c s)) cs self.

(** The flat buffer of [Backward(gout)] after the scatter-add, from the
    caches of [Forward(x)]. *)
Definition backward_gcol (self : MaxPool.NativeMaxPoolForwardBackward T)
    (x gout : Array T) : Array T :=
  let indices := forward_indices self x in
  let k := fold_left Z.mul (MaxPool.kernel_size_ self) 1 in
  let n := GetTotalSize (shape indices) in
  AddAt (Zeros [n * k])
    (Add (Reshape indices [n]) (forward_offset self x))
    (Reshape gout [n]).

(** The buffer reshaped to [(batch, channel, out_1..out_n, k_1..k_n)] and
    permuted to the columnar layout. *)
Definition backward_colgrad (self : MaxPool.NativeMaxPoolForwardBackward T)
    (x gout : Array T) : Array T :=
  let ks := MaxPool.kernel_size_ self in
  Transpose (Reshape (backward_gcol self x gout) (shape gout ++ ks))
    (GetSwapSpatialDimensionsAxes (Z.of_nat (length ks))).

(** The gradient that [Backward(gout)] computes from the caches of
    [Forward(x)]. *)
Definition backward_of (self : MaxPool.NativeMaxPoolForwardBackward T)
    (x gout : Array T) : Array T :=
  Col2Im (backward_colgrad self x gout)
    (MaxPool.stride_ self) (MaxPool.pad_ self) (skipn 2 (shape x)).

(** The result that [DoubleBackward(ggx)] gathers with the index and offset
    tensors of [Forward(x)]. *)
Definition double_backward_of (self : MaxPool.NativeMaxPoolForwardBackward T)
    (x ggx : Array T) : Array T :=
  let col := forward_col self ggx in
  Take
    (Reshape
       (Transpose col
          (GetSwapSpatialDimensionsAxes
             (Z.of_nat (length (MaxPool.kernel_size_ self)))))
       [GetTotalSize (shape col)])
    (Add (forward_indices self x)
       (Reshape (forward_offset self x) (shape (forward_indices self x)))).

End MaxPoolStates.

(** The element type computes exactly on the integers of magnitude up to
    [bound]: there, the operators of [T] on casts are the casts of the
    integer results, and adding to zero changes nothing. *)
Class ElementExact (T : Type) {E : Element T} (bound : Z) : Prop := {
  cast_add : forall a b : Z,
      Z.abs a <= bound -> Z.abs b <= bound -> Z.abs (a + b) <= bound ->
      t_add (t_cast a) (t_cast b) = t_cast (a + b);
  cast_sub : forall a b : Z,
      Z.abs a <= bound -> Z.abs b <= bound -> Z.abs (a - b) <= bound ->
      t_sub (t_cast a) (t_cast b) = t_cast (a - b);
  cast_mul : forall a b : Z,
      Z.abs a <= bound -> Z.abs b <= bound -> Z.abs (a * b) <= bound ->
      t_mul (t_cast a) (t_cast b) = t_cast (a * b);
  cast_lt : forall a b : Z,
      Z.abs a <= bound -> Z.abs b <= bound ->
      t_lt (t_cast a) (t_cast b) = (a <? b);
  add_zero_l : forall v : T, t_add (t_cast 0) v = v
}.

Arguments ElementExact T {E} bound.

(** The width that [Impl] computes at output position [i] of an axis of
    extent [d]: the end of the window, cut at [d], minus its start, cut at
    [0]. *)
Definition pool_width (d k s p i : Z) : Z :=
  Z.min (i * s - p + k) d - Z.max (i * s - p) 0.

Definition clamp (v lo hi : Z) : Z := Z.max lo (Z.min v hi).

(** The width with both ends clamped to [[0, d]]. *)
Definition clamped_width (d k s p i : Z) : Z :=
  clamp (i * s - p + k) 0 d - clamp (i * s - p) 0 d.

(** The per-axis widths at an output position. *)
Fixpoint pool_widths (dims ks st pad oo : list Z) : list Z :=
  match dims, ks, st, pad, oo with
  | d :: dims', k :: ks', s :: st', p :: pad', o :: oo' =>
      pool_width d k s p o :: pool_widths dims' ks' st' pad' oo'
  | _, _, _, _, _ => []
  end.

(** Every integer that the computation of the widths meets on an axis is
    within the bound. *)
Fixpoint axes_within (bound : Z) (dims ks st pad : list Z) : bool :=
  match dims, ks, st, pad with
  | d :: dims', k :: ks', s :: st', p :: pad' =>
      (d + k + p + GetConvOutDim d k s p false * s <=? bound)
      && axes_within bound dims' ks' st' pad'
  | _, _, _, _ => true
  end.

(** The product, in the element type, of a list of widths that is not
    empty: the first one, multiplied by the next ones in turn. *)
Definition t_product {T : Type} {E : Element T} (ws : list Z) : T :=
  match ws with
  | [] => t_cast 1
  | w :: ws' => fold_left (fun acc v => t_mul acc (t_cast v)) ws' (t_cast w)
  end.

(** The per-axis widths with both ends clamped. *)
Fixpoint clamped_widths (dims ks st pad oo : list Z) : list Z :=
  match dims, ks, st, pad, oo with
  | d :: dims', k :: ks', s :: st', p :: pad', o :: oo' =>
      clamped_width d k s p o :: clamped_widths dims' ks' st' pad' oo'
  | _, _, _, _, _ => []
  end.

(** The pad is below the kernel size on every axis. *)
Fixpoint pad_below_kernel (ks pad : list Z) : bool :=
  match ks, pad with
  | k :: ks', p :: pad' => (p <? k) && pad_below_kernel ks' pad'
  | _, _ => true
  end.

(** The pad is at most the kernel size on every axis. *)
Fixpoint pad_within_kernel (ks pad : list Z) : bool :=
  match ks, pad with
  | k :: ks', p :: pad' => (p <=? k) && pad_within_kernel ks' pad'
  | _, _ => true
  end.

(** Addition in the element type is associative and commutative, with zero
    as its unit. *)
Class ElementMonoid (T : Type) {E : Element T} : Prop := {
  t_add_assoc : forall a b c : T, t_add a (t_add b c) = t_add (t_add a b) c;
  t_add_comm : forall a b : T, t_add a b = t_add b a;
  t_add_zero : forall a : T, t_add (t_cast 0) a = a
}.

Arguments ElementMonoid T {E}.

(** The sum of the elements of a tensor's buffer. *)
Definition t_sum {T : Type} {E : Element T} (l : list T) : T :=
  fold_right t_add (t_cast 0) l.

(** The windows tile the input without overlap: on every spatial axis the
    stride is the kernel size, there is no padding, and the kernel size
    divides the extent. *)
Fixpoint tiling (dims ks st pad : list Z) : bool :=
  match dims, ks, st, pad with
  | [], [], [], [] => true
  | d :: dims', k :: ks', s :: st', p :: pad' =>
      (s =? k) && (p =? 0) && (d mod k =? 0) && tiling dims' ks' st' pad'
  | _, _, _, _ => false
  end.

(** The index [(b, c, ib, ia)] with its two blocks of [n] spatial entries
    exchanged. *)
Definition swap_index (n : nat) (idx : list Z) : list Z :=
  firstn 2 idx ++ skipn (2 + n) idx ++ firstn n (skipn 2 idx).

(** No two windows overlap: on every spatial axis the kernel size is at most
    the stride. *)
Fixpoint disjoint_windows (ks st : list Z) : bool :=
  match ks, st with
  | k :: ks', s :: st' => (k <=? s) && disjoint_windows ks' st'
  | _, _ => true
  end.

(** The number of kernel offsets of the window at output position [oo]
    whose sampled coordinate lies inside the input. *)
Definition window_inside_count (dims kernel_size stride pad oo : list Z) : Z :=
  Z.of_nat
    (length
       (filter (fun kk => inb dims (sample_coords oo kk stride pad))
          (all_indices kernel_size))).

(** The entries of a gradient tensor [g] of the input's shape at the
    positions that the window at output position [(bi, ci, oo)] samples, by
    kernel offset in scan order. *)
Definition window_entries {T : Type} {E : Element T} (g : Array T)
    (kernel_size stride pad : list Z) (bi ci : Z) (oo : list Z) : list T :=
  map (fun kk => At (t_cast 0) g (bi :: ci :: sample_coords oo kk stride pad))
    (all_indices kernel_size).

(** The dtype [uint8]: 8-bit words, unsigned comparison and unsigned
    division; its lowest value is 0. *)
Definition uint8 : Type := @word.rep 8 Naive.word8.

Definition UInt8 : Element uint8 := {|
  LowestOrInf := word.of_Z 0;
  t_cast := word.of_Z;
  t_add := word.add;
  t_sub := word.sub;
  t_mul := word.mul;
  t_div := word.divu;
  t_lt := word.ltu
|}.

(* ================================================================== *)
(** * Properties *)

(* ------------------------------------------------------------------ *)
(** ** Index ranges and indexed lists *)

Lemma zrange_length (n : Z) : length (zrange n) = Z.to_nat n.
Proof. unfold zrange. now rewrite length_map, length_seq. Qed.

Lemma In_zrange (n i : Z) : In i (zrange n) <-> 0 <= i < n.
Proof.
  unfold zrange. rewrite in_map_iff. split.
  - intros [k [<- Hk]]. apply in_seq in Hk. lia.
  - intros Hi. exists (Z.to_nat i). split; [lia |]. apply in_seq. lia.
Qed.

Lemma NoDup_zrange (n : Z) : NoDup (zrange n).
Proof.
  unfold zrange. apply Finite.Injective_map_NoDup.
  - intros a b Hab. lia.
  - apply seq_NoDup.
Qed.

Lemma zrange_nonpos (n : Z) : n <= 0 -> zrange n = [].
Proof. intros Hn. unfold zrange. now replace (Z.to_nat n) with 0%nat by lia. Qed.

Lemma zrange_succ (n : Z) : 0 <= n -> zrange (n + 1) = zrange n ++ [n].
Proof.
  intros Hn. unfold zrange.
  replace (Z.to_nat (n + 1)) with (Z.to_nat n + 1)%nat by lia.
  rewrite seq_app, map_app. simpl. f_equal. f_equal. lia.
Qed.

Lemma zrange_shift (n : Z) :
  0 <= n -> zrange (n + 1) = 0 :: map (fun i => 1 + i) (zrange n).
Proof.
  intros Hn. unfold zrange.
  replace (Z.to_nat (n + 1)) with (S (Z.to_nat n)) by lia.
  rewrite <- cons_seq. cbn [map]. change (Z.of_nat 0) with 0. f_equal.
  rewrite <- seq_shift, !map_map.
  apply map_ext. intros a. lia.
Qed.

Lemma znth_nth {A : Type} (i : Z) (l : list A) (d : A) :
  0 <= i -> znth i l d = nth (Z.to_nat i) l d.
Proof. intros Hi. unfold znth. destruct (Z.ltb_spec i 0); [lia | reflexivity]. Qed.

Lemma znth_of_nat {A : Type} (k : nat) (l : list A) (d : A) :
  znth (Z.of_nat k) l d = nth k l d.
Proof. rewrite znth_nth by lia. now rewrite Nat2Z.id. Qed.

Lemma znth_zrange (n i d : Z) : 0 <= i < n -> znth i (zrange n) d = i.
Proof.
  intros Hi. rewrite znth_nth by lia. unfold zrange.
  rewrite nth_indep with (d' := Z.of_nat 0) by (rewrite length_map, length_seq; lia).
  rewrite map_nth, seq_nth by lia. lia.
Qed.

Lemma znth_map {A B : Type} (f : A -> B) (i : Z) (l : list A) (d : A) (d' : B) :
  0 <= i < Z.of_nat (length l) -> znth i (map f l) d' = f (znth i l d).
Proof.
  intros Hi. rewrite !znth_nth by lia.
  rewrite nth_indep with (d' := f d) by (rewrite length_map; lia).
  apply map_nth.
Qed.

Lemma znth_indep {A : Type} (i : Z) (l : list A) (d d' : A) :
  0 <= i < Z.of_nat (length l) -> znth i l d = znth i l d'.
Proof. intros Hi. rewrite !znth_nth by lia. apply nth_indep. lia. Qed.

Lemma znth_In {A : Type} (i : Z) (l : list A) (d : A) :
  0 <= i < Z.of_nat (length l) -> In (znth i l d) l.
Proof. intros Hi. rewrite znth_nth by lia. apply nth_In. lia. Qed.

Lemma znth_cons {A : Type} (i : Z) (a : A) (l : list A) (d : A) :
  0 < i -> znth i (a :: l) d = znth (i - 1) l d.
Proof.
  intros Hi. rewrite !znth_nth by lia.
  replace (Z.to_nat i) with (S (Z.to_nat (i - 1))) by lia. reflexivity.
Qed.

Lemma znth_app_l {A : Type} (i : Z) (l1 l2 : list A) (d : A) :
  0 <= i < Z.of_nat (length l1) -> znth i (l1 ++ l2) d = znth i l1 d.
Proof. intros Hi. rewrite !znth_nth by lia. apply app_nth1. lia. Qed.

Lemma znth_app_r {A : Type} (i : Z) (l1 l2 : list A) (d : A) :
  Z.of_nat (length l1) <= i ->
  znth i (l1 ++ l2) d = znth (i - Z.of_nat (length l1)) l2 d.
Proof.
  intros Hi. rewrite !znth_nth by lia. rewrite app_nth2 by lia.
  f_equal. lia.
Qed.

Lemma upd_nat_length {A : Type} (n : nat) (f : A -> A) (l : list A) :
  length (upd_nat n f l) = length l.
Proof.
  revert n. induction l as [| a l IH]; intros [| n]; simpl; auto.
Qed.

Lemma zupd_length {A : Type} (i : Z) (f : A -> A) (l : list A) :
  length (zupd i f l) = length l.
Proof. unfold zupd. destruct (i <? 0); [reflexivity | apply upd_nat_length]. Qed.

Lemma upd_nat_nth {A : Type} (n m : nat) (f : A -> A) (l : list A) (d : A) :
  (n < length l)%nat ->
  nth m (upd_nat n f l) d = if Nat.eqb m n then f (nth n l d) else nth m l d.
Proof.
  revert n m. induction l as [| a l IH]; intros n m Hn; simpl in Hn; [lia |].
  destruct n as [| n]; destruct m as [| m]; simpl; auto.
  apply IH. lia.
Qed.

Lemma znth_zupd {A : Type} (i j : Z) (f : A -> A) (l : list A) (d : A) :
  0 <= i < Z.of_nat (length l) -> 0 <= j ->
  znth j (zupd i f l) d = if j =? i then f (znth i l d) else znth j l d.
Proof.
  intros Hi Hj. unfold zupd. destruct (Z.ltb_spec i 0); [lia |].
  rewrite !znth_nth by lia. rewrite upd_nat_nth by lia.
  destruct (Z.eqb_spec j i) as [-> | Hne].
  - now rewrite Nat.eqb_refl.
  - destruct (Nat.eqb_spec (Z.to_nat j) (Z.to_nat i)); [lia | reflexivity].
Qed.

Lemma upd_nat_out {A : Type} (n : nat) (f : A -> A) (l : list A) :
  (length l <= n)%nat -> upd_nat n f l = l.
Proof.
  revert n. induction l as [| a l IH]; intros n Hn; simpl in *; [reflexivity |].
  destruct n as [| n]; [lia |]. f_equal. apply IH. lia.
Qed.

Lemma app_inj_length {A : Type} (l1 l1' l2 l2' : list A) :
  length l1 = length l1' -> l1 ++ l2 = l1' ++ l2' -> l1 = l1' /\ l2 = l2'.
Proof.
  revert l1'. induction l1 as [| a l1 IH]; intros [| a' l1'] Hl Heq;
    simpl in Hl; try discriminate.
  - now split.
  - cbn [app] in Heq. injection Heq as -> Heq.
    destruct (IH l1' ltac:(lia) Heq) as [-> ->]. now split.
Qed.

(* ------------------------------------------------------------------ *)
(** ** Row-major index arithmetic *)

Lemma nonneg_forallb (sh : Shape) :
  forallb (fun d => 0 <=? d) sh = true <-> nonneg sh.
Proof.
  unfold nonneg. rewrite forallb_forall, Forall_forall.
  split; intros H d Hd; specialize (H d Hd); lia.
Qed.

Lemma nonneg_app (s1 s2 : Shape) : nonneg (s1 ++ s2) <-> nonneg s1 /\ nonneg s2.
Proof. apply Forall_app. Qed.

Lemma GetTotalSize_cons (d : Z) (sh : Shape) :
  GetTotalSize (d :: sh) = d * GetTotalSize sh.
Proof. reflexivity. Qed.

Lemma GetTotalSize_app (s1 s2 : Shape) :
  GetTotalSize (s1 ++ s2) = GetTotalSize s1 * GetTotalSize s2.
Proof.
  induction s1 as [| d s1 IH]; cbn [app].
  - unfold GetTotalSize at 2. cbn. destruct (GetTotalSize s2); reflexivity.
  - rewrite !GetTotalSize_cons, IH. ring.
Qed.

Lemma GetTotalSize_nonneg (sh : Shape) : nonneg sh -> 0 <= GetTotalSize sh.
Proof.
  induction 1 as [| d sh Hd _ IH].
  - cbv. discriminate.
  - rewrite GetTotalSize_cons. nia.
Qed.

Lemma inb_length (sh : Shape) (idx : list Z) :
  inb sh idx = true -> length idx = length sh.
Proof.
  revert idx. induction sh as [| d sh IH]; intros [| i idx] H; simpl in H;
    try discriminate; [reflexivity |].
  apply andb_prop in H. destruct H as [_ H]. simpl. f_equal. now apply IH.
Qed.

Lemma inb_cons (d : Z) (sh : Shape) (i : Z) (idx : list Z) :
  inb (d :: sh) (i :: idx) = true <-> 0 <= i < d /\ inb sh idx = true.
Proof.
  simpl. rewrite !andb_true_iff, Z.leb_le, Z.ltb_lt. tauto.
Qed.

Lemma inb_app (s1 s2 : Shape) (i1 i2 : list Z) :
  length i1 = length s1 ->
  inb (s1 ++ s2) (i1 ++ i2) = inb s1 i1 && inb s2 i2.
Proof.
  revert i1. induction s1 as [| d s1 IH]; intros [| i i1] Hl; simpl in Hl;
    try discriminate; [reflexivity |].
  cbn [app inb]. rewrite IH by lia. now rewrite andb_assoc.
Qed.

Lemma inb_nonneg_entries (sh : Shape) (idx : list Z) :
  inb sh idx = true -> Forall (fun i => 0 <= i) idx.
Proof.
  revert idx. induction sh as [| d sh IH]; intros [| i idx] H; simpl in H;
    try discriminate; [constructor |].
  apply inb_cons in H. destruct H as [Hi H]. constructor; [lia | auto].
Qed.

Lemma inb_ravel_range (sh : Shape) (idx : list Z) :
  inb sh idx = true -> 0 <= ravel sh idx < GetTotalSize sh.
Proof.
  revert idx. induction sh as [| d sh IH]; intros [| i idx] H; simpl in H;
    try discriminate.
  - cbv. split; [discriminate | reflexivity].
  - apply inb_cons in H. destruct H as [Hi H]. specialize (IH idx H).
    cbn [ravel]. rewrite GetTotalSize_cons. nia.
Qed.

Lemma unravel_ravel (sh : Shape) (idx : list Z) :
  inb sh idx = true -> unravel sh (ravel sh idx) = idx.
Proof.
  revert idx. induction sh as [| d sh IH]; intros [| i idx] H; simpl in H;
    try discriminate; [reflexivity |].
  apply inb_cons in H. destruct H as [Hi H].
  pose proof (inb_ravel_range sh idx H) as Hr.
  cbn [ravel unravel]. f_equal.
  - rewrite Z.div_add_l by lia. rewrite Z.div_small by lia. lia.
  - rewrite Z.add_comm, Z.mod_add by lia. rewrite Z.mod_small by lia. now apply IH.
Qed.

Lemma unravel_length (sh : Shape) (j : Z) : length (unravel sh j) = length sh.
Proof. revert j. induction sh as [| d sh IH]; intros j; simpl; auto. Qed.

Lemma inb_unravel (sh : Shape) (j : Z) :
  nonneg sh -> 0 <= j < GetTotalSize sh -> inb sh (unravel sh j) = true.
Proof.
  intros Hsh. revert j. induction Hsh as [| d sh Hd Hsh IH]; intros j Hj;
    [reflexivity |].
  rewrite GetTotalSize_cons in Hj.
  pose proof (GetTotalSize_nonneg _ Hsh) as Hs.
  assert (0 < GetTotalSize sh) by nia.
  cbn [unravel]. apply inb_cons. split.
  - split; [apply Z.div_pos; lia |]. apply Z.div_lt_upper_bound; lia.
  - apply IH. apply Z.mod_pos_bound. lia.
Qed.

Lemma ravel_unravel (sh : Shape) (j : Z) :
  nonneg sh -> 0 <= j < GetTotalSize sh -> ravel sh (unravel sh j) = j.
Proof.
  intros Hsh. revert j. induction Hsh as [| d sh Hd Hsh IH]; intros j Hj.
  - cbv in Hj. cbn. destruct Hj as [H0 H1]. destruct j; try reflexivity;
      [destruct p; discriminate | now elim H0].
  - rewrite GetTotalSize_cons in Hj.
    pose proof (GetTotalSize_nonneg _ Hsh) as Hs.
    assert (0 < GetTotalSize sh) by nia.
    cbn [unravel ravel]. rewrite IH by (apply Z.mod_pos_bound; lia).
    rewrite Z.mul_comm. symmetry. apply Z.div_mod. lia.
Qed.

Lemma ravel_inj (sh : Shape) (i1 i2 : list Z) :
  inb sh i1 = true -> inb sh i2 = true -> ravel sh i1 = ravel sh i2 -> i1 = i2.
Proof.
  intros H1 H2 Heq.
  rewrite <- (unravel_ravel sh i1 H1), <- (unravel_ravel sh i2 H2). now rewrite Heq.
Qed.

Lemma all_indices_length (sh : Shape) :
  length (all_indices sh) = Z.to_nat (GetTotalSize sh).
Proof. unfold all_indices. now rewrite length_map, zrange_length. Qed.

Lemma In_all_indices (sh : Shape) (idx : list Z) :
  nonneg sh -> (In idx (all_indices sh) <-> inb sh idx = true).
Proof.
  intros Hsh. unfold all_indices. rewrite in_map_iff. split.
  - intros [j [<- Hj]]. apply In_zrange in Hj. now apply inb_unravel.
  - intros H. exists (ravel sh idx). split; [now apply unravel_ravel |].
    apply In_zrange. now apply inb_ravel_range.
Qed.

Lemma znth_all_indices (sh : Shape) (j : Z) (d : list Z) :
  0 <= j < GetTotalSize sh -> znth j (all_indices sh) d = unravel sh j.
Proof.
  intros Hj. unfold all_indices.
  rewrite znth_map with (d := 0) by (rewrite zrange_length; lia).
  now rewrite znth_zrange.
Qed.

(* ------------------------------------------------------------------ *)
(** ** Arrays *)

Lemma shape_tabulate {A : Type} (sh : Shape) (f : list Z -> A) :
  shape (tabulate sh f) = sh.
Proof. reflexivity. Qed.

Lemma tabulate_length {A : Type} (sh : Shape) (f : list Z -> A) :
  length (data (tabulate sh f)) = Z.to_nat (GetTotalSize sh).
Proof. unfold tabulate. cbn [data]. now rewrite length_map, all_indices_length. Qed.

Lemma znth_tabulate {A : Type} (sh : Shape) (f : list Z -> A) (j : Z) (d : A) :
  0 <= j < GetTotalSize sh ->
  znth j (data (tabulate sh f)) d = f (unravel sh j).
Proof.
  intros Hj. unfold tabulate. cbn [data].
  rewrite znth_map with (d := []) by (rewrite all_indices_length; lia).
  now rewrite znth_all_indices.
Qed.

Lemma At_tabulate {A : Type} (sh : Shape) (f : list Z -> A) (idx : list Z) (d : A) :
  inb sh idx = true -> At d (tabulate sh f) idx = f idx.
Proof.
  intros H. unfold At. rewrite shape_tabulate.
  rewrite znth_tabulate by now apply inb_ravel_range.
  now rewrite unravel_ravel.
Qed.

Lemma wf_spec {A : Type} (a : Array A) :
  wf a = true <->
  nonneg (shape a) /\ Z.of_nat (length (data a)) = GetTotalSize (shape a).
Proof.
  unfold wf. now rewrite andb_true_iff, nonneg_forallb, Z.eqb_eq.
Qed.

Lemma wf_tabulate {A : Type} (sh : Shape) (f : list Z -> A) :
  nonneg sh -> wf (tabulate sh f) = true.
Proof.
  intros Hsh. apply wf_spec. split; [exact Hsh |].
  rewrite tabulate_length, shape_tabulate. pose proof (GetTotalSize_nonneg _ Hsh). lia.
Qed.

Lemma At_Reshape {A : Type} (a : Array A) (sh : Shape) (idx : list Z) (d : A) :
  At d (Reshape a sh) idx = znth (ravel sh idx) (data a) d.
Proof. reflexivity. Qed.

(* ------------------------------------------------------------------ *)
(** ** Axes *)

Lemma consec_length (s n : Z) : length (consec s n) = Z.to_nat n.
Proof. unfold consec. now rewrite length_map, zrange_length. Qed.

Lemma consec_nonpos (s n : Z) : n <= 0 -> consec s n = [].
Proof. intros Hn. unfold consec. now rewrite zrange_nonpos. Qed.

Lemma consec_succ (s n : Z) :
  0 <= n -> consec s (n + 1) = s :: consec (s + 1) n.
Proof.
  intros Hn. unfold consec. rewrite zrange_shift by lia. cbn [map].
  f_equal; [lia |]. rewrite map_map. apply map_ext. intros a. lia.
Qed.

Lemma consec_snoc (s n : Z) :
  0 <= n -> consec s (n + 1) = consec s n ++ [s + n].
Proof.
  intros Hn. unfold consec. rewrite zrange_succ by lia. now rewrite map_app.
Qed.

Lemma znth_consec (s n i d : Z) : 0 <= i < n -> znth i (consec s n) d = s + i.
Proof.
  intros Hi. unfold consec.
  rewrite znth_map with (d := 0) by (rewrite zrange_length; lia).
  now rewrite znth_zrange.
Qed.

Lemma In_consec (s n p : Z) : In p (consec s n) <-> s <= p < s + n.
Proof.
  unfold consec. rewrite in_map_iff. split.
  - intros [i [<- Hi]]. apply In_zrange in Hi. lia.
  - intros Hp. exists (p - s). split; [lia |]. apply In_zrange. lia.
Qed.

Lemma zrange_app (n m : Z) :
  0 <= n -> 0 <= m -> zrange (n + m) = zrange n ++ consec n m.
Proof.
  intros Hn Hm. revert m Hm. apply natlike_ind.
  - rewrite Z.add_0_r, consec_nonpos by lia. now rewrite app_nil_r.
  - intros m Hm IH. rewrite Z.add_succ_r, <- Z.add_1_r, zrange_succ by lia.
    rewrite IH. rewrite <- Z.add_1_r, consec_snoc by lia.
    now rewrite app_assoc.
Qed.

Lemma zrange_app_consec (s n m : Z) :
  0 <= n -> 0 <= m -> consec s (n + m) = consec s n ++ consec (s + n) m.
Proof.
  intros Hn Hm. unfold consec at 1 2. rewrite zrange_app, map_app by lia.
  f_equal. unfold consec. rewrite map_map. apply map_ext. intros a. lia.
Qed.

Lemma length_resize (n : nat) (v : list Z) : length (resize n v) = n.
Proof.
  unfold resize. rewrite length_app, length_firstn, repeat_length. lia.
Qed.

Lemma iota_resize (n : nat) (v : list Z) (s : Z) :
  iota (resize n v) s = consec s (Z.of_nat n).
Proof. unfold iota. now rewrite length_resize. Qed.

Lemma lookup_axis_app (p : Z) (a1 a2 : Axes) (v1 v2 : list Z) :
  length a1 = length v1 ->
  lookup_axis p (a1 ++ a2) (v1 ++ v2) =
  match lookup_axis p a1 v1 with
  | Some v => Some v
  | None => lookup_axis p a2 v2
  end.
Proof.
  revert v1. induction a1 as [| a a1 IH]; intros [| v v1] Hl; simpl in Hl;
    try discriminate; [reflexivity |].
  cbn [app lookup_axis]. destruct (a =? p); [reflexivity |]. apply IH. lia.
Qed.

Lemma lookup_axis_notin (p : Z) (axes : Axes) (vals : list Z) :
  ~ In p axes -> lookup_axis p axes vals = None.
Proof.
  revert vals. induction axes as [| a axes IH]; intros vals Hn; [reflexivity |].
  destruct vals as [| v vals]; [reflexivity |]. cbn [lookup_axis].
  destruct (Z.eqb_spec a p) as [-> | Hne].
  - elim Hn. now left.
  - apply IH. intros Hin. apply Hn. now right.
Qed.

Lemma lookup_axis_consec (s n p : Z) (vals : list Z) :
  length vals = Z.to_nat n -> s <= p < s + n ->
  lookup_axis p (consec s n) vals = Some (znth (p - s) vals 0).
Proof.
  intros Hl Hp. assert (Hn : 0 <= n) by lia.
  revert s p vals Hl Hp. pattern n. apply natlike_ind; [| | exact Hn].
  - intros. lia.
  - clear n Hn. intros n Hn IH s p vals Hl Hp.
    rewrite <- Z.add_1_r in *. rewrite consec_succ by lia.
    destruct vals as [| v vals]; [simpl in Hl; lia |].
    cbn [lookup_axis]. destruct (Z.eqb_spec s p) as [-> | Hne].
    + now rewrite Z.sub_diag.
    + rewrite IH by (simpl in Hl; lia).
      f_equal. rewrite (znth_cons (p - s)) by lia. f_equal. lia.
Qed.

Lemma map_znth_consec (s n : Z) (vals : list Z) :
  length vals = Z.to_nat n ->
  map (fun p => znth (p - s) vals 0) (consec s n) = vals.
Proof.
  intros Hl. apply nth_ext with (d := 0) (d' := 0).
  - now rewrite length_map, consec_length.
  - intros k Hk. rewrite length_map, consec_length in Hk.
    rewrite <- !znth_of_nat.
    rewrite znth_map with (d := 0) by (rewrite consec_length; lia).
    rewrite znth_consec by lia. f_equal. lia.
Qed.

(** The kernel axes of a columnar shape. *)

Lemma drop_axes_from_notin (p : Z) (axes : Axes) (sh : Shape) :
  (forall q, In q axes -> q < p) -> drop_axes_from p axes sh = sh.
Proof.
  revert p. induction sh as [| d sh IH]; intros p Hq; [reflexivity |].
  cbn [drop_axes_from].
  replace (existsb (Z.eqb p) axes) with false.
  - f_equal. apply IH. intros q Hin. specialize (Hq q Hin). lia.
  - symmetry. apply not_true_is_false. intros Hex.
    apply existsb_exists in Hex. destruct Hex as [q [Hin Heq]].
    apply Z.eqb_eq in Heq. subst q. specialize (Hq p Hin). lia.
Qed.

Lemma drop_axes_from_consec (s n : Z) (ks rest : Shape) (i : Z) :
  length ks = Z.to_nat (n - i) -> 0 <= i <= n ->
  drop_axes_from (s + i) (consec s n) (ks ++ rest) = rest.
Proof.
  revert i. induction ks as [| k ks IH]; intros i Hl Hi.
  - cbn [app]. apply drop_axes_from_notin.
    intros q Hq. apply In_consec in Hq. simpl in Hl. lia.
  - cbn [app drop_axes_from].
    replace (existsb (Z.eqb (s + i)) (consec s n)) with true.
    + replace (s + i + 1) with (s + (i + 1)) by lia.
      apply IH; simpl in Hl; lia.
    + symmetry. apply existsb_exists. exists (s + i). split;
        [| apply Z.eqb_refl]. apply In_consec. simpl in Hl. lia.
Qed.

Lemma drop_axes_kernel (b c : Z) (ks outs : Shape) :
  drop_axes (b :: c :: ks ++ outs) (consec 2 (Z.of_nat (length ks))) =
  b :: c :: outs.
Proof.
  unfold drop_axes. cbn [drop_axes_from].
  assert (Hno : forall p, p < 2 ->
            existsb (Z.eqb p) (consec 2 (Z.of_nat (length ks))) = false).
  { intros p Hp. apply not_true_is_false. intros Hex.
    apply existsb_exists in Hex. destruct Hex as [q [Hin Heq]].
    apply Z.eqb_eq in Heq. subst q. apply In_consec in Hin. lia. }
  rewrite !Hno by lia. do 2 f_equal.
  change (0 + 1 + 1) with (2 + 0).
  apply drop_axes_from_consec; lia.
Qed.

Lemma axes_dims_kernel (b c : Z) (ks outs : Shape) :
  axes_dims (b :: c :: ks ++ outs) (consec 2 (Z.of_nat (length ks))) = ks.
Proof.
  unfold axes_dims.
  rewrite <- (map_znth_consec 2 (Z.of_nat (length ks)) ks) at 2 by lia.
  apply map_ext_in. intros p Hp. apply In_consec in Hp.
  rewrite znth_cons by lia. rewrite znth_cons by lia.
  rewrite znth_app_l by lia. f_equal. lia.
Qed.

Lemma expand_from_rest (p : Z) (axes : Axes) (ri oo : list Z) :
  (forall q, In q axes -> q < p) ->
  expand_from p (length oo) axes ri oo = oo.
Proof.
  revert p. induction oo as [| o oo IH]; intros p Hq; [reflexivity |].
  cbn [length expand_from]. rewrite lookup_axis_notin.
  - f_equal. apply IH. intros q Hin. specialize (Hq q Hin). lia.
  - intros Hin. specialize (Hq p Hin). lia.
Qed.

Lemma expand_from_consec (s n : Z) (ri oo : list Z) (i : Z) (m : nat) :
  length ri = Z.to_nat n -> 0 <= i <= n -> m = Z.to_nat (n - i) ->
  expand_from (s + i) (m + length oo) (consec s n) ri oo =
  skipn (Z.to_nat i) ri ++ oo.
Proof.
  intros Hl. revert i. induction m as [| m IH]; intros i Hi Hm.
  - cbn [Nat.add]. rewrite skipn_all2 by lia. cbn [app].
    apply expand_from_rest. intros q Hq. apply In_consec in Hq. lia.
  - cbn [Nat.add expand_from].
    rewrite lookup_axis_consec by lia.
    replace (s + i + 1) with (s + (i + 1)) by lia.
    rewrite IH by lia.
    replace (s + i - s) with i by lia.
    rewrite znth_nth by lia.
    replace (Z.to_nat (i + 1)) with (S (Z.to_nat i)) by lia.
    assert (Hlt : (Z.to_nat i < length ri)%nat) by lia.
    revert Hlt. generalize (Z.to_nat i). clear. intros k.
    revert k. induction ri as [| r ri IH]; intros k Hk; simpl in Hk; [lia |].
    destruct k as [| k]; [reflexivity |].
    cbn [nth skipn]. apply IH. lia.
Qed.

Lemma expand_index_kernel (b c : Z) (ri oo : list Z) (n : nat) :
  length ri = n ->
  expand_index (2 + n + length oo) (consec 2 (Z.of_nat n)) ri (b :: c :: oo) =
  b :: c :: ri ++ oo.
Proof.
  intros Hl. unfold expand_index. cbn [Nat.add expand_from].
  rewrite !lookup_axis_notin by (intros Hin; apply In_consec in Hin; lia).
  do 2 f_equal. change (0 + 1 + 1) with (2 + 0).
  rewrite expand_from_consec with (i := 0) by lia. reflexivity.
Qed.

(** A block of consecutive axes in the middle of a shape. *)

Lemma expand_from_block (pre ri post : list Z) (p : Z) :
  expand_from p (length pre + length ri + length post)
    (consec (p + Z.of_nat (length pre)) (Z.of_nat (length ri))) ri (pre ++ post) =
  pre ++ ri ++ post.
Proof.
  revert p. induction pre as [| x pre IH]; intros p.
  - cbn [length app Nat.add]. rewrite Z.add_0_r.
    replace p with (p + 0) at 1 by lia.
    rewrite expand_from_consec with (i := 0) by lia. reflexivity.
  - cbn [length app Nat.add expand_from].
    rewrite lookup_axis_notin by (intros Hin; apply In_consec in Hin; lia).
    f_equal.
    replace (p + Z.of_nat (S (length pre))) with (p + 1 + Z.of_nat (length pre))
      by lia.
    apply IH.
Qed.

Lemma expand_index_block (pre ri post : list Z) :
  expand_index (length pre + length ri + length post)
    (consec (Z.of_nat (length pre)) (Z.of_nat (length ri))) ri (pre ++ post) =
  pre ++ ri ++ post.
Proof. unfold expand_index. apply (expand_from_block pre ri post 0). Qed.

Lemma drop_axes_from_block (pre ks post : Shape) (p : Z) :
  drop_axes_from p (consec (p + Z.of_nat (length pre)) (Z.of_nat (length ks)))
    (pre ++ ks ++ post) =
  pre ++ post.
Proof.
  revert p. induction pre as [| x pre IH]; intros p.
  - cbn [length app]. rewrite Z.add_0_r.
    replace p with (p + 0) at 1 by lia.
    apply drop_axes_from_consec; lia.
  - cbn [length app drop_axes_from].
    replace (existsb (Z.eqb p)
               (consec (p + Z.of_nat (S (length pre))) (Z.of_nat (length ks))))
      with false.
    + f_equal.
      replace (p + Z.of_nat (S (length pre))) with (p + 1 + Z.of_nat (length pre))
        by lia.
      apply IH.
    + symmetry. apply not_true_is_false. intros Hex.
      apply existsb_exists in Hex. destruct Hex as [q [Hin Heq]].
      apply Z.eqb_eq in Heq. subst q. apply In_consec in Hin. lia.
Qed.

Lemma drop_axes_block (pre ks post : Shape) :
  drop_axes (pre ++ ks ++ post)
    (consec (Z.of_nat (length pre)) (Z.of_nat (length ks))) =
  pre ++ post.
Proof. unfold drop_axes. apply (drop_axes_from_block pre ks post 0). Qed.

(* ------------------------------------------------------------------ *)
(** ** The window transform *)

Lemma valid_pool_spec (sh : Shape) (ks st pad : list Z) (cover_all : bool) :
  valid_pool sh ks st pad cover_all = true ->
  exists b c dims,
    sh = b :: c :: dims
    /\ 0 <= b /\ 0 <= c /\ nonneg dims
    /\ length dims = length ks /\ length st = length ks /\ length pad = length ks
    /\ Forall (fun k => 0 < k) ks
    /\ Forall (fun s => 0 < s) st
    /\ Forall (fun p => 0 <= p) pad
    /\ nonneg (conv_out_dims dims ks st pad cover_all).
Proof.
  unfold valid_pool. rewrite !andb_true_iff, !Nat.eqb_eq.
  intros [[[[[[[Hsh Hl] Hst] Hpad] Hks] Hs] Hp] Ho].
  destruct sh as [| b [| c dims]]; simpl in Hl; try lia.
  apply nonneg_forallb in Hsh. inversion Hsh as [| ? ? Hb Hsh']; subst.
  inversion Hsh' as [| ? ? Hc Hd]; subst.
  exists b, c, dims. cbn [skipn] in Ho.
  repeat split; try assumption; try lia.
  - rewrite Forall_forall. rewrite forallb_forall in Hks.
    intros k Hk. specialize (Hks k Hk). lia.
  - rewrite Forall_forall. rewrite forallb_forall in Hs.
    intros k Hk. specialize (Hs k Hk). lia.
  - rewrite Forall_forall. rewrite forallb_forall in Hp.
    intros k Hk. specialize (Hp k Hk). lia.
  - now apply nonneg_forallb.
Qed.

Lemma conv_out_dims_length (dims ks st pad : list Z) (cover_all : bool) :
  length dims = length ks -> length st = length ks -> length pad = length ks ->
  length (conv_out_dims dims ks st pad cover_all) = length ks.
Proof.
  revert dims st pad. induction ks as [| k ks IH]; intros dims st pad H1 H2 H3;
    destruct dims as [| d dims]; destruct st as [| s st];
    destruct pad as [| p pad]; simpl in *; try lia.
  f_equal. apply IH; lia.
Qed.

Lemma sample_coords_length (oo kk st pad : list Z) :
  length kk = length oo -> length st = length oo -> length pad = length oo ->
  length (sample_coords oo kk st pad) = length oo.
Proof.
  revert kk st pad. induction oo as [| o oo IH]; intros kk st pad H1 H2 H3;
    destruct kk as [| k kk]; destruct st as [| s st];
    destruct pad as [| p pad]; simpl in *; try lia.
  f_equal. apply IH; lia.
Qed.

Lemma nonneg_pos (ks : list Z) : Forall (fun k => 0 < k) ks -> nonneg ks.
Proof. apply Forall_impl. intros a Ha. lia. Qed.

Lemma firstn_skipn_index (b c : Z) (kk oo : list Z) (n : nat) :
  length kk = n ->
  firstn n (skipn 2 (b :: c :: kk ++ oo)) = kk
  /\ skipn (2 + n) (b :: c :: kk ++ oo) = oo.
Proof.
  intros Hl. cbn [skipn Nat.add]. split.
  - rewrite firstn_app, <- Hl, firstn_all, Nat.sub_diag. cbn. apply app_nil_r.
  - rewrite skipn_app, <- Hl, skipn_all, Nat.sub_diag. reflexivity.
Qed.

(** An index of a columnar shape splits into batch, channel, kernel offset
    and output position. *)
Lemma inb_col_inv (b c : Z) (ks outs : Shape) (idx : list Z) :
  inb (b :: c :: ks ++ outs) idx = true ->
  exists bi ci kk oo,
    idx = bi :: ci :: kk ++ oo
    /\ 0 <= bi < b /\ 0 <= ci < c
    /\ inb ks kk = true /\ inb outs oo = true.
Proof.
  intros H. destruct idx as [| bi [| ci rest]]; simpl in H;
    try discriminate; try (rewrite andb_false_r in H; discriminate).
  change (inb (b :: c :: ks ++ outs) (bi :: ci :: rest) = true) in H.
  apply inb_cons in H. destruct H as [Hb H].
  apply inb_cons in H. destruct H as [Hc H].
  pose proof (inb_length _ _ H) as Hl. rewrite length_app in Hl.
  exists bi, ci, (firstn (length ks) rest), (skipn (length ks) rest).
  rewrite firstn_skipn. rewrite <- (firstn_skipn (length ks) rest) in H.
  rewrite inb_app in H by (rewrite length_firstn; lia).
  apply andb_prop in H. tauto.
Qed.

Lemma inb_col (b c : Z) (ks outs : Shape) (bi ci : Z) (kk oo : list Z) :
  0 <= bi < b -> 0 <= ci < c -> inb ks kk = true -> inb outs oo = true ->
  inb (b :: c :: ks ++ outs) (bi :: ci :: kk ++ oo) = true.
Proof.
  intros Hb Hc Hk Ho. apply inb_cons. split; [exact Hb |].
  apply inb_cons. split; [exact Hc |].
  rewrite inb_app by (now apply inb_length). now rewrite Hk, Ho.
Qed.

Section WindowTransform.

Context {T : Type} {E : Element T}.

Lemma shape_Im2Col (x : Array T) (ks st pad : list Z) (cover_all : bool)
    (fill : T) (b c : Z) (dims : list Z) :
  shape x = b :: c :: dims ->
  shape (Im2Col x ks st pad cover_all fill) =
  b :: c :: ks ++ conv_out_dims dims ks st pad cover_all.
Proof. intros Hx. unfold Im2Col. rewrite Hx. reflexivity. Qed.

(** The columnar tensor holds, at kernel offset [kk] of window [oo], the
    input element at the sampled coordinate, or the fill value when the
    coordinate is outside the input. *)
Lemma At_Im2Col (x : Array T) (ks st pad : list Z) (cover_all : bool)
    (fill d : T) (b c : Z) (dims : list Z) (bi ci : Z) (kk oo : list Z) :
  shape x = b :: c :: dims ->
  0 <= bi < b -> 0 <= ci < c ->
  inb ks kk = true ->
  inb (conv_out_dims dims ks st pad cover_all) oo = true ->
  At d (Im2Col x ks st pad cover_all fill) (bi :: ci :: kk ++ oo) =
  if inb dims (sample_coords oo kk st pad)
  then At fill x (bi :: ci :: sample_coords oo kk st pad)
  else fill.
Proof.
  intros Hx Hb Hc Hk Ho. unfold Im2Col. rewrite Hx.
  cbn [skipn]. change (znth 0 (b :: c :: dims) 0) with b.
  change (znth 1 (b :: c :: dims) 0) with c.
  rewrite At_tabulate by now apply inb_col.
  cbv beta zeta.
  destruct (firstn_skipn_index bi ci kk oo _ (inb_length _ _ Hk)) as [H1 H2].
  cbn [skipn] in H1. rewrite H1, H2. reflexivity.
Qed.

End WindowTransform.

(* ------------------------------------------------------------------ *)
(** ** Reductions along the kernel axes *)

Section Reductions.

Context {T : Type} {E : Element T}.

(** Along the kernel axes of a columnar tensor, the reduction at an output
    position folds the entries of that window, by kernel offset in scan
    order. *)
Lemma reduced_elems_kernel (col : Array T) (b c : Z) (ks outs : Shape)
    (bi ci : Z) (oo : list Z) :
  shape col = b :: c :: ks ++ outs ->
  length oo = length outs ->
  reduced_elems col (consec 2 (Z.of_nat (length ks))) (bi :: ci :: oo) =
  map (fun kk => At (t_cast 0) col (bi :: ci :: kk ++ oo)) (all_indices ks).
Proof.
  intros Hs Hl. unfold reduced_elems. rewrite Hs, axes_dims_kernel.
  apply map_ext_in. intros kk Hkk. f_equal.
  assert (Hlen : length kk = length ks).
  { unfold all_indices in Hkk. apply in_map_iff in Hkk.
    destruct Hkk as [j [<- _]]. apply unravel_length. }
  cbn [length]. rewrite length_app, <- Hl.
  replace (S (S (length ks + length oo))) with (2 + length ks + length oo)%nat
    by lia.
  now apply expand_index_kernel.
Qed.

Lemma fold_max_in (l : list T) (init : T) :
  fold_left max_step l init = init \/ In (fold_left max_step l init) l.
Proof.
  revert init. induction l as [| v l IH]; intros init; [now left |].
  cbn [fold_left]. destruct (IH (max_step init v)) as [H | H].
  - rewrite H. unfold max_step. destruct (t_lt init v); [right | left]; auto.
    now left.
  - right. now right.
Qed.

Lemma argmax_scan_fst (l : list T) (i : Z) (m : T) (j : Z) :
  0 <= i -> 0 <= j ->
  fst (argmax_scan l i (m, j)) = fold_left max_step l m.
Proof.
  revert i m j. induction l as [| v l IH]; intros i m j Hi Hj; [reflexivity |].
  cbn [argmax_scan fold_left]. unfold argmax_step, max_step. cbn [fst snd].
  destruct (Z.ltb_spec j 0); [lia |]. cbn [orb].
  destruct (t_lt m v); apply IH; lia.
Qed.

Context {O : ElementOrder T}.

Lemma max_step_lt (a b : T) : t_lt a b = true -> max_step a b = b.
Proof. intros H. unfold max_step. now rewrite H. Qed.

Lemma max_step_ge (a b : T) : t_lt a b = false -> max_step a b = a.
Proof. intros H. unfold max_step. now rewrite H. Qed.

Lemma t_lt_asym (a b : T) : t_lt a b = true -> t_lt b a = false.
Proof.
  intros Hab. destruct (t_lt b a) eqn:Hba; [| reflexivity].
  pose proof (t_lt_trans _ _ _ Hab Hba) as H. now rewrite t_lt_irrefl in H.
Qed.

(** The running maximum only grows. *)
Lemma fold_max_mono (l : list T) (init : T) :
  fold_left max_step l init = init
  \/ t_lt init (fold_left max_step l init) = true.
Proof.
  revert init. induction l as [| v l IH]; intros init; [now left |].
  cbn [fold_left]. specialize (IH (max_step init v)).
  destruct (t_lt init v) eqn:Hlt.
  - rewrite max_step_lt in * by exact Hlt.
    right. destruct IH as [-> | IH]; [exact Hlt |].
    exact (t_lt_trans _ _ _ Hlt IH).
  - rewrite max_step_ge in * by exact Hlt. exact IH.
Qed.

(** No element of the list is above the maximum. *)
Lemma fold_max_ge (l : list T) (init : T) (v : T) :
  In v l -> t_lt (fold_left max_step l init) v = false.
Proof.
  revert init. induction l as [| u l IH]; intros init Hin; [destruct Hin |].
  cbn [fold_left]. destruct Hin as [-> | Hin]; [| now apply IH].
  destruct (t_lt init v) eqn:Hiv.
  - rewrite max_step_lt by exact Hiv.
    destruct (fold_max_mono l v) as [-> | Hlt];
      [apply t_lt_irrefl | now apply t_lt_asym].
  - rewrite max_step_ge by exact Hiv.
    destruct (fold_max_mono l init) as [-> | Hlt]; [exact Hiv |].
    destruct (t_lt (fold_left max_step l init) v) eqn:Hc; [| reflexivity].
    rewrite (t_lt_trans _ _ _ Hlt Hc) in Hiv. discriminate.
Qed.

(** From [LowestOrInf] the first step takes the first element. *)
Lemma max_step_lowest (v : T) : max_step LowestOrInf v = v.
Proof.
  destruct (t_lt LowestOrInf v) eqn:H.
  - now apply max_step_lt.
  - rewrite max_step_ge by exact H. symmetry. now apply t_lt_lowest.
Qed.

(** The scan from a position [i] with a maximum [m] already found at [j]:
    either nothing in the list is above [m] and [j] stays, or the new
    position is the first of the list that holds the new maximum. *)
Lemma argmax_scan_inv (l : list T) (d : T) (i : Z) (m : T) (j : Z) :
  0 <= j < i ->
  let r := argmax_scan l i (m, j) in
  (forall v, In v l -> t_lt (fst r) v = false)
  /\ ((snd r = j /\ fst r = m)
      \/ (i <= snd r < i + Z.of_nat (length l)
          /\ znth (snd r - i) l d = fst r
          /\ t_lt m (fst r) = true
          /\ forall k, i <= k < snd r -> znth (k - i) l d <> fst r)).
Proof.
  revert i m j. induction l as [| v l IH]; intros i m j Hj; cbn zeta.
  - cbn. split; [intros v [] | now left].
  - cbn [argmax_scan]. unfold argmax_step. cbn [fst snd].
    destruct (Z.ltb_spec j 0); [lia |]. cbn [orb].
    destruct (t_lt m v) eqn:Hmv.
    + specialize (IH (i + 1) v i ltac:(lia)). cbn zeta in IH.
      destruct IH as [Hall Hcase].
      set (r := argmax_scan l (i + 1) (v, i)) in *.
      assert (Hv : t_lt (fst r) v = false).
      { destruct Hcase as [[_ ->] | (_ & _ & Hlt & _)];
          [apply t_lt_irrefl | now apply t_lt_asym]. }
      split; [intros u [<- | Hu]; auto |].
      right. destruct Hcase as [[Hs Hf] | (Hr & Hz & Hlt & Hfirst)].
      * rewrite Hs, Hf. split; [cbn [length]; lia |].
        split; [now rewrite Z.sub_diag |].
        split; [exact Hmv |].
        intros k Hk. lia.
      * split; [cbn [length]; lia |].
        split; [rewrite znth_cons by lia; rewrite <- Hz; f_equal; lia |].
        split; [exact (t_lt_trans _ _ _ Hmv Hlt) |].
        intros k Hk. destruct (Z.eq_dec k i) as [-> | Hne].
           ++ rewrite Z.sub_diag. change (znth 0 (v :: l) d) with v.
              intros Heq. rewrite <- Heq, t_lt_irrefl in Hlt. discriminate.
           ++ rewrite znth_cons by lia.
              replace (k - i - 1) with (k - (i + 1)) by lia.
              apply Hfirst. lia.
    + specialize (IH (i + 1) m j ltac:(lia)). cbn zeta in IH.
      destruct IH as [Hall Hcase].
      set (r := argmax_scan l (i + 1) (m, j)) in *.
      assert (Hv : t_lt (fst r) v = false).
      { destruct Hcase as [[_ ->] | (_ & _ & Hlt & _)]; [exact Hmv |].
        destruct (t_lt (fst r) v) eqn:Hc; [| reflexivity].
        rewrite (t_lt_trans _ _ _ Hlt Hc) in Hmv. discriminate. }
      split; [intros u [<- | Hu]; auto |].
      destruct Hcase as [[Hs Hf] | (Hr & Hz & Hlt & Hfirst)]; [now left |].
      right. split; [cbn [length]; lia |].
      split; [rewrite znth_cons by lia; rewrite <- Hz; f_equal; lia |].
      split; [exact Hlt |].
      intros k Hk. destruct (Z.eq_dec k i) as [-> | Hne].
      * rewrite Z.sub_diag. change (znth 0 (v :: l) d) with v.
        intros Heq. rewrite <- Heq in Hlt. congruence.
      * rewrite znth_cons by lia.
        replace (k - i - 1) with (k - (i + 1)) by lia.
        apply Hfirst. lia.
Qed.

End Reductions.

(* ------------------------------------------------------------------ *)
(** ** The dtype [int64] *)

Lemma int64_signed_lowest :
  word.signed (word.of_Z (- 2 ^ 63) : int64) = - 2 ^ 63.
Proof. rewrite word.signed_of_Z. reflexivity. Qed.

#[export] Instance Int64_order : ElementOrder int64.
Proof.
  split.
  - intros a. cbn [t_lt Int64]. rewrite word.signed_lts. apply Z.ltb_irrefl.
  - intros a b c. cbn [t_lt Int64]. rewrite !word.signed_lts, !Z.ltb_lt. lia.
  - intros v. cbn [t_lt LowestOrInf Int64].
    rewrite word.signed_lts, int64_signed_lowest, Z.ltb_ge. intros Hv.
    pose proof (word.signed_range v) as Hr.
    rewrite <- (word.of_Z_signed v). f_equal.
    change (2 ^ (64 - 1)) with (2 ^ 63) in Hr. lia.
Qed.

Lemma int64_signed_small (a : Z) :
  Z.abs a <= 2 ^ 63 - 1 -> word.signed (word.of_Z a : int64) = a.
Proof.
  intros Ha. rewrite word.signed_of_Z. unfold word.swrap.
  change (2 ^ (64 - 1)) with (2 ^ 63). change (2 ^ 64) with (2 * 2 ^ 63).
  rewrite Z.mod_small by lia. lia.
Qed.

#[export] Instance Int64_exact : ElementExact int64 (2 ^ 63 - 1).
Proof.
  split; cbn [t_add t_sub t_mul t_lt t_cast Int64].
  - intros a b _ _ _. symmetry. apply word.ring_morph_add.
  - intros a b _ _ _. symmetry. apply word.ring_morph_sub.
  - intros a b _ _ _. symmetry. apply word.ring_morph_mul.
  - intros a b Ha Hb. rewrite word.signed_lts.
    now rewrite !int64_signed_small.
  - intros v. apply word.unsigned_inj.
    rewrite word.unsigned_add, word.unsigned_of_Z_0, Z.add_0_l.
    apply word.wrap_unsigned.
Qed.

#[export] Instance Int64_monoid : ElementMonoid int64.
Proof.
  split; cbn [t_add t_cast Int64]; intros; apply word.unsigned_inj;
    rewrite ?word.unsigned_add, ?word.unsigned_of_Z_0; unfold word.wrap.
  - rewrite Zplus_mod_idemp_r, Zplus_mod_idemp_l. f_equal. lia.
  - f_equal. lia.
  - rewrite Z.add_0_l. apply word.wrap_unsigned.
Qed.

(* ------------------------------------------------------------------ *)
(** ** Argmax and maximum agree *)

Section ArgMaxFirst.

Context {T : Type} {E : Element T} {O : ElementOrder T}.

(** The argmax scan of a list that is not empty ends at the first position
    that holds the maximum the max reduction returns. *)
Lemma argmax_first (l : list T) :
  l <> [] ->
  first_max l (snd (argmax_scan l 0 (t_cast 0, -1)))
    (fold_left max_step l LowestOrInf).
Proof.
  destruct l as [| v l]; [congruence | intros _].
  cbn [argmax_scan fold_left]. unfold argmax_step. cbn [fst snd orb Z.ltb].
  change (-1 <? 0) with true. cbn [orb].
  rewrite max_step_lowest.
  rewrite <- (argmax_scan_fst l 1 v 0) by lia.
  pose proof (argmax_scan_inv l (fst (argmax_scan l (0 + 1) (v, 0))) (0 + 1) v 0
                ltac:(lia)) as H.
  cbn zeta in H. change (0 + 1) with 1 in *.
  set (r := argmax_scan l 1 (v, 0)) in *.
  destruct H as [Hall [[Hs Hf] | (Hr & Hz & Hlt & Hfirst)]]; unfold first_max.
  - rewrite Hs, Hf. split; [cbn [length]; lia |].
    split; [reflexivity |].
    split; [| intros k Hk; lia].
    intros u [<- | Hu]; [apply t_lt_irrefl |].
    rewrite <- Hf. now apply Hall.
  - split; [cbn [length]; lia |].
    split; [rewrite znth_cons by lia; exact Hz |].
    split.
    + intros u [<- | Hu]; [now apply t_lt_asym | now apply Hall].
    + intros k Hk. destruct (Z.eq_dec k 0) as [-> | Hne].
      * change (znth 0 (v :: l) (fst r)) with v.
        intros Heq. rewrite <- Heq, t_lt_irrefl in Hlt. discriminate.
      * rewrite znth_cons by lia. apply Hfirst. lia.
Qed.

End ArgMaxFirst.

(* ------------------------------------------------------------------ *)
(** ** The swap of the spatial axes *)

Lemma ravel_app (s1 s2 : Shape) (i1 i2 : list Z) :
  length i1 = length s1 ->
  ravel (s1 ++ s2) (i1 ++ i2) = ravel s1 i1 * GetTotalSize s2 + ravel s2 i2.
Proof.
  revert i1. induction s1 as [| d s1 IH]; intros [| i i1] Hl; simpl in Hl;
    try discriminate; [reflexivity |].
  cbn [app ravel]. rewrite IH by lia. rewrite GetTotalSize_app. ring.
Qed.

Lemma fold_left_mul (ks : list Z) (a : Z) :
  fold_left Z.mul ks a = a * GetTotalSize ks.
Proof.
  revert a. induction ks as [| k ks IH]; intros a; cbn [fold_left].
  - unfold GetTotalSize. cbn. lia.
  - rewrite IH, GetTotalSize_cons. ring.
Qed.

Lemma kernel_total_size_eq (ks : list Z) : fold_left Z.mul ks 1 = GetTotalSize ks.
Proof. rewrite fold_left_mul. lia. Qed.

Lemma GetTotalSize_pos (ks : list Z) :
  Forall (fun k => 0 < k) ks -> 0 < GetTotalSize ks.
Proof.
  induction 1 as [| k ks Hk _ IH]; [reflexivity |].
  rewrite GetTotalSize_cons. nia.
Qed.

(** The loop of [GetSwapSpatialDimensionsAxes] after [j] rounds. *)
Lemma swap_loop_znth (n j : Z) (axes : list Z) (p : Z) :
  0 <= j <= n -> Z.of_nat (length axes) = 2 + 2 * n -> 0 <= p ->
  let r := fold_left (fun axes i => zset (n + i) i (zset i (n + i) axes))
             (map (fun k => 2 + k) (zrange j)) axes in
  length r = length axes
  /\ znth p r 0 =
     if (2 <=? p) && (p <? 2 + j) then n + p
     else if (n + 2 <=? p) && (p <? n + 2 + j) then p - n
     else znth p axes 0.
Proof.
  intros Hj Hlen Hp. cbn zeta. destruct Hj as [Hj0 Hjn].
  revert Hjn. pattern j. apply natlike_ind; [| | exact Hj0]; clear j Hj0.
  - intros _. cbn [zrange Z.to_nat seq map fold_left]. split; [reflexivity |].
    destruct (Z.leb_spec 2 p), (Z.ltb_spec p (2 + 0)),
      (Z.leb_spec (n + 2) p), (Z.ltb_spec p (n + 2 + 0)); cbn [andb]; lia || reflexivity.
  - intros j Hj0 IH Hjn. rewrite <- Z.add_1_r in *.
    destruct (IH ltac:(lia)) as [IHl IHz]. clear IH.
    rewrite zrange_succ, map_app, fold_left_app by lia. cbn [map fold_left].
    set (r := fold_left _ _ axes) in *.
    unfold zset. split; [now rewrite !zupd_length |].
    rewrite znth_zupd by (rewrite ?zupd_length; lia).
    rewrite znth_zupd by lia.
    destruct (Z.eqb_spec p (n + (2 + j))) as [-> | Hne1].
    + destruct (Z.leb_spec 2 (n + (2 + j))), (Z.ltb_spec (n + (2 + j)) (2 + (j + 1))),
        (Z.leb_spec (n + 2) (n + (2 + j))),
        (Z.ltb_spec (n + (2 + j)) (n + 2 + (j + 1))); cbn [andb]; lia.
    + destruct (Z.eqb_spec p (2 + j)) as [-> | Hne2].
      * destruct (Z.leb_spec 2 (2 + j)), (Z.ltb_spec (2 + j) (2 + (j + 1)));
          cbn [andb]; lia.
      * rewrite IHz.
        destruct (Z.leb_spec 2 p), (Z.ltb_spec p (2 + j)),
          (Z.ltb_spec p (2 + (j + 1))), (Z.leb_spec (n + 2) p),
          (Z.ltb_spec p (n + 2 + j)), (Z.ltb_spec p (n + 2 + (j + 1)));
          cbn [andb]; lia || reflexivity.
Qed.

(** [GetSwapSpatialDimensionsAxes(n)] is [(0, 1, n+2..2n+1, 2..n+1)]. *)
Lemma GetSwapSpatialDimensionsAxes_eq (n : Z) :
  0 <= n ->
  GetSwapSpatialDimensionsAxes n = 0 :: 1 :: consec (n + 2) n ++ consec 2 n.
Proof.
  intros Hn. unfold GetSwapSpatialDimensionsAxes.
  set (axes0 := zset 1 1 (zset 0 0 (resize (Z.to_nat (2 + 2 * n)) []))).
  assert (Hl0 : Z.of_nat (length axes0) = 2 + 2 * n).
  { unfold axes0, zset. rewrite !zupd_length, length_resize. lia. }
  assert (H0 : znth 0 axes0 0 = 0 /\ znth 1 axes0 0 = 1).
  { unfold axes0, zset.
    rewrite !znth_zupd by (rewrite ?zupd_length, ?length_resize; lia).
    cbn. split; reflexivity. }
  apply nth_ext with (d := 0) (d' := 0).
  - destruct (swap_loop_znth n n axes0 0 ltac:(lia) Hl0 ltac:(lia)) as [-> _].
    cbn [length]. rewrite length_app, !consec_length. lia.
  - intros k Hk.
    destruct (swap_loop_znth n n axes0 (Z.of_nat k) ltac:(lia) Hl0 ltac:(lia))
      as [Hl Hz].
    rewrite Hl in Hk. rewrite <- !znth_of_nat. rewrite Hz. clear Hz.
    destruct (Z.leb_spec 2 (Z.of_nat k)) as [H2 | H2]; cbn [andb].
    + rewrite znth_cons by lia. rewrite znth_cons by lia.
      destruct (Z.ltb_spec (Z.of_nat k) (2 + n)) as [H3 | H3].
      * rewrite znth_app_l by (rewrite consec_length; lia).
        rewrite znth_consec by lia. lia.
      * destruct (Z.leb_spec (n + 2) (Z.of_nat k)); [| lia].
        destruct (Z.ltb_spec (Z.of_nat k) (n + 2 + n)); [| lia]. cbn [andb].
        rewrite znth_app_r by (rewrite consec_length; lia).
        rewrite consec_length. rewrite znth_consec by lia. lia.
    + destruct (Z.leb_spec (n + 2) (Z.of_nat k)); [lia |]. cbn [andb].
      destruct k as [| [| k]]; [apply H0 | apply H0 | lia].
Qed.

Lemma lookup_axis_swap (n : nat) (b c : Z) (aa bb : list Z) (p : Z) :
  length aa = n -> length bb = n ->
  lookup_axis p (0 :: 1 :: consec (Z.of_nat n + 2) (Z.of_nat n)
                   ++ consec 2 (Z.of_nat n))
    (b :: c :: aa ++ bb) =
  if p =? 0 then Some b
  else if p =? 1 then Some c
  else if (Z.of_nat n + 2 <=? p) && (p <? Z.of_nat n + 2 + Z.of_nat n)
       then Some (znth (p - (Z.of_nat n + 2)) aa 0)
  else if (2 <=? p) && (p <? 2 + Z.of_nat n) then Some (znth (p - 2) bb 0)
  else None.
Proof.
  intros Ha Hb. cbn [lookup_axis].
  destruct (Z.eqb_spec 0 p) as [<- | H0]; [reflexivity |].
  destruct (Z.eqb_spec p 0); [lia |].
  destruct (Z.eqb_spec 1 p) as [<- | H1]; [reflexivity |].
  destruct (Z.eqb_spec p 1); [lia |].
  rewrite lookup_axis_app by (rewrite consec_length; lia).
  destruct (Z.leb_spec (Z.of_nat n + 2) p), (Z.ltb_spec p (Z.of_nat n + 2 + Z.of_nat n));
    cbn [andb].
  - now rewrite lookup_axis_consec by lia.
  - rewrite lookup_axis_notin by (intros Hin; apply In_consec in Hin; lia).
    destruct (Z.leb_spec 2 p), (Z.ltb_spec p (2 + Z.of_nat n)); cbn [andb];
      try lia.
    apply lookup_axis_notin. intros Hin; apply In_consec in Hin; lia.
  - rewrite lookup_axis_notin by (intros Hin; apply In_consec in Hin; lia).
    destruct (Z.leb_spec 2 p), (Z.ltb_spec p (2 + Z.of_nat n)); cbn [andb].
    + now rewrite lookup_axis_consec by lia.
    + lia.
    + apply lookup_axis_notin. intros Hin; apply In_consec in Hin; lia.
    + apply lookup_axis_notin. intros Hin; apply In_consec in Hin; lia.
  - lia.
Qed.

(** The index of the source that the swap reads at [(b, c, aa, bb)] is
    [(b, c, bb, aa)]. *)
Lemma swap_source_index (n : nat) (b c : Z) (aa bb : list Z) :
  length aa = n -> length bb = n ->
  map (fun p =>
         match lookup_axis p (GetSwapSpatialDimensionsAxes (Z.of_nat n))
                 (b :: c :: aa ++ bb) with
         | Some v => v
         | None => 0
         end)
    (zrange (Z.of_nat (2 + n + n))) =
  b :: c :: bb ++ aa.
Proof.
  intros Ha Hb. rewrite GetSwapSpatialDimensionsAxes_eq by lia.
  replace (Z.of_nat (2 + n + n)) with (2 + (Z.of_nat n + Z.of_nat n)) by lia.
  rewrite zrange_app by lia. change (zrange 2) with [0; 1].
  rewrite (zrange_app_consec 2 (Z.of_nat n) (Z.of_nat n)) by lia.
  cbn [app map]. rewrite !lookup_axis_swap by assumption.
  cbn [Z.eqb]. do 2 f_equal. rewrite map_app. f_equal.
  - transitivity (map (fun p => znth (p - 2) bb 0) (consec 2 (Z.of_nat n)));
      [| apply map_znth_consec; lia].
    apply map_ext_in. intros p Hp. apply In_consec in Hp.
    rewrite lookup_axis_swap by assumption.
    destruct (Z.eqb_spec p 0); [lia |]. destruct (Z.eqb_spec p 1); [lia |].
    destruct (Z.leb_spec (Z.of_nat n + 2) p); cbn [andb]; [lia |].
    destruct (Z.leb_spec 2 p), (Z.ltb_spec p (2 + Z.of_nat n)); cbn [andb];
      lia || reflexivity.
  - transitivity (map (fun p => znth (p - (2 + Z.of_nat n)) aa 0)
                    (consec (2 + Z.of_nat n) (Z.of_nat n)));
      [| apply map_znth_consec; lia].
    apply map_ext_in. intros p Hp. apply In_consec in Hp.
    rewrite lookup_axis_swap by assumption.
    destruct (Z.eqb_spec p 0); [lia |]. destruct (Z.eqb_spec p 1); [lia |].
    destruct (Z.leb_spec (Z.of_nat n + 2) p),
      (Z.ltb_spec p (Z.of_nat n + 2 + Z.of_nat n)); cbn [andb]; try lia.
    f_equal. f_equal. lia.
Qed.

Lemma axes_dims_block (pre ks post : Shape) :
  axes_dims (pre ++ ks ++ post)
    (consec (Z.of_nat (length pre)) (Z.of_nat (length ks))) = ks.
Proof.
  unfold axes_dims.
  transitivity (map (fun p => znth (p - Z.of_nat (length pre)) ks 0)
                  (consec (Z.of_nat (length pre)) (Z.of_nat (length ks))));
    [| apply map_znth_consec; lia].
  apply map_ext_in. intros p Hp. apply In_consec in Hp.
  rewrite znth_app_r by lia. now rewrite znth_app_l by lia.
Qed.

Lemma axes_dims_swap (n : nat) (b c : Z) (sa sb : Shape) :
  length sa = n -> length sb = n ->
  axes_dims (b :: c :: sa ++ sb) (GetSwapSpatialDimensionsAxes (Z.of_nat n)) =
  b :: c :: sb ++ sa.
Proof.
  intros Ha Hb. rewrite GetSwapSpatialDimensionsAxes_eq by lia.
  unfold axes_dims. cbn [map]. change (znth 0 (b :: c :: sa ++ sb) 0) with b.
  change (znth 1 (b :: c :: sa ++ sb) 0) with c. do 2 f_equal.
  rewrite map_app. f_equal.
  - pose proof (axes_dims_block ([b; c] ++ sa) sb []) as H.
    rewrite app_nil_r, length_app, Ha, Hb in H. cbn [length] in H.
    unfold axes_dims in H. rewrite <- app_assoc in H. cbn [app] in H.
    etransitivity; [| exact H]. f_equal. f_equal. lia.
  - pose proof (axes_dims_block [b; c] sa sb) as H.
    rewrite Ha in H. cbn [length app] in H. exact H.
Qed.

Section TransposeSwap.

Context {T : Type} {E : Element T}.

Lemma shape_Transpose_swap (a : Array T) (n : nat) (b c : Z) (sa sb : Shape) :
  shape a = b :: c :: sa ++ sb -> length sa = n -> length sb = n ->
  shape (Transpose a (GetSwapSpatialDimensionsAxes (Z.of_nat n))) =
  b :: c :: sb ++ sa.
Proof.
  intros Hs Ha Hb. unfold Transpose. rewrite shape_tabulate, Hs.
  now apply axes_dims_swap.
Qed.

(** The swapped tensor at [(bi, ci, ib, ia)] is the source at
    [(bi, ci, ia, ib)]. *)
Lemma At_Transpose_swap (a : Array T) (n : nat) (b c : Z) (sa sb : Shape)
    (d : T) (bi ci : Z) (ia ib : list Z) :
  shape a = b :: c :: sa ++ sb -> length sa = n -> length sb = n ->
  0 <= bi < b -> 0 <= ci < c -> inb sa ia = true -> inb sb ib = true ->
  At d (Transpose a (GetSwapSpatialDimensionsAxes (Z.of_nat n)))
    (bi :: ci :: ib ++ ia) =
  At (t_cast 0) a (bi :: ci :: ia ++ ib).
Proof.
  intros Hs Ha Hb Hbi Hci Hia Hib. unfold Transpose.
  rewrite Hs at 1. rewrite (axes_dims_swap n b c sa sb Ha Hb).
  rewrite At_tabulate by now apply inb_col.
  f_equal. rewrite Hs. cbn [length]. rewrite length_app, Ha, Hb.
  replace (S (S (n + n))) with (2 + n + n)%nat by lia.
  apply swap_source_index.
  - apply inb_length in Hib. lia.
  - apply inb_length in Hia. lia.
Qed.

End TransposeSwap.

(* ------------------------------------------------------------------ *)
(** ** The flat gradient buffer *)

Lemma map2_length {A B C : Type} (f : A -> B -> C) (l1 : list A) (l2 : list B) :
  length (map2 f l1 l2) = Nat.min (length l1) (length l2).
Proof.
  revert l2. induction l1 as [| a l1 IH]; intros [| b l2]; simpl; auto.
Qed.

Lemma nth_map2 {A B C : Type} (f : A -> B -> C) (l1 : list A) (l2 : list B)
    (k : nat) (da : A) (db : B) (dc : C) :
  (k < length l1)%nat -> (k < length l2)%nat ->
  nth k (map2 f l1 l2) dc = f (nth k l1 da) (nth k l2 db).
Proof.
  revert l2 k. induction l1 as [| a l1 IH]; intros [| b l2] k H1 H2;
    simpl in *; try lia.
  destruct k as [| k]; [reflexivity |]. apply IH; lia.
Qed.

Lemma znth_map2 {A B C : Type} (f : A -> B -> C) (l1 : list A) (l2 : list B)
    (i : Z) (da : A) (db : B) (dc : C) :
  0 <= i < Z.of_nat (length l1) -> 0 <= i < Z.of_nat (length l2) ->
  znth i (map2 f l1 l2) dc = f (znth i l1 da) (znth i l2 db).
Proof.
  intros H1 H2. rewrite !znth_nth by lia. apply nth_map2; lia.
Qed.

Lemma Arange_data (n k : Z) :
  0 <= n -> 0 < k ->
  Arange 0 (n * k) k = mkArray [n] (map (fun i => 0 + i * k) (zrange n)).
Proof.
  intros Hn Hk. unfold Arange.
  replace ((n * k - 0 + k - 1) / k) with n; [reflexivity |].
  replace (n * k - 0 + k - 1) with (n * k + (k - 1)) by lia.
  rewrite Z.div_add_l by lia. rewrite Z.div_small by lia. lia.
Qed.

(** The write positions of the scatter-add: [index + position * k]. *)
Lemma znth_index_plus_offset (idx : list Z) (n k o : Z) :
  Z.of_nat (length idx) = n -> 0 < k -> 0 <= o < n ->
  znth o (data (Add (mkArray [n] idx) (Arange 0 (n * k) k))) 0 =
  znth o idx 0 + o * k.
Proof.
  intros Hl Hk Ho. rewrite Arange_data by lia. unfold Add. cbn [data].
  rewrite znth_map2 with (da := 0) (db := 0)
    by (rewrite ?length_map, ?zrange_length; lia).
  rewrite znth_map with (d := 0) by (rewrite zrange_length; lia).
  rewrite znth_zrange by lia. lia.
Qed.

Lemma length_index_plus_offset (idx : list Z) (n k : Z) :
  Z.of_nat (length idx) = n -> 0 < k ->
  Z.of_nat (length (data (Add (mkArray [n] idx) (Arange 0 (n * k) k)))) = n.
Proof.
  intros Hl Hk. rewrite Arange_data by lia. unfold Add. cbn [data].
  rewrite map2_length, length_map, zrange_length. lia.
Qed.

Section Scatter.

Context {T : Type} {E : Element T}.

Lemma add_at_length (buf : list T) (pos : Z) (v : T) :
  length (add_at buf pos v) = length buf.
Proof. apply zupd_length. Qed.

(** The buffer after the first [m] writes: the slice of an output position
    [o < m] holds its [gout] value at its index and zero elsewhere, and the
    other slices are still zero. *)
Lemma scatter_rounds (pos : list Z) (idx : list Z) (g : list T) (n k m : Z) (d : T) :
  0 < k -> 0 <= m <= n ->
  (forall o, 0 <= o < n -> znth o pos 0 = znth o idx 0 + o * k) ->
  (forall o, 0 <= o < n -> 0 <= znth o idx 0 < k) ->
  let buf :=
    fold_left (fun buf i => add_at buf (znth i pos 0) (znth i g (t_cast 0)))
      (zrange m) (repeat (t_cast 0) (Z.to_nat (n * k))) in
  Z.of_nat (length buf) = n * k
  /\ forall o j, 0 <= o < n -> 0 <= j < k ->
       znth (o * k + j) buf d =
       if (o <? m) && (j =? znth o idx 0)
       then t_add (t_cast 0) (znth o g (t_cast 0))
       else t_cast 0.
Proof.
  intros Hk [Hm0 Hmn] Hpos Hidx. cbn zeta.
  revert Hmn. pattern m. apply natlike_ind; [| | exact Hm0]; clear m Hm0.
  - intros Hn. cbn [zrange Z.to_nat seq map fold_left]. split.
    + rewrite repeat_length. nia.
    + intros o j Ho Hj. destruct (Z.ltb_spec o 0); [lia |]. cbn [andb].
      rewrite znth_nth by nia. apply nth_repeat_lt. nia.
  - intros m Hm0 IH Hmn. rewrite <- Z.add_1_r in *.
    destruct (IH ltac:(lia)) as [IHl IHz]. clear IH.
    rewrite zrange_succ, fold_left_app by lia. cbn [fold_left].
    set (buf := fold_left _ (zrange m) _) in *.
    split; [now rewrite add_at_length |].
    intros o j Ho Hj. unfold add_at.
    pose proof (Hidx m ltac:(lia)) as Him.
    rewrite znth_zupd by (rewrite ?Hpos by lia; nia).
    rewrite Hpos by lia.
    destruct (Z.eqb_spec (o * k + j) (znth m idx 0 + m * k)) as [Heq | Hne].
    + assert (o = m) by nia. subst o. assert (j = znth m idx 0) by lia. subst j.
      replace (znth m idx 0 + m * k) with (m * k + znth m idx 0) by lia.
      rewrite IHz by lia.
      destruct (Z.ltb_spec m m); [lia |]. cbn [andb].
      destruct (Z.ltb_spec m (m + 1)); [| lia]. now rewrite Z.eqb_refl.
    + rewrite IHz by lia.
      destruct (Z.ltb_spec o m), (Z.ltb_spec o (m + 1)); cbn [andb]; try lia;
        try reflexivity.
      assert (o = m) by lia. subst o.
      destruct (Z.eqb_spec j (znth m idx 0)); [lia | reflexivity].
Qed.

(** The buffer of [Backward]: for every output position, its slice holds its
    [gout] value at its index and zero elsewhere. *)
Lemma AddAt_slices (idx : list Z) (g : list T) (n k : Z) (d : T) :
  0 < k -> 0 <= n ->
  Z.of_nat (length idx) = n ->
  (forall o, 0 <= o < n -> 0 <= znth o idx 0 < k) ->
  let gcol := AddAt (Zeros [n * k])
                (Add (mkArray [n] idx) (Arange 0 (n * k) k)) (mkArray [n] g) in
  shape gcol = [n * k]
  /\ Z.of_nat (length (data gcol)) = n * k
  /\ forall o j, 0 <= o < n -> 0 <= j < k ->
       znth (o * k + j) (data gcol) d =
       if j =? znth o idx 0
       then t_add (t_cast 0) (znth o g (t_cast 0))
       else t_cast 0.
Proof.
  intros Hk Hn Hl Hidx. cbn zeta. unfold AddAt. cbn [shape data].
  split; [reflexivity |].
  rewrite length_index_plus_offset by assumption.
  unfold Zeros. cbn [data]. unfold GetTotalSize. cbn [fold_right].
  rewrite Z.mul_1_r.
  destruct (scatter_rounds
              (data (Add (mkArray [n] idx) (Arange 0 (n * k) k))) idx g n k n d
              Hk ltac:(lia)) as [Hlen Hz].
  - intros o Ho. now apply znth_index_plus_offset.
  - exact Hidx.
  - split; [exact Hlen |]. intros o j Ho Hj. rewrite Hz by assumption.
    destruct (Z.ltb_spec o n); [reflexivity | lia].
Qed.

End Scatter.

(* ------------------------------------------------------------------ *)
(** ** Sums of buffers *)

Lemma fold_left_ext_in {A B : Type} (f g : A -> B -> A) (l : list B) (a : A) :
  (forall acc x, In x l -> f acc x = g acc x) ->
  fold_left f l a = fold_left g l a.
Proof.
  revert a. induction l as [| x l IH]; intros a H; [reflexivity |].
  cbn [fold_left]. rewrite H by now left. apply IH.
  intros acc y Hy. apply H. now right.
Qed.

Lemma map_znth_zrange {A : Type} (l : list A) (d : A) :
  map (fun i => znth i l d) (zrange (Z.of_nat (length l))) = l.
Proof.
  apply nth_ext with (d := d) (d' := d).
  - now rewrite length_map, zrange_length, Nat2Z.id.
  - intros k Hk. rewrite length_map, zrange_length, Nat2Z.id in Hk.
    rewrite <- !znth_of_nat.
    rewrite znth_map with (d := 0) by (rewrite zrange_length; lia).
    now rewrite znth_zrange by lia.
Qed.

(** A map of [[0, n)] into itself that is injective there lists a
    permutation of [[0, n)]. *)
Lemma Permutation_map_zrange (n : Z) (f : Z -> Z) :
  (forall j, 0 <= j < n -> 0 <= f j < n) ->
  (forall i j, 0 <= i < n -> 0 <= j < n -> f i = f j -> i = j) ->
  Permutation (map f (zrange n)) (zrange n).
Proof.
  intros Hr Hinj. apply NoDup_Permutation_bis.
  - apply Finite.Injective_map_NoDup_in; [| apply NoDup_zrange].
    intros i j Hi Hj. apply In_zrange in Hi, Hj. now apply Hinj.
  - now rewrite length_map.
  - intros y Hy. apply in_map_iff in Hy. destruct Hy as [j [<- Hj]].
    apply In_zrange in Hj. apply In_zrange. now apply Hr.
Qed.

Section Sums.

Context {T : Type} {E : Element T} {Mo : ElementMonoid T}.

Lemma t_add_zero_r (a : T) : t_add a (t_cast 0) = a.
Proof. rewrite t_add_comm. apply t_add_zero. Qed.

Lemma t_sum_repeat_zero (n : nat) : t_sum (repeat (t_cast 0) n) = t_cast 0.
Proof.
  induction n as [| n IH]; [reflexivity |].
  cbn [repeat]. unfold t_sum in *. cbn [fold_right]. rewrite IH.
  apply t_add_zero.
Qed.

Lemma t_sum_Permutation (l l' : list T) :
  Permutation l l' -> t_sum l = t_sum l'.
Proof.
  unfold t_sum. induction 1 as [| a l l' _ IH | a b l | l l' l'' _ IH1 _ IH2];
    cbn [fold_right].
  - reflexivity.
  - now rewrite IH.
  - rewrite !t_add_assoc. f_equal. apply t_add_comm.
  - now rewrite IH1.
Qed.

Lemma t_sum_upd_nat (n : nat) (v : T) (buf : list T) :
  (n < length buf)%nat ->
  t_sum (upd_nat n (fun old => t_add old v) buf) = t_add (t_sum buf) v.
Proof.
  revert n. unfold t_sum.
  induction buf as [| a buf IH]; intros n Hn; simpl in Hn; [lia |].
  destruct n as [| n]; cbn [upd_nat fold_right].
  - rewrite <- !t_add_assoc. f_equal. apply t_add_comm.
  - rewrite IH by lia. apply t_add_assoc.
Qed.

Lemma t_sum_add_at (buf : list T) (pos : Z) (v : T) :
  0 <= pos < Z.of_nat (length buf) ->
  t_sum (add_at buf pos v) = t_add (t_sum buf) v.
Proof.
  intros Hp. unfold add_at, zupd. destruct (Z.ltb_spec pos 0); [lia |].
  apply t_sum_upd_nat. lia.
Qed.

(** Scatter-adding into a buffer adds the scattered values to its sum. *)
Lemma t_sum_scatter (pos : Z -> Z) (val : Z -> T) (l : list Z) (buf : list T) :
  (forall j, In j l -> 0 <= pos j < Z.of_nat (length buf)) ->
  let r := fold_left (fun buf j => add_at buf (pos j) (val j)) l buf in
  length r = length buf
  /\ t_sum r = t_add (t_sum buf) (t_sum (map val l)).
Proof.
  cbn zeta. revert buf. induction l as [| j l IH]; intros buf Hpos.
  - cbn. split; [reflexivity |]. symmetry. apply t_add_zero_r.
  - cbn [fold_left map].
    destruct (IH (add_at buf (pos j) (val j))) as [Hl Hs].
    { intros i Hi. rewrite add_at_length. apply Hpos. now right. }
    rewrite add_at_length in Hl. split; [exact Hl |].
    rewrite Hs, t_sum_add_at by (apply Hpos; now left).
    unfold t_sum at 3. cbn [fold_right]. fold (t_sum (map val l)).
    symmetry. apply t_add_assoc.
Qed.

End Sums.

(* ------------------------------------------------------------------ *)
(** ** Max pooling: [Forward] *)

Section MaxPoolForward.

Context {T : Type} {E : Element T}.

Lemma At_indep {A : Type} (a : Array A) (idx : list Z) (d d' : A) :
  wf a = true -> inb (shape a) idx = true -> At d a idx = At d' a idx.
Proof.
  intros Hwf Hin. apply wf_spec in Hwf. destruct Hwf as [_ Hlen].
  unfold At. apply znth_indep. rewrite Hlen. now apply inb_ravel_range.
Qed.

(** What [Forward] returns and what it leaves in the members. *)
Lemma Forward_run (self : MaxPool.NativeMaxPoolForwardBackward T) (x : Array T) :
  let col := Im2Col x (MaxPool.kernel_size_ self) (MaxPool.stride_ self)
               (MaxPool.pad_ self) (MaxPool.cover_all_ self) GetLowestOrInf in
  let axes := consec 2 (Z.of_nat (length (MaxPool.kernel_size_ self))) in
  MaxPool.Forward x self =
  (Ok (Max col axes),
   MaxPool.mkMaxPool (MaxPool.kernel_size_ self) (MaxPool.stride_ self)
     (MaxPool.pad_ self) (Some x) (MaxPool.cover_all_ self) (Some col) axes
     (MaxPool.indices_ self) (MaxPool.offset_ self)).
Proof.
  cbn zeta. unfold MaxPool.Forward, bind, get, modify, ret.
  unfold MaxPool.set_x_, MaxPool.set_axes_, MaxPool.set_col_.
  cbn [MaxPool.kernel_size_ MaxPool.stride_ MaxPool.pad_ MaxPool.x_
       MaxPool.cover_all_ MaxPool.col_ MaxPool.axes_ MaxPool.indices_
       MaxPool.offset_].
  now rewrite iota_resize.
Qed.

(** Along the kernel axes, the reduction of the columnar tensor of [x] at an
    output position folds the entries of that window. *)
Lemma reduced_elems_Im2Col (x : Array T) (ks st pad : list Z) (cover_all : bool)
    (fill : T) (b c : Z) (dims : list Z) (bi ci : Z) (oo : list Z) :
  shape x = b :: c :: dims ->
  nonneg ks ->
  0 <= bi < b -> 0 <= ci < c ->
  inb (conv_out_dims dims ks st pad cover_all) oo = true ->
  reduced_elems (Im2Col x ks st pad cover_all fill)
    (consec 2 (Z.of_nat (length ks))) (bi :: ci :: oo) =
  window_elems x ks st pad fill bi ci oo.
Proof.
  intros Hx Hks Hb Hc Ho.
  rewrite (reduced_elems_kernel _ b c ks (conv_out_dims dims ks st pad cover_all))
    by (now apply shape_Im2Col || now apply inb_length).
  unfold window_elems. rewrite Hx. cbn [skipn].
  apply map_ext_in. intros kk Hkk. apply In_all_indices in Hkk; [| exact Hks].
  now apply (At_Im2Col x ks st pad cover_all fill (t_cast 0) b c dims).
Qed.

Lemma shape_reduced_Im2Col (x : Array T) (ks st pad : list Z) (cover_all : bool)
    (fill : T) :
  length (shape x) = (2 + length ks)%nat ->
  drop_axes (shape (Im2Col x ks st pad cover_all fill))
    (consec 2 (Z.of_nat (length ks))) =
  pooled_shape (shape x) ks st pad cover_all.
Proof.
  intros Hl. destruct (shape x) as [| b [| c dims]] eqn:Hx; simpl in Hl; try lia.
  rewrite (shape_Im2Col _ _ _ _ _ _ _ _ _ Hx). apply drop_axes_kernel.
Qed.

Lemma At_Max_Im2Col (x : Array T) (ks st pad : list Z) (cover_all : bool)
    (d : T) (b c : Z) (dims : list Z) (bi ci : Z) (oo : list Z) :
  shape x = b :: c :: dims ->
  nonneg ks ->
  0 <= bi < b -> 0 <= ci < c ->
  inb (conv_out_dims dims ks st pad cover_all) oo = true ->
  At d (Max (Im2Col x ks st pad cover_all GetLowestOrInf)
          (consec 2 (Z.of_nat (length ks)))) (bi :: ci :: oo) =
  fold_left max_step
    (window_elems x ks st pad GetLowestOrInf bi ci oo) LowestOrInf.
Proof.
  intros Hx Hks Hb Hc Ho. unfold Max.
  rewrite (shape_Im2Col _ _ _ _ _ _ _ _ _ Hx), drop_axes_kernel.
  rewrite At_tabulate
    by (apply inb_cons; split; [exact Hb |]; apply inb_cons; now split).
  f_equal. now apply (reduced_elems_Im2Col x ks st pad cover_all _ b c dims).
Qed.

End MaxPoolForward.

(* ------------------------------------------------------------------ *)
(** ** Max pooling: the members across calls *)

Section MaxPoolRuns.

Context {T : Type} {E : Element T}.

Lemma shape_eqb_eq (s1 s2 : Shape) : shape_eqb s1 s2 = true <-> s1 = s2.
Proof.
  unfold shape_eqb. destruct (list_eq_dec Z.eq_dec s1 s2); split; congruence.
Qed.

Lemma Forward_same_params (self : MaxPool.NativeMaxPoolForwardBackward T)
    (x : Array T) :
  same_params (snd (MaxPool.Forward x self)) self.
Proof. rewrite Forward_run. cbn. repeat split. Qed.

Lemma Forward_forward_done (self : MaxPool.NativeMaxPoolForwardBackward T)
    (x : Array T) :
  forward_done x (snd (MaxPool.Forward x self)).
Proof. rewrite Forward_run. cbn. repeat split. Qed.

(** [Backward] reads the windowed tensor, the axes and the input; when the
    shapes agree it returns the gradient and caches the index and offset
    tensors. *)
Lemma Backward_run (self : MaxPool.NativeMaxPoolForwardBackward T)
    (x gout : Array T) :
  forward_done x self ->
  shape (forward_indices self x) = shape gout ->
  MaxPool.Backward gout self =
  (Ok (backward_of self x gout),
   MaxPool.mkMaxPool (MaxPool.kernel_size_ self) (MaxPool.stride_ self)
     (MaxPool.pad_ self) (Some x) (MaxPool.cover_all_ self)
     (Some (forward_col self x)) (kernel_axes self)
     (Some (forward_indices self x)) (Some (forward_offset self x))).
Proof.
  intros (Hcol & Hx & Haxes) Hshape.
  apply shape_eqb_eq in Hshape.
  unfold MaxPool.Backward, bind, get, modify, deref, assert, ret, throw.
  rewrite Hcol. cbn [MaxPool.set_indices_ MaxPool.x_ MaxPool.kernel_size_
    MaxPool.stride_ MaxPool.pad_ MaxPool.cover_all_ MaxPool.col_ MaxPool.axes_
    MaxPool.indices_ MaxPool.offset_ MaxPool.set_offset_].
  rewrite Haxes. fold (forward_indices self x). rewrite Hshape.
  rewrite Hx.
  unfold MaxPool.set_offset_, MaxPool.set_indices_.
  cbn [MaxPool.x_ MaxPool.kernel_size_
    MaxPool.stride_ MaxPool.pad_ MaxPool.cover_all_ MaxPool.col_ MaxPool.axes_
    MaxPool.indices_ MaxPool.offset_].
  rewrite Hx, Hcol, Haxes. reflexivity.
Qed.

(** When the shapes differ the assertion fails after the index tensor has
    been cached. *)
Lemma Backward_fail (self : MaxPool.NativeMaxPoolForwardBackward T)
    (x gout : Array T) :
  forward_done x self ->
  shape (forward_indices self x) <> shape gout ->
  MaxPool.Backward gout self =
  (Throw AssertionFailure,
   MaxPool.mkMaxPool (MaxPool.kernel_size_ self) (MaxPool.stride_ self)
     (MaxPool.pad_ self) (MaxPool.x_ self) (MaxPool.cover_all_ self)
     (MaxPool.col_ self) (MaxPool.axes_ self)
     (Some (forward_indices self x)) (MaxPool.offset_ self)).
Proof.
  intros (Hcol & Hx & Haxes) Hshape.
  assert (Hb : shape_eqb (shape (forward_indices self x)) (shape gout) = false).
  { apply not_true_is_false. intros H. now apply shape_eqb_eq in H. }
  unfold MaxPool.Backward, bind, get, modify, deref, assert, ret, throw.
  rewrite Hcol. cbn [MaxPool.set_indices_ MaxPool.x_ MaxPool.kernel_size_
    MaxPool.stride_ MaxPool.pad_ MaxPool.cover_all_ MaxPool.col_ MaxPool.axes_
    MaxPool.indices_ MaxPool.offset_ MaxPool.set_offset_].
  rewrite Haxes. fold (forward_indices self x). rewrite Hb.
  unfold MaxPool.set_indices_. rewrite Hcol, Haxes. reflexivity.
Qed.

(** [DoubleBackward] reads the index and offset tensors and leaves the
    members as they are. *)
Lemma DoubleBackward_run (self : MaxPool.NativeMaxPoolForwardBackward T)
    (x ggx : Array T) :
  backward_done x self ->
  MaxPool.DoubleBackward ggx self = (Ok (double_backward_of self x ggx), self).
Proof.
  intros ((Hcol & Hx & Haxes) & Hi & Ho).
  unfold MaxPool.DoubleBackward, bind, get, modify, deref, ret, throw.
  rewrite Hx, Hi, Ho. reflexivity.
Qed.

Lemma DoubleBackward_state (self : MaxPool.NativeMaxPoolForwardBackward T)
    (ggx : Array T) :
  snd (MaxPool.DoubleBackward ggx self) = self.
Proof.
  unfold MaxPool.DoubleBackward, bind, get, modify, deref, ret, throw.
  destruct (MaxPool.x_ self), (MaxPool.indices_ self), (MaxPool.offset_ self);
    reflexivity.
Qed.

(** Objects with the same parameters cache and compute the same. *)

Lemma forward_col_params (s1 s2 : MaxPool.NativeMaxPoolForwardBackward T)
    (x : Array T) :
  same_params s1 s2 -> forward_col s1 x = forward_col s2 x.
Proof. intros (H1 & H2 & H3 & H4). unfold forward_col. now rewrite H1, H2, H3, H4. Qed.

Lemma kernel_axes_params (s1 s2 : MaxPool.NativeMaxPoolForwardBackward T) :
  same_params s1 s2 -> kernel_axes s1 = kernel_axes s2.
Proof. intros (H1 & _). unfold kernel_axes. now rewrite H1. Qed.

Lemma forward_indices_params (s1 s2 : MaxPool.NativeMaxPoolForwardBackward T)
    (x : Array T) :
  same_params s1 s2 -> forward_indices s1 x = forward_indices s2 x.
Proof.
  intros H. unfold forward_indices.
  now rewrite (forward_col_params s1 s2 x H), (kernel_axes_params s1 s2 H).
Qed.

Lemma forward_offset_params (s1 s2 : MaxPool.NativeMaxPoolForwardBackward T)
    (x : Array T) :
  same_params s1 s2 -> forward_offset s1 x = forward_offset s2 x.
Proof.
  intros H. unfold forward_offset. rewrite (forward_indices_params s1 s2 x H).
  destruct H as (H1 & _). now rewrite H1.
Qed.

Lemma backward_of_params (s1 s2 : MaxPool.NativeMaxPoolForwardBackward T)
    (x gout : Array T) :
  same_params s1 s2 -> backward_of s1 x gout = backward_of s2 x gout.
Proof.
  intros H. unfold backward_of, backward_colgrad, backward_gcol.
  rewrite (forward_indices_params s1 s2 x H), (forward_offset_params s1 s2 x H).
  destruct H as (H1 & H2 & H3 & _). now rewrite H1, H2, H3.
Qed.

Lemma double_backward_of_params (s1 s2 : MaxPool.NativeMaxPoolForwardBackward T)
    (x ggx : Array T) :
  same_params s1 s2 -> double_backward_of s1 x ggx = double_backward_of s2 x ggx.
Proof.
  intros H. unfold double_backward_of.
  rewrite (forward_indices_params s1 s2 x H), (forward_offset_params s1 s2 x H),
    (forward_col_params s1 s2 ggx H).
  destruct H as (H1 & _). now rewrite H1.
Qed.

Lemma same_params_trans (s1 s2 s3 : MaxPool.NativeMaxPoolForwardBackward T) :
  same_params s1 s2 -> same_params s2 s3 -> same_params s1 s3.
Proof.
  intros (A1 & A2 & A3 & A4) (B1 & B2 & B3 & B4).
  repeat split; congruence.
Qed.

End MaxPoolRuns.

(* ------------------------------------------------------------------ *)
(** ** The index tensor *)

Lemma flat_output_position (b c : Z) (outs : Shape) (o : Z) :
  0 <= b -> 0 <= c -> nonneg outs ->
  0 <= o < GetTotalSize (b :: c :: outs) ->
  exists bi ci oo,
    unravel (b :: c :: outs) o = bi :: ci :: oo
    /\ 0 <= bi < b /\ 0 <= ci < c /\ inb outs oo = true
    /\ ravel (b :: c :: outs) (bi :: ci :: oo) = o.
Proof.
  intros Hb Hc Ho Hr.
  assert (Hsh : nonneg (b :: c :: outs)) by (repeat constructor; assumption).
  pose proof (inb_unravel _ o Hsh Hr) as Hin.
  pose proof (ravel_unravel _ o Hsh Hr) as Hrav.
  destruct (unravel (b :: c :: outs) o) as [| bi [| ci oo]] eqn:Hu;
    try (simpl in Hin; discriminate Hin);
    try (simpl in Hin; rewrite andb_false_r in Hin; discriminate Hin).
  exists bi, ci, oo. split; [reflexivity |].
  apply inb_cons in Hin. destruct Hin as [Hbi Hin].
  apply inb_cons in Hin. destruct Hin as [Hci Hin]. auto.
Qed.

Section IndexTensor.

Context {T : Type} {E : Element T}.

(** The scan ends at the position it started with or inside the list. *)
Lemma argmax_scan_range (l : list T) (i : Z) (m : T) (j : Z) :
  0 <= j < i ->
  snd (argmax_scan l i (m, j)) = j
  \/ i <= snd (argmax_scan l i (m, j)) < i + Z.of_nat (length l).
Proof.
  revert i m j. induction l as [| v l IH]; intros i m j Hj; [now left |].
  cbn [argmax_scan]. unfold argmax_step. cbn [fst snd].
  destruct (Z.ltb_spec j 0); [lia |]. cbn [orb].
  destruct (t_lt m v).
  - right. destruct (IH (i + 1) v i ltac:(lia)) as [-> | Hr]; cbn [length]; lia.
  - destruct (IH (i + 1) m j ltac:(lia)) as [Hl | Hr]; [now left |].
    right. cbn [length]. lia.
Qed.

Lemma argmax_range (l : list T) :
  l <> [] ->
  0 <= snd (argmax_scan l 0 (t_cast 0, -1)) < Z.of_nat (length l).
Proof.
  destruct l as [| v l]; [congruence | intros _].
  cbn [argmax_scan]. unfold argmax_step. cbn [fst snd].
  change (-1 <? 0) with true. cbn [orb].
  destruct (argmax_scan_range l (0 + 1) v 0 ltac:(lia)) as [-> | Hr];
    cbn [length]; lia.
Qed.

Lemma window_elems_length (x : Array T) (ks st pad : list Z) (fill : T)
    (bi ci : Z) (oo : list Z) :
  Z.of_nat (length (window_elems x ks st pad fill bi ci oo)) =
  Z.of_nat (Z.to_nat (GetTotalSize ks)).
Proof. unfold window_elems. now rewrite length_map, all_indices_length. Qed.

Lemma window_elems_nonempty (x : Array T) (ks st pad : list Z) (fill : T)
    (bi ci : Z) (oo : list Z) :
  Forall (fun k => 0 < k) ks -> window_elems x ks st pad fill bi ci oo <> [].
Proof.
  intros Hks Hnil. apply (f_equal (@length T)) in Hnil.
  pose proof (window_elems_length x ks st pad fill bi ci oo) as Hl.
  pose proof (GetTotalSize_pos ks Hks). rewrite Hnil in Hl. simpl in Hl. lia.
Qed.

(** The entry of the window at the kernel offset with flat offset [j]. *)
Lemma znth_window_elems (x : Array T) (ks st pad : list Z) (fill d : T)
    (bi ci : Z) (oo : list Z) (j : Z) :
  0 <= j < GetTotalSize ks ->
  znth j (window_elems x ks st pad fill bi ci oo) d =
  let coords := sample_coords oo (unravel ks j) st pad in
  if inb (skipn 2 (shape x)) coords
  then At fill x (bi :: ci :: coords)
  else fill.
Proof.
  intros Hj. unfold window_elems.
  rewrite znth_map with (d := []) by (rewrite all_indices_length; lia).
  now rewrite znth_all_indices.
Qed.

Lemma shape_forward_indices (self : MaxPool.NativeMaxPoolForwardBackward T)
    (x : Array T) :
  length (shape x) = (2 + length (MaxPool.kernel_size_ self))%nat ->
  shape (forward_indices self x) =
  pooled_shape (shape x) (MaxPool.kernel_size_ self) (MaxPool.stride_ self)
    (MaxPool.pad_ self) (MaxPool.cover_all_ self).
Proof.
  intros Hl. unfold forward_indices, ArgMax, forward_col, kernel_axes.
  rewrite shape_tabulate. now apply shape_reduced_Im2Col.
Qed.

(** The index tensor at an output position is where the argmax scan of
    that window ends. *)
Lemma At_forward_indices (self : MaxPool.NativeMaxPoolForwardBackward T)
    (x : Array T) (b c : Z) (dims : list Z) (bi ci : Z) (oo : list Z) (d : Z) :
  let ks := MaxPool.kernel_size_ self in
  let st := MaxPool.stride_ self in
  let pad := MaxPool.pad_ self in
  shape x = b :: c :: dims ->
  nonneg ks ->
  0 <= bi < b -> 0 <= ci < c ->
  inb (conv_out_dims dims ks st pad (MaxPool.cover_all_ self)) oo = true ->
  At d (forward_indices self x) (bi :: ci :: oo) =
  snd (argmax_scan (window_elems x ks st pad LowestOrInf bi ci oo) 0
         (t_cast 0, -1)).
Proof.
  cbn zeta. intros Hx Hks Hb Hc Ho.
  unfold forward_indices, ArgMax, forward_col, kernel_axes.
  rewrite (shape_Im2Col _ _ _ _ _ _ _ _ _ Hx), drop_axes_kernel.
  rewrite At_tabulate
    by (apply inb_cons; split; [exact Hb |]; apply inb_cons; now split).
  f_equal. f_equal.
  now apply (reduced_elems_Im2Col x _ _ _ _ _ b c dims).
Qed.

(** The entry of the index tensor at a flat output position. *)
Lemma forward_indices_flat (self : MaxPool.NativeMaxPoolForwardBackward T)
    (x : Array T) (b c : Z) (dims : list Z) (o : Z) :
  let ks := MaxPool.kernel_size_ self in
  let st := MaxPool.stride_ self in
  let pad := MaxPool.pad_ self in
  let outs := conv_out_dims dims ks st pad (MaxPool.cover_all_ self) in
  shape x = b :: c :: dims ->
  length dims = length ks ->
  0 <= b -> 0 <= c -> nonneg outs -> nonneg ks ->
  0 <= o < GetTotalSize (b :: c :: outs) ->
  exists bi ci oo,
    unravel (b :: c :: outs) o = bi :: ci :: oo
    /\ 0 <= bi < b /\ 0 <= ci < c /\ inb outs oo = true
    /\ ravel (b :: c :: outs) (bi :: ci :: oo) = o
    /\ znth o (data (forward_indices self x)) 0 =
       snd (argmax_scan (window_elems x ks st pad LowestOrInf bi ci oo) 0
              (t_cast 0, -1)).
Proof.
  cbn zeta. intros Hx Hld Hb Hc Houts Hks Ho.
  destruct (flat_output_position b c _ o Hb Hc Houts Ho)
    as (bi & ci & oo & Hu & Hbi & Hci & Hoo & Hr).
  exists bi, ci, oo. repeat (split; [assumption |]).
  rewrite <- (At_forward_indices self x b c dims bi ci oo 0 Hx Hks Hbi Hci Hoo).
  unfold At. rewrite shape_forward_indices by (rewrite Hx; cbn [length]; lia).
  unfold pooled_shape. rewrite Hx. cbn [skipn].
  change (znth 0 (b :: c :: dims) 0) with b.
  change (znth 1 (b :: c :: dims) 0) with c. now rewrite Hr.
Qed.

(** The index tensor of a valid forward pass: every entry is a flat offset
    inside the kernel. *)
Lemma forward_indices_range (self : MaxPool.NativeMaxPoolForwardBackward T)
    (x : Array T) :
  valid_pool (shape x) (MaxPool.kernel_size_ self) (MaxPool.stride_ self)
    (MaxPool.pad_ self) (MaxPool.cover_all_ self) = true ->
  let indices := forward_indices self x in
  let k := fold_left Z.mul (MaxPool.kernel_size_ self) 1 in
  let n := GetTotalSize (shape indices) in
  0 < k
  /\ nonneg (shape indices)
  /\ Z.of_nat (length (data indices)) = n
  /\ forall o, 0 <= o < n -> 0 <= znth o (data indices) 0 < k.
Proof.
  intros Hvalid indices k n.
  destruct (valid_pool_spec _ _ _ _ _ Hvalid)
    as (b & c & dims & Hx & Hb & Hc & Hdims & Hld & Hlst & Hlpad & Hks & Hst
        & Hpad & Houts).
  pose proof (nonneg_pos _ Hks) as Hks0.
  assert (Hsi : shape indices =
                pooled_shape (shape x) (MaxPool.kernel_size_ self)
                  (MaxPool.stride_ self) (MaxPool.pad_ self)
                  (MaxPool.cover_all_ self)).
  { apply shape_forward_indices. rewrite Hx. cbn [length]. lia. }
  assert (Hk : 0 < k).
  { unfold k. rewrite kernel_total_size_eq. now apply GetTotalSize_pos. }
  assert (Hnn : nonneg (shape indices)).
  { rewrite Hsi. unfold pooled_shape. rewrite Hx. cbn [skipn].
    repeat constructor; assumption. }
  assert (Hlen : Z.of_nat (length (data indices)) = n).
  { unfold indices at 1. unfold forward_indices, ArgMax.
    rewrite tabulate_length.
    rewrite Z2Nat.id; [reflexivity |].
    apply (GetTotalSize_nonneg (shape indices) Hnn). }
  split; [exact Hk |]. split; [exact Hnn |]. split; [exact Hlen |].
  intros o Ho. unfold n in Ho. rewrite Hsi in Ho. unfold pooled_shape in Ho.
  rewrite Hx in Ho. cbn [skipn] in Ho.
  change (znth 0 (b :: c :: dims) 0) with b in Ho.
  change (znth 1 (b :: c :: dims) 0) with c in Ho.
  destruct (forward_indices_flat self x b c dims o Hx Hld Hb Hc Houts Hks0 Ho)
    as (bi & ci & oo & _ & _ & _ & _ & _ & Hz).
  fold indices in Hz. rewrite Hz.
  pose proof (argmax_range
                (window_elems x (MaxPool.kernel_size_ self)
                   (MaxPool.stride_ self) (MaxPool.pad_ self) LowestOrInf
                   bi ci oo)
                (window_elems_nonempty x _ _ _ _ bi ci oo Hks)) as Hr.
  rewrite window_elems_length in Hr. unfold k.
  rewrite kernel_total_size_eq. pose proof (GetTotalSize_pos _ Hks). lia.
Qed.

End IndexTensor.

(* ------------------------------------------------------------------ *)
(** ** Average pooling: the sum of a window *)

Section AveragePoolSums.

Context {T : Type} {E : Element T}.

Lemma At_Sum_Im2Col (x : Array T) (ks st pad : list Z) (cover_all : bool)
    (fill d : T) (out : Array T) (b c : Z) (dims : list Z) (bi ci : Z)
    (oo : list Z) :
  shape x = b :: c :: dims ->
  shape out = b :: c :: conv_out_dims dims ks st pad cover_all ->
  nonneg ks ->
  0 <= bi < b -> 0 <= ci < c ->
  inb (conv_out_dims dims ks st pad cover_all) oo = true ->
  At d (Sum (Im2Col x ks st pad cover_all fill)
          (consec 2 (Z.of_nat (length ks))) out) (bi :: ci :: oo) =
  fold_left t_add (window_elems x ks st pad fill bi ci oo) (t_cast 0).
Proof.
  intros Hx Hout Hks Hb Hc Ho. unfold Sum. rewrite Hout.
  rewrite At_tabulate
    by (apply inb_cons; split; [exact Hb |]; apply inb_cons; now split).
  f_equal. now apply (reduced_elems_Im2Col x ks st pad cover_all _ b c dims).
Qed.

Lemma shape_EmptyReduced_Im2Col (x : Array T) (ks st pad : list Z)
    (cover_all : bool) (fill : T) :
  length (shape x) = (2 + length ks)%nat ->
  shape (EmptyReduced (T := T) (shape (Im2Col x ks st pad cover_all fill))
           (consec 2 (Z.of_nat (length ks)))) =
  pooled_shape (shape x) ks st pad cover_all.
Proof. intros Hl. unfold EmptyReduced, Empty, Zeros. cbn [shape].
  now apply shape_reduced_Im2Col. Qed.

End AveragePoolSums.

(* ------------------------------------------------------------------ *)
(** ** The examples of the specification, on [int64] *)

Example swap_axes_2 : GetSwapSpatialDimensionsAxes 2 = [0; 1; 4; 5; 2; 3].
Proof. reflexivity. Qed.

(** Input [[1, 2, 3, 4]], kernel 2, stride 2, pad 0: max-pool gives
    [[2, 4]]. *)
Example max_pool_1d :
  fst (MaxPool.Forward (tensor1 [1; 2; 3; 4])
         (GetMaxPoolForwardBackward [2] [2] [0] false))
  = Ok (tensor1 [2; 4]).
Proof. vm_compute. reflexivity. Qed.

(** The same input with pad 1: max-pool gives [[1, 3, 4]]. *)
Example max_pool_1d_padded :
  fst (MaxPool.Forward (tensor1 [1; 2; 3; 4])
         (GetMaxPoolForwardBackward [2] [2] [1] false))
  = Ok (tensor1 [1; 3; 4]).
Proof. vm_compute. reflexivity. Qed.

(** Overlapping windows: both windows around the maximum route their
    gradient to it. *)
Example max_pool_1d_backward :
  let s1 := snd (MaxPool.Forward (tensor1 [1; 5; 3; 4])
                   (GetMaxPoolForwardBackward [2] [1] [0] false)) in
  fst (MaxPool.Backward (tensor1 [10; 20; 30]) s1) = Ok (tensor1 [0; 30; 0; 30]).
Proof. vm_compute. reflexivity. Qed.

Example max_pool_1d_double_backward :
  let s1 := snd (MaxPool.Forward (tensor1 [1; 5; 3; 4])
                   (GetMaxPoolForwardBackward [2] [1] [0] false)) in
  let s2 := snd (MaxPool.Backward (tensor1 [10; 20; 30]) s1) in
  fst (MaxPool.DoubleBackward (tensor1 [7; 8; 9; 10]) s2) = Ok (tensor1 [8; 8; 10]).
Proof. vm_compute. reflexivity. Qed.

(** Input [[2, 4, 6, 8]], kernel 2, stride 2: the zero-mode average without
    padding is [[3, 7]]; with pad 1 the border windows hold one element and
    a zero, and the zero-mode average is [[1, 5, 4]], the ignore-mode
    average [[2, 5, 8]]. *)
Example average_pool_1d_zero :
  fst (AveragePool.Forward (tensor1 [2; 4; 6; 8])
         (GetAveragePoolForwardBackward [2] [2] [0] kZero))
  = Ok (tensor1 [3; 7]).
Proof. vm_compute. reflexivity. Qed.

Example average_pool_1d_zero_padded :
  fst (AveragePool.Forward (tensor1 [2; 4; 6; 8])
         (GetAveragePoolForwardBackward [2] [2] [1] kZero))
  = Ok (tensor1 [1; 5; 4]).
Proof. vm_compute. reflexivity. Qed.

Example average_pool_1d_ignore_padded :
  fst (AveragePool.Forward (tensor1 [2; 4; 6; 8])
         (GetAveragePoolForwardBackward [2] [2] [1] kIgnore))
  = Ok (tensor1 [2; 5; 8]).
Proof. vm_compute. reflexivity. Qed.

(** Two spatial axes: the widths of a 2 x 2 input under kernel 2, stride 1
    and pad 1 are the outer product of [[1, 2, 1]] with itself. *)
Example ignore_widths_2d :
  GetPadModeIgnorePoolingWidths (T := int64) [1; 1; 2; 2] [2; 2] [1; 1] [1; 1]
  = Ok (Some (mkArray [3; 3] (map i64 [1; 2; 1; 2; 4; 2; 1; 2; 1]))).
Proof. vm_compute. reflexivity. Qed.

(* ------------------------------------------------------------------ *)
(** ** Window-scatter, entry by entry *)

Lemma znth_zupd_other {A : Type} (i j : Z) (f : A -> A) (l : list A) (d : A) :
  j <> i -> znth j (zupd i f l) d = znth j l d.
Proof.
  intros Hne. unfold zupd.
  destruct (Z.ltb_spec i 0) as [Hi | Hi]; [reflexivity |].
  destruct (Nat.lt_ge_cases (Z.to_nat i) (length l)) as [Hlt | Hge].
  - unfold znth. destruct (Z.ltb_spec j 0) as [Hj | Hj]; [reflexivity |].
    rewrite upd_nat_nth by exact Hlt.
    destruct (Nat.eqb_spec (Z.to_nat j) (Z.to_nat i)) as [He | He]; [lia |].
    reflexivity.
  - now rewrite upd_nat_out.
Qed.

Lemma znth_repeat {A : Type} (a d : A) (n : nat) (i : Z) :
  0 <= i < Z.of_nat n -> znth i (repeat a n) d = a.
Proof.
  intros Hi. rewrite znth_nth by lia. apply nth_repeat_lt. lia.
Qed.

(** Two windows that do not overlap sample different coordinates. *)
Lemma sample_coords_disjoint (ks st pad kk oo kk' oo' : list Z) :
  disjoint_windows ks st = true ->
  length st = length ks -> length pad = length ks ->
  length oo = length ks -> length oo' = length ks ->
  inb ks kk = true -> inb ks kk' = true ->
  sample_coords oo kk st pad = sample_coords oo' kk' st pad ->
  kk = kk' /\ oo = oo'.
Proof.
  revert st pad kk oo kk' oo'.
  induction ks as [| k ks IH]; intros st pad kk oo kk' oo' Hd Hls Hlp Hlo Hlo'
    Hkk Hkk' Heq.
  - destruct kk; [| discriminate Hkk]. destruct kk'; [| discriminate Hkk'].
    destruct oo; [| discriminate Hlo]. destruct oo'; [| discriminate Hlo'].
    now split.
  - destruct st as [| s st]; [discriminate Hls |].
    destruct pad as [| p pad]; [discriminate Hlp |].
    destruct oo as [| o oo]; [discriminate Hlo |].
    destruct oo' as [| o' oo']; [discriminate Hlo' |].
    destruct kk as [| k0 kk]; [discriminate Hkk |].
    destruct kk' as [| k0' kk']; [discriminate Hkk' |].
    cbn [disjoint_windows] in Hd. apply andb_true_iff in Hd.
    destruct Hd as [Hks Hd]. apply Z.leb_le in Hks.
    apply inb_cons in Hkk, Hkk'. destruct Hkk as [Hk0 Hkk], Hkk' as [Hk0' Hkk'].
    cbn [sample_coords] in Heq. injection Heq as Hh Ht.
    cbn [length] in Hls, Hlp, Hlo, Hlo'.
    destruct (IH st pad kk oo kk' oo' Hd ltac:(lia) ltac:(lia) ltac:(lia)
                ltac:(lia) Hkk Hkk' Ht) as [-> ->].
    assert (Ho : o = o') by nia. subst o'.
    assert (Hk : k0 = k0') by lia. subst k0'.
    now split.
Qed.

Section GradientRouting.

Context {T : Type} {E : Element T}.

(** A scatter-add, guarded or not, keeps the size of the buffer. *)
Lemma length_guarded_scatter (guard : Z -> bool) (pos : Z -> Z) (val : Z -> T)
    (l : list Z) (buf : list T) :
  length (fold_left
            (fun buf j => if guard j then add_at buf (pos j) (val j) else buf)
            l buf) = length buf.
Proof.
  revert buf. induction l as [| j l IH]; intros buf; cbn [fold_left].
  - reflexivity.
  - rewrite IH. destruct (guard j); [apply add_at_length | reflexivity].
Qed.

Lemma shape_Col2Im (col : Array T) (st pad out_size : list Z) :
  shape (Col2Im col st pad out_size) =
  znth 0 (shape col) 0 :: znth 1 (shape col) 0 :: out_size.
Proof. reflexivity. Qed.

Lemma wf_Col2Im (col : Array T) (st pad out_size : list Z) :
  nonneg (znth 0 (shape col) 0 :: znth 1 (shape col) 0 :: out_size) ->
  wf (Col2Im col st pad out_size) = true.
Proof.
  intros Hnn. apply wf_spec. split; [exact Hnn |].
  unfold Col2Im. cbn [shape data].
  rewrite (length_guarded_scatter
             (fun j =>
                inb out_size
                  (sample_coords
                     (skipn (2 + length out_size) (unravel (shape col) j))
                     (firstn (length out_size) (skipn 2 (unravel (shape col) j)))
                     st pad))
             (fun j =>
                ravel (znth 0 (shape col) 0 :: znth 1 (shape col) 0 :: out_size)
                  (znth 0 (unravel (shape col) j) 0
                   :: znth 1 (unravel (shape col) j) 0
                   :: sample_coords
                        (skipn (2 + length out_size) (unravel (shape col) j))
                        (firstn (length out_size)
                           (skipn 2 (unravel (shape col) j)))
                        st pad))
             (fun j => znth j (data col) (t_cast 0))).
  rewrite repeat_length. apply Z2Nat.id. now apply GetTotalSize_nonneg.
Qed.

(** A position that no guarded write addresses keeps its value. *)
Lemma scatter_untouched (guard : Z -> bool) (pos : Z -> Z) (val : Z -> T)
    (l : list Z) (buf : list T) (q : Z) (d : T) :
  (forall j, In j l -> guard j = true -> pos j <> q) ->
  znth q (fold_left
            (fun buf j => if guard j then add_at buf (pos j) (val j) else buf)
            l buf) d = znth q buf d.
Proof.
  revert buf. induction l as [| j l IH]; intros buf Hne; cbn [fold_left].
  - reflexivity.
  - rewrite IH by (intros j' Hj'; apply Hne; now right).
    destruct (guard j) eqn:Hg; [| reflexivity].
    unfold add_at. apply znth_zupd_other.
    intros Heq. now apply (Hne j (or_introl eq_refl) Hg).
Qed.

(** A position that exactly one guarded write addresses receives the value
    of that write. *)
Lemma scatter_single (guard : Z -> bool) (pos : Z -> Z) (val : Z -> T)
    (l : list Z) (buf : list T) (j0 : Z) (d : T) :
  NoDup l -> In j0 l -> guard j0 = true ->
  0 <= pos j0 < Z.of_nat (length buf) ->
  (forall j, In j l -> guard j = true -> pos j = pos j0 -> j = j0) ->
  znth (pos j0)
    (fold_left
       (fun buf j => if guard j then add_at buf (pos j) (val j) else buf)
       l buf) d =
  t_add (znth (pos j0) buf d) (val j0).
Proof.
  revert buf. induction l as [| j l IH]; intros buf Hnd Hin Hg Hr Hinj.
  - destruct Hin.
  - inversion Hnd as [| ? ? Hnotin Hnd']; subst. cbn [fold_left].
    destruct Hin as [-> | Hin].
    + rewrite Hg.
      rewrite scatter_untouched.
      * unfold add_at. rewrite znth_zupd by lia.
        now rewrite Z.eqb_refl.
      * intros j Hj Hgj Heq. apply Hnotin.
        now rewrite <- (Hinj j (or_intror Hj) Hgj Heq).
    + assert (Hne : j <> j0) by (intros ->; contradiction).
      destruct (guard j) eqn:Hgj.
      * rewrite IH; try assumption.
        -- f_equal. unfold add_at. apply znth_zupd_other.
           intros Heq. apply Hne. symmetry in Heq.
           now apply (Hinj j (or_introl eq_refl) Hgj).
        -- now rewrite add_at_length.
        -- intros j' Hj'. apply Hinj. now right.
      * apply IH; try assumption.
        intros j' Hj'. apply Hinj. now right.
Qed.


(** Window-scatter, entry by entry.  An input position that one entry of the
    columnar tensor samples, and no other, receives that entry; a position
    that no entry samples stays zero. *)
Lemma At_Col2Im_disjoint (col : Array T) (st pad dims : list Z) (b c : Z)
    (ks outs : Shape) (d : T) :
  shape col = b :: c :: ks ++ outs ->
  length ks = length dims ->
  nonneg (shape col) ->
  0 <= b -> 0 <= c -> nonneg dims ->
  (forall kk oo kk' oo',
      inb ks kk = true -> inb outs oo = true ->
      inb ks kk' = true -> inb outs oo' = true ->
      sample_coords oo kk st pad = sample_coords oo' kk' st pad ->
      kk = kk' /\ oo = oo') ->
  (forall bi ci kk oo,
      0 <= bi < b -> 0 <= ci < c -> inb ks kk = true -> inb outs oo = true ->
      inb dims (sample_coords oo kk st pad) = true ->
      At d (Col2Im col st pad dims) (bi :: ci :: sample_coords oo kk st pad) =
      t_add (t_cast 0) (At (t_cast 0) col (bi :: ci :: kk ++ oo)))
  /\ (forall bi ci coords,
        inb (b :: c :: dims) (bi :: ci :: coords) = true ->
        (forall kk oo,
            inb ks kk = true -> inb outs oo = true ->
            sample_coords oo kk st pad <> coords) ->
        At d (Col2Im col st pad dims) (bi :: ci :: coords) = t_cast 0).
Proof.
  intros Hs Hlk Hnn Hb Hc Hd Hinj.
  rewrite Hs in Hnn.
  unfold At, Col2Im. cbn [shape data]. rewrite Hs.
  change (znth 0 (b :: c :: ks ++ outs) 0) with b.
  change (znth 1 (b :: c :: ks ++ outs) 0) with c.
  set (sh := b :: c :: ks ++ outs) in *.
  set (n := length dims).
  set (N := GetTotalSize sh) in *.
  set (coords_of := fun j =>
         sample_coords (skipn (2 + n) (unravel sh j))
           (firstn n (skipn 2 (unravel sh j))) st pad).
  set (guard := fun j => inb dims (coords_of j)).
  set (pos := fun j =>
         ravel (b :: c :: dims)
           (znth 0 (unravel sh j) 0 :: znth 1 (unravel sh j) 0 :: coords_of j)).
  set (val := fun j => znth j (data col) (t_cast 0)).
  match goal with
  | |- context [fold_left ?f (zrange N) _] =>
      change f
        with (fun buf j => if guard j then add_at buf (pos j) (val j) else buf)
  end.
  assert (Hnn2 : nonneg (b :: c :: dims)) by (repeat constructor; assumption).
  pose proof (GetTotalSize_nonneg _ Hnn2) as Hsz.
  assert (Hdec : forall j, 0 <= j < N ->
            exists bi ci kk oo,
              unravel sh j = bi :: ci :: kk ++ oo
              /\ 0 <= bi < b /\ 0 <= ci < c
              /\ inb ks kk = true /\ inb outs oo = true
              /\ coords_of j = sample_coords oo kk st pad
              /\ pos j = ravel (b :: c :: dims)
                           (bi :: ci :: sample_coords oo kk st pad)).
  { intros j Hj.
    assert (Hin : inb sh (unravel sh j) = true)
      by (apply inb_unravel; [exact Hnn | lia]).
    destruct (inb_col_inv b c ks outs _ Hin)
      as (bi & ci & kk & oo & Hu & Hbi & Hci & Hkk & Hoo).
    exists bi, ci, kk, oo.
    destruct (firstn_skipn_index bi ci kk oo n) as [H1 H2].
    { apply inb_length in Hkk. unfold n. lia. }
    unfold pos, coords_of. rewrite Hu, H1, H2.
    repeat (split; [assumption || reflexivity |]). reflexivity. }
  split.
  - intros bi ci kk oo Hbi Hci Hkk Hoo Hin.
    assert (Hidx : inb sh (bi :: ci :: kk ++ oo) = true) by (now apply inb_col).
    set (j0 := ravel sh (bi :: ci :: kk ++ oo)).
    assert (Hj0 : 0 <= j0 < N) by (now apply inb_ravel_range).
    assert (Hu0 : unravel sh j0 = bi :: ci :: kk ++ oo)
      by (now apply unravel_ravel).
    destruct (firstn_skipn_index bi ci kk oo n) as [H1 H2].
    { apply inb_length in Hkk. unfold n. lia. }
    assert (Hc0 : coords_of j0 = sample_coords oo kk st pad).
    { unfold coords_of. now rewrite Hu0, H1, H2. }
    assert (Hp0 : pos j0 =
                  ravel (b :: c :: dims) (bi :: ci :: sample_coords oo kk st pad)).
    { unfold pos. rewrite Hc0, Hu0. reflexivity. }
    assert (Hin0 : inb (b :: c :: dims)
                     (bi :: ci :: sample_coords oo kk st pad) = true).
    { apply inb_cons. split; [exact Hbi |].
      apply inb_cons. now split. }
    rewrite <- Hp0.
    rewrite (scatter_single guard pos val (zrange N) _ j0 d).
    + rewrite znth_repeat
        by (rewrite Hp0; pose proof (inb_ravel_range _ _ Hin0); lia).
      reflexivity.
    + apply NoDup_zrange.
    + now apply In_zrange.
    + unfold guard. now rewrite Hc0.
    + rewrite repeat_length, Hp0.
      pose proof (inb_ravel_range _ _ Hin0). lia.
    + intros j Hj Hg Heq. apply In_zrange in Hj.
      destruct (Hdec j Hj)
        as (bj & cj & kj & oj & Hu & Hbj & Hcj & Hkj & Hoj & Hcj' & Hpj).
      unfold guard in Hg. rewrite Hcj' in Hg.
      rewrite Hpj, Hp0 in Heq.
      apply ravel_inj in Heq; [| | exact Hin0].
      2:{ apply inb_cons. split; [exact Hbj |]. apply inb_cons. now split. }
      injection Heq as -> -> Hsc.
      destruct (Hinj kj oj kk oo Hkj Hoj Hkk Hoo Hsc) as [-> ->].
      rewrite <- (ravel_unravel sh j Hnn) by lia.
      now rewrite Hu.
  - intros bi ci coords Hin Hnone.
    rewrite scatter_untouched.
    + apply znth_repeat. pose proof (inb_ravel_range _ _ Hin). lia.
    + intros j Hj Hg Heq. apply In_zrange in Hj.
      destruct (Hdec j Hj)
        as (bj & cj & kj & oj & Hu & Hbj & Hcj & Hkj & Hoj & Hcj' & Hpj).
      unfold guard in Hg. rewrite Hcj' in Hg.
      rewrite Hpj in Heq.
      apply ravel_inj in Heq; [| | exact Hin].
      2:{ apply inb_cons. split; [exact Hbj |]. apply inb_cons. now split. }
      injection Heq as _ _ Hsc.
      now apply (Hnone kj oj Hkj Hoj).
Qed.

End GradientRouting.


(* ================================================================== *)
(** * The properties of the specification *)

(* ------------------------------------------------------------------ *)
(** ** C1: the maximum of a window *)

Section MaxPoolForwardClaim.

Context {T : Type} {E : Element T} {O : ElementOrder T}.

Lemma In_window_elems (x : Array T) (ks st pad : list Z) (fill : T)
    (bi ci : Z) (oo : list Z) (v : T) :
  nonneg ks ->
  (In v (window_elems x ks st pad fill bi ci oo) <->
   exists kk,
     inb ks kk = true
     /\ v = (if inb (skipn 2 (shape x)) (sample_coords oo kk st pad)
             then At fill x (bi :: ci :: sample_coords oo kk st pad)
             else fill)).
Proof.
  intros Hks. unfold window_elems. rewrite in_map_iff. split.
  - intros [kk [<- Hkk]]. exists kk. split; [| reflexivity].
    now apply In_all_indices in Hkk.
  - intros [kk [Hkk ->]]. exists kk. split; [reflexivity |].
    now apply In_all_indices.
Qed.

(** C1, as amended: [Forward(x)] window-extracts [x] with the fill value
    [LowestOrInf] of the dtype, reduces by maximum along the kernel axes
    [2..2+n], and returns an output of shape [(batch, channel,
    out_1..out_n)].  At an output position whose window covers at least one
    element of the input, the output is the maximum of the covered
    elements: none of them is above it and one of them is equal to it.  At
    a position whose window lies wholly in the padding the output is the
    fill value. *)
Theorem MaxPool_Forward_window_max
    (self : MaxPool.NativeMaxPoolForwardBackward T) (x : Array T) :
  wf x = true ->
  valid_pool (shape x) (MaxPool.kernel_size_ self) (MaxPool.stride_ self)
    (MaxPool.pad_ self) (MaxPool.cover_all_ self) = true ->
  let ks := MaxPool.kernel_size_ self in
  let st := MaxPool.stride_ self in
  let pad := MaxPool.pad_ self in
  let dims := skipn 2 (shape x) in
  exists out,
    fst (MaxPool.Forward x self) = Ok out
    /\ out = Max (Im2Col x ks st pad (MaxPool.cover_all_ self) LowestOrInf)
               (consec 2 (Z.of_nat (length ks)))
    /\ shape out = pooled_shape (shape x) ks st pad (MaxPool.cover_all_ self)
    /\ forall bi ci oo,
         inb (shape out) (bi :: ci :: oo) = true ->
         let y := At (t_cast 0) out (bi :: ci :: oo) in
         (forall coords,
             in_window dims ks st pad oo coords ->
             t_lt y (At (t_cast 0) x (bi :: ci :: coords)) = false)
         /\ ((exists coords, in_window dims ks st pad oo coords) ->
             exists coords,
               in_window dims ks st pad oo coords
               /\ y = At (t_cast 0) x (bi :: ci :: coords))
         /\ ((forall coords, ~ in_window dims ks st pad oo coords) ->
             y = LowestOrInf).
Proof.
  intros Hwf Hvalid ks st pad dims.
  destruct (valid_pool_spec _ _ _ _ _ Hvalid)
    as (b & c & dims' & Hx & Hb & Hc & Hdims & Hld & Hlst & Hlpad & Hks & Hst
        & Hpad & Houts).
  fold ks st pad in Hld, Hlst, Hlpad, Hks, Hst, Hpad, Houts.
  assert (Hdims' : dims = dims') by (unfold dims; now rewrite Hx). subst dims'.
  pose proof (nonneg_pos _ Hks) as Hks0.
  rewrite Forward_run. cbn [fst]. fold ks st pad. unfold GetLowestOrInf.
  eexists. split; [reflexivity |]. split; [reflexivity |].
  assert (Hshape : shape (Max (Im2Col x ks st pad (MaxPool.cover_all_ self)
                                 LowestOrInf)
                            (consec 2 (Z.of_nat (length ks)))) =
                   pooled_shape (shape x) ks st pad (MaxPool.cover_all_ self)).
  { unfold Max. rewrite shape_tabulate. apply shape_reduced_Im2Col.
    rewrite Hx. cbn [length]. lia. }
  split; [exact Hshape |].
  intros bi ci oo Hin. rewrite Hshape in Hin. unfold pooled_shape in Hin.
  rewrite Hx in Hin. cbn [skipn] in Hin.
  change (znth 0 (b :: c :: dims) 0) with b in Hin.
  change (znth 1 (b :: c :: dims) 0) with c in Hin.
  apply inb_cons in Hin. destruct Hin as [Hbi Hin].
  apply inb_cons in Hin. destruct Hin as [Hci Hoo].
  cbn zeta.
  pose proof (At_Max_Im2Col x ks st pad (MaxPool.cover_all_ self) (t_cast 0)
                b c dims bi ci oo Hx Hks0 Hbi Hci Hoo) as HM.
  unfold GetLowestOrInf in HM. rewrite HM. clear HM.
  set (elems := window_elems x ks st pad LowestOrInf bi ci oo).
  assert (Hval : forall kk,
             inb ks kk = true ->
             inb dims (sample_coords oo kk st pad) = true ->
             In (At (t_cast 0) x (bi :: ci :: sample_coords oo kk st pad)) elems).
  { intros kk Hkk Hc'. apply In_window_elems; [exact Hks0 |].
    exists kk. split; [exact Hkk |]. fold dims. rewrite Hc'.
    apply At_indep; [exact Hwf |]. rewrite Hx.
    apply inb_cons. split; [exact Hbi |]. apply inb_cons. now split. }
  assert (Hge : forall coords,
             in_window dims ks st pad oo coords ->
             t_lt (fold_left max_step elems LowestOrInf)
               (At (t_cast 0) x (bi :: ci :: coords)) = false).
  { intros coords (kk & Hkk & -> & Hc'). apply fold_max_ge. now apply Hval. }
  split; [exact Hge |]. split.
  - intros [coords0 Hw0].
    destruct (fold_max_in elems LowestOrInf) as [Heq | Hin].
    + exists coords0. split; [exact Hw0 |].
      specialize (Hge coords0 Hw0). rewrite Heq in Hge |- *.
      symmetry. now apply t_lt_lowest.
    + apply In_window_elems in Hin; [| exact Hks0].
      destruct Hin as (kk & Hkk & Hv). fold dims in Hv.
      destruct (inb dims (sample_coords oo kk st pad)) eqn:Hc'.
      * exists (sample_coords oo kk st pad). split.
        -- exists kk. auto.
        -- rewrite Hv. apply At_indep; [exact Hwf |]. rewrite Hx.
           apply inb_cons. split; [exact Hbi |]. apply inb_cons. now split.
      * exists coords0. split; [exact Hw0 |].
        specialize (Hge coords0 Hw0). rewrite Hv in Hge |- *.
        symmetry. now apply t_lt_lowest.
  - intros Hnone.
    destruct (fold_max_in elems LowestOrInf) as [Heq | Hin]; [exact Heq |].
    apply In_window_elems in Hin; [| exact Hks0].
    destruct Hin as (kk & Hkk & Hv). fold dims in Hv.
    destruct (inb dims (sample_coords oo kk st pad)) eqn:Hc'; [| exact Hv].
    elim (Hnone (sample_coords oo kk st pad)). exists kk. auto.
Qed.

End MaxPoolForwardClaim.

Lemma MaxPool_Forward_window_max_witness :
  let x := tensor1 [1; 2; 3; 4] in
  let self := MaxPool.new (T := int64) [2] [2] [0] false in
  wf x = true
  /\ valid_pool (shape x) [2] [2] [0] false = true
  /\ exists out, fst (MaxPool.Forward x self) = Ok out /\ shape out = [1; 1; 2].
Proof.
  cbn zeta. split; [reflexivity |]. split; [reflexivity |].
  destruct (MaxPool_Forward_window_max
              (MaxPool.new (T := int64) [2] [2] [0] false)
              (tensor1 [1; 2; 3; 4]) eq_refl eq_refl)
    as (out & Hrun & _ & Hshape & _).
  exists out. split; [exact Hrun | exact Hshape].
Defined.

(** C1 as stated fails where a window lies wholly in the padding: with one
    element, kernel 1, stride 1 and pad 1 the output has three positions,
    the window of position 0 samples only the coordinate -1, and the
    returned value there is the fill value, which no covered element of the
    input supplies. *)
Lemma MaxPool_Forward_padding_only_window :
  let x := tensor1 [5] in
  let self := MaxPool.new (T := int64) [1] [1] [1] false in
  wf x = true
  /\ valid_pool (shape x) [1] [1] [1] false = true
  /\ exists out,
       fst (MaxPool.Forward x self) = Ok out
       /\ inb (shape out) [0; 0; 0] = true
       /\ At (t_cast 0) out [0; 0; 0] = LowestOrInf
       /\ ~ (exists coords,
               in_window (skipn 2 (shape x)) [1] [1] [1] [0] coords
               /\ At (t_cast 0) out [0; 0; 0] = At (t_cast 0) x (0 :: 0 :: coords)).
Proof.
  cbn zeta. split; [reflexivity |]. split; [reflexivity |].
  eexists. split; [rewrite Forward_run; reflexivity |].
  split; [reflexivity |]. split; [vm_compute; reflexivity |].
  intros (coords & (kk & Hkk & Hc & Hin) & _).
  destruct kk as [| k [| k' kk]]; cbn [inb] in Hkk;
    rewrite ?andb_false_r in Hkk; try discriminate Hkk.
  change (inb [1] [k] = true) in Hkk.
  apply inb_cons in Hkk. destruct Hkk as [Hk _].
  subst coords. cbn [sample_coords tensor1 shape skipn length] in Hin.
  replace k with 0 in Hin by lia. discriminate Hin.
Qed.

(* ------------------------------------------------------------------ *)
(** ** C2: the gradient of max pooling *)

Section BackwardGradient.

Context {T : Type} {E : Element T}.

(** The flat buffer of [Backward]: zero, except that the slice of every
    output position holds its [gout] value at its argmax index. *)
Lemma backward_gcol_slices (self : MaxPool.NativeMaxPoolForwardBackward T)
    (x gout : Array T) (d : T) :
  valid_pool (shape x) (MaxPool.kernel_size_ self) (MaxPool.stride_ self)
    (MaxPool.pad_ self) (MaxPool.cover_all_ self) = true ->
  let indices := forward_indices self x in
  let k := fold_left Z.mul (MaxPool.kernel_size_ self) 1 in
  let n := GetTotalSize (shape indices) in
  let gcol := backward_gcol self x gout in
  shape gcol = [n * k]
  /\ Z.of_nat (length (data gcol)) = n * k
  /\ forall o j, 0 <= o < n -> 0 <= j < k ->
       znth (o * k + j) (data gcol) d =
       if j =? znth o (data indices) 0
       then t_add (t_cast 0) (znth o (data gout) (t_cast 0))
       else t_cast 0.
Proof.
  intros Hvalid indices k n gcol.
  destruct (forward_indices_range self x Hvalid) as (Hk & Hnn & Hlen & Hidx).
  fold indices k n in Hk, Hnn, Hlen, Hidx.
  pose proof (GetTotalSize_nonneg _ Hnn) as Hn. fold n in Hn.
  exact (AddAt_slices (data indices) (data gout) n k d Hk Hn Hlen Hidx).
Qed.

(** The columnar gradient: at kernel offset [kk] of window [oo] it holds the
    [gout] value of the window when [kk] is its argmax, and zero
    otherwise. *)
Lemma At_backward_colgrad (self : MaxPool.NativeMaxPoolForwardBackward T)
    (x gout : Array T) (d : T) (b c : Z) (dims : list Z) (bi ci : Z)
    (kk oo : list Z) :
  let ks := MaxPool.kernel_size_ self in
  let outs := conv_out_dims dims ks (MaxPool.stride_ self) (MaxPool.pad_ self)
                (MaxPool.cover_all_ self) in
  valid_pool (shape x) ks (MaxPool.stride_ self) (MaxPool.pad_ self)
    (MaxPool.cover_all_ self) = true ->
  shape x = b :: c :: dims ->
  shape gout = b :: c :: outs ->
  0 <= bi < b -> 0 <= ci < c -> inb ks kk = true -> inb outs oo = true ->
  shape (backward_colgrad self x gout) = b :: c :: ks ++ outs
  /\ At d (backward_colgrad self x gout) (bi :: ci :: kk ++ oo) =
     if ravel ks kk =? At 0 (forward_indices self x) (bi :: ci :: oo)
     then t_add (t_cast 0) (At (t_cast 0) gout (bi :: ci :: oo))
     else t_cast 0.
Proof.
  intros ks outs Hvalid Hx Hgout Hbi Hci Hkk Hoo.
  destruct (valid_pool_spec _ _ _ _ _ Hvalid)
    as (b' & c' & dims' & Hx' & Hb & Hc & Hdims & Hld & Hlst & Hlpad & Hks & Hst
        & Hpad & Houts).
  rewrite Hx in Hx'. injection Hx' as <- <- <-.
  fold ks in Hld, Hlst, Hlpad, Hks, Houts. fold outs in Houts.
  assert (Hlo : length outs = length ks)
    by (unfold outs; now apply conv_out_dims_length).
  assert (Hsi : shape (forward_indices self x) = b :: c :: outs).
  { rewrite shape_forward_indices by (rewrite Hx; cbn [length]; fold ks; lia).
    unfold pooled_shape. now rewrite Hx. }
  unfold backward_colgrad. fold ks.
  assert (Hsr : shape (Reshape (backward_gcol self x gout) (shape gout ++ ks)) =
                b :: c :: outs ++ ks).
  { cbn [shape Reshape]. now rewrite Hgout. }
  split.
  { now apply (shape_Transpose_swap _ (length ks) b c outs ks). }
  rewrite (At_Transpose_swap _ (length ks) b c outs ks d bi ci oo kk Hsr Hlo
             eq_refl Hbi Hci Hoo Hkk).
  rewrite At_Reshape, Hgout.
  change (b :: c :: outs ++ ks) with ((b :: c :: outs) ++ ks).
  change (bi :: ci :: oo ++ kk) with ((bi :: ci :: oo) ++ kk).
  assert (Hin : inb (b :: c :: outs) (bi :: ci :: oo) = true).
  { apply inb_cons. split; [exact Hbi |]. apply inb_cons. now split. }
  rewrite ravel_app by (now apply inb_length).
  destruct (backward_gcol_slices self x gout (t_cast 0) Hvalid)
    as (_ & _ & Hz).
  rewrite <- kernel_total_size_eq. fold ks in Hz.
  pose proof (inb_ravel_range _ _ Hin) as Hro.
  pose proof (inb_ravel_range _ _ Hkk) as Hrk.
  rewrite Hz by (rewrite ?Hsi, ?kernel_total_size_eq; assumption).
  unfold At. now rewrite Hsi, Hgout.
Qed.

Context {O : ElementOrder T}.

(** C2: for a [gout] of the shape of the forward output, [Backward(gout)]
    computes the argmax indices of the cached windowed tensor along the
    kernel axes, each the first position in scan order that holds the
    maximum the forward reduction returned; builds the zero-initialised flat
    buffer of size [out_total_size * kernel_total_size]; adds every
    flattened [gout] value at [index + output_position *
    kernel_total_size]; reshapes the buffer to [(batch, channel,
    out_1..out_n, k_1..k_n)] and permutes it to [(batch, channel, k_1..k_n,
    out_1..out_n)]; and window-scatters that tensor with the cached stride
    and pad into the spatial shape of the input. *)
Theorem MaxPool_Backward_gradient
    (self : MaxPool.NativeMaxPoolForwardBackward T) (x gout : Array T) :
  valid_pool (shape x) (MaxPool.kernel_size_ self) (MaxPool.stride_ self)
    (MaxPool.pad_ self) (MaxPool.cover_all_ self) = true ->
  shape gout = pooled_shape (shape x) (MaxPool.kernel_size_ self)
                 (MaxPool.stride_ self) (MaxPool.pad_ self)
                 (MaxPool.cover_all_ self) ->
  let ks := MaxPool.kernel_size_ self in
  let st := MaxPool.stride_ self in
  let pad := MaxPool.pad_ self in
  let outs := conv_out_dims (skipn 2 (shape x)) ks st pad
                (MaxPool.cover_all_ self) in
  let indices := forward_indices self x in
  let k := fold_left Z.mul ks 1 in
  let n := GetTotalSize (shape indices) in
  let gcol := backward_gcol self x gout in
  let colgrad := backward_colgrad self x gout in
  exists out,
    fst (MaxPool.Forward x self) = Ok out
    /\ fst (MaxPool.Backward gout (snd (MaxPool.Forward x self))) =
       Ok (Col2Im colgrad st pad (skipn 2 (shape x)))
    /\ shape indices = shape out
    /\ (forall bi ci oo,
           inb (shape out) (bi :: ci :: oo) = true ->
           first_max (window_elems x ks st pad LowestOrInf bi ci oo)
             (At 0 indices (bi :: ci :: oo))
             (At (t_cast 0) out (bi :: ci :: oo)))
    /\ shape gcol = [n * k]
    /\ Z.of_nat (length (data gcol)) = n * k
    /\ (forall o j, 0 <= o < n -> 0 <= j < k ->
           znth (o * k + j) (data gcol) (t_cast 0) =
           if j =? znth o (data indices) 0
           then t_add (t_cast 0) (znth o (data gout) (t_cast 0))
           else t_cast 0)
    /\ shape colgrad = znth 0 (shape x) 0 :: znth 1 (shape x) 0 :: ks ++ outs
    /\ (forall bi ci kk oo,
           inb (shape out) (bi :: ci :: oo) = true ->
           inb ks kk = true ->
           At (t_cast 0) colgrad (bi :: ci :: kk ++ oo) =
           znth (ravel (shape out) (bi :: ci :: oo) * k + ravel ks kk)
             (data gcol) (t_cast 0)).
Proof.
  intros Hvalid Hgout ks st pad outs indices k n gcol colgrad.
  destruct (valid_pool_spec _ _ _ _ _ Hvalid)
    as (b & c & dims & Hx & Hb & Hc & Hdims & Hld & Hlst & Hlpad & Hks & Hst
        & Hpad & Houts).
  fold ks st pad in Hld, Hlst, Hlpad, Hks, Hst, Hpad, Houts.
  pose proof (nonneg_pos _ Hks) as Hks0.
  assert (Ho' : outs = conv_out_dims dims ks st pad (MaxPool.cover_all_ self))
    by (unfold outs; now rewrite Hx).
  assert (Hps : pooled_shape (shape x) ks st pad (MaxPool.cover_all_ self) =
                b :: c :: outs).
  { unfold pooled_shape. rewrite Ho', Hx. reflexivity. }
  fold ks st pad in Hgout. rewrite Hps in Hgout.
  assert (Hsi : shape indices = b :: c :: outs).
  { unfold indices.
    rewrite shape_forward_indices by (rewrite Hx; cbn [length]; fold ks; lia).
    exact Hps. }
  assert (Hlo : length outs = length ks)
    by (rewrite Ho'; now apply conv_out_dims_length).
  pose proof (Forward_forward_done self x) as Hf.
  pose proof (Forward_same_params self x) as Hp.
  rewrite (Backward_run _ x gout Hf)
    by (rewrite (forward_indices_params _ _ x Hp); fold indices; congruence).
  rewrite (backward_of_params _ _ x gout Hp).
  rewrite Forward_run. cbn [fst]. fold ks st pad. unfold GetLowestOrInf.
  set (out := Max (Im2Col x ks st pad (MaxPool.cover_all_ self) LowestOrInf)
                (consec 2 (Z.of_nat (length ks)))).
  assert (Hso : shape out = b :: c :: outs).
  { unfold out, Max. rewrite shape_tabulate.
    rewrite shape_reduced_Im2Col by (rewrite Hx; cbn [length]; fold ks; lia).
    exact Hps. }
  exists out. split; [reflexivity |]. split; [reflexivity |].
  split; [congruence |]. split.
  { intros bi ci oo Hin. rewrite Hso in Hin.
    apply inb_cons in Hin. destruct Hin as [Hbi Hin].
    apply inb_cons in Hin. destruct Hin as [Hci Hoo]. rewrite Ho' in Hoo.
    unfold indices.
    rewrite (At_forward_indices self x b c dims bi ci oo 0 Hx Hks0 Hbi Hci Hoo).
    pose proof (At_Max_Im2Col x ks st pad (MaxPool.cover_all_ self) (t_cast 0)
                  b c dims bi ci oo Hx Hks0 Hbi Hci Hoo) as HM.
    unfold GetLowestOrInf in HM. fold out in HM. rewrite HM.
    apply argmax_first. now apply window_elems_nonempty. }
  destruct (backward_gcol_slices self x gout (t_cast 0) Hvalid)
    as (Hg1 & Hg2 & Hg3).
  split; [exact Hg1 |]. split; [exact Hg2 |]. split; [exact Hg3 |].
  rewrite Hx. change (znth 0 (b :: c :: dims) 0) with b.
  change (znth 1 (b :: c :: dims) 0) with c.
  split.
  { unfold colgrad, backward_colgrad. fold ks.
    apply (shape_Transpose_swap _ (length ks) b c outs ks);
      [cbn [shape Reshape]; now rewrite Hgout | exact Hlo | reflexivity]. }
  intros bi ci kk oo Hin Hkk. rewrite Hso in Hin |- *.
  pose proof Hin as Hin'.
  apply inb_cons in Hin. destruct Hin as [Hbi Hin].
  apply inb_cons in Hin. destruct Hin as [Hci Hoo].
  rewrite Ho' in Hgout, Hoo.
  destruct (At_backward_colgrad self x gout (t_cast 0) b c dims bi ci kk oo
              Hvalid Hx Hgout Hbi Hci Hkk Hoo) as [_ Hat].
  fold ks in Hat. unfold colgrad. rewrite Hat.
  rewrite <- Ho' in Hoo.
  pose proof (inb_ravel_range _ _ Hin') as Hro.
  pose proof (inb_ravel_range _ _ Hkk) as Hrk.
  assert (Hro' : 0 <= ravel (b :: c :: outs) (bi :: ci :: oo) < n).
  { unfold n. rewrite Hsi. exact Hro. }
  assert (Hrk' : 0 <= ravel ks kk < k).
  { unfold k. rewrite kernel_total_size_eq. exact Hrk. }
  etransitivity; [| symmetry; apply (Hg3 _ _ Hro' Hrk')].
  unfold At. fold indices. now rewrite Hsi, Hgout, <- Ho'.
Qed.

End BackwardGradient.

Lemma MaxPool_Backward_gradient_witness :
  let x := tensor1 [1; 5; 3; 4] in
  let gout := tensor1 [10; 20; 30] in
  let self := MaxPool.new (T := int64) [2] [1] [0] false in
  valid_pool (shape x) [2] [1] [0] false = true
  /\ shape gout = pooled_shape (shape x) [2] [1] [0] false
  /\ exists gx,
       fst (MaxPool.Backward gout (snd (MaxPool.Forward x self))) = Ok gx
       /\ shape gx = [1; 1; 4].
Proof.
  cbn zeta. split; [reflexivity |]. split; [reflexivity |].
  destruct (MaxPool_Backward_gradient
              (MaxPool.new (T := int64) [2] [1] [0] false)
              (tensor1 [1; 5; 3; 4]) (tensor1 [10; 20; 30]) eq_refl eq_refl)
    as (out & _ & Hrun & _).
  eexists. split; [exact Hrun | reflexivity].
Defined.

(* ------------------------------------------------------------------ *)
(** ** C3: the second-order gradient of max pooling *)

Section DoubleBackwardGather.

Context {T : Type} {E : Element T} {O : ElementOrder T}.

(** C3, as amended: for a [ggx] of the shape of the input, after [Forward(x)]
    and a [Backward] with a [gout] of the output's shape,
    [DoubleBackward(ggx)] window-extracts [ggx] with the kernel, stride, pad,
    [cover_all] and fill of [Forward], permutes and flattens it, and gathers
    at the cached [index + offset] positions.  At every output position the
    index is the first kernel offset in scan order at which the window of
    [x] holds the forward maximum; the result there is the value of [ggx] at
    the input coordinate of that offset when the coordinate lies inside the
    input, and the fill value when it lies in the padding. *)
Theorem MaxPool_DoubleBackward_gather
    (self : MaxPool.NativeMaxPoolForwardBackward T) (x gout ggx : Array T) :
  valid_pool (shape x) (MaxPool.kernel_size_ self) (MaxPool.stride_ self)
    (MaxPool.pad_ self) (MaxPool.cover_all_ self) = true ->
  shape gout = pooled_shape (shape x) (MaxPool.kernel_size_ self)
                 (MaxPool.stride_ self) (MaxPool.pad_ self)
                 (MaxPool.cover_all_ self) ->
  shape ggx = shape x ->
  let ks := MaxPool.kernel_size_ self in
  let st := MaxPool.stride_ self in
  let pad := MaxPool.pad_ self in
  let dims := skipn 2 (shape x) in
  let s1 := snd (MaxPool.Forward x self) in
  let s2 := snd (MaxPool.Backward gout s1) in
  exists out r,
    fst (MaxPool.Forward x self) = Ok out
    /\ fst (MaxPool.DoubleBackward ggx s2) = Ok r
    /\ r = double_backward_of self x ggx
    /\ shape r = shape out
    /\ forall bi ci oo,
         inb (shape out) (bi :: ci :: oo) = true ->
         let index := At 0 (forward_indices self x) (bi :: ci :: oo) in
         let coords := sample_coords oo (unravel ks index) st pad in
         first_max (window_elems x ks st pad LowestOrInf bi ci oo) index
           (At (t_cast 0) out (bi :: ci :: oo))
         /\ At (t_cast 0) r (bi :: ci :: oo) =
            if inb dims coords
            then At LowestOrInf ggx (bi :: ci :: coords)
            else LowestOrInf.
Proof.
  intros Hvalid Hgout Hggx ks st pad dims s1 s2.
  destruct (valid_pool_spec _ _ _ _ _ Hvalid)
    as (b & c & dims' & Hx & Hb & Hc & Hdims & Hld & Hlst & Hlpad & Hks & Hst
        & Hpad & Houts).
  fold ks st pad in Hld, Hlst, Hlpad, Hks, Hst, Hpad, Houts.
  assert (Hd' : dims = dims') by (unfold dims; now rewrite Hx). subst dims'.
  set (outs := conv_out_dims dims ks st pad (MaxPool.cover_all_ self)) in *.
  pose proof (nonneg_pos _ Hks) as Hks0.
  assert (Hps : pooled_shape (shape x) ks st pad (MaxPool.cover_all_ self) =
                b :: c :: outs).
  { unfold pooled_shape. rewrite Hx. reflexivity. }
  fold ks st pad in Hgout. rewrite Hps in Hgout.
  set (indices := forward_indices self x).
  assert (Hsi : shape indices = b :: c :: outs).
  { unfold indices.
    rewrite shape_forward_indices by (rewrite Hx; cbn [length]; fold ks; lia).
    exact Hps. }
  assert (Hlo : length outs = length ks)
    by (unfold outs; now apply conv_out_dims_length).
  pose proof (Forward_forward_done self x) as Hf.
  pose proof (Forward_same_params self x) as Hp. fold s1 in Hf, Hp.
  assert (Hb2 : backward_done x s2 /\ same_params s2 self).
  { unfold s2. rewrite (Backward_run s1 x gout Hf)
      by (rewrite (forward_indices_params _ _ x Hp); fold indices; congruence).
    cbn [snd]. split; [split; repeat split | exact Hp]. }
  destruct Hb2 as [Hb2 Hp2].
  rewrite (DoubleBackward_run s2 x ggx Hb2). cbn [fst].
  rewrite (double_backward_of_params _ _ x ggx Hp2).
  rewrite Forward_run. cbn [fst]. fold ks st pad. unfold GetLowestOrInf.
  set (out := Max (Im2Col x ks st pad (MaxPool.cover_all_ self) LowestOrInf)
                (consec 2 (Z.of_nat (length ks)))).
  assert (Hso : shape out = b :: c :: outs).
  { unfold out, Max. rewrite shape_tabulate.
    rewrite shape_reduced_Im2Col by (rewrite Hx; cbn [length]; fold ks; lia).
    exact Hps. }
  exists out. eexists. split; [reflexivity |]. split; [reflexivity |].
  split; [reflexivity |].
  destruct (forward_indices_range self x Hvalid) as (Hk & Hnn & Hlen & Hidx).
  fold indices ks in Hk, Hnn, Hlen, Hidx.
  set (k := fold_left Z.mul ks 1) in *.
  set (n := GetTotalSize (shape indices)) in *.
  assert (Hshape_r : shape (double_backward_of self x ggx) = shape indices)
    by reflexivity.
  split; [now rewrite Hshape_r, Hsi, Hso |].
  intros bi ci oo Hin. rewrite Hso in Hin. pose proof Hin as Hin'.
  apply inb_cons in Hin. destruct Hin as [Hbi Hin].
  apply inb_cons in Hin. destruct Hin as [Hci Hoo].
  cbn zeta.
  pose proof (At_forward_indices self x b c dims bi ci oo 0 Hx Hks0 Hbi Hci Hoo)
    as Hati. fold indices ks st pad in Hati.
  split.
  { rewrite Hati.
    pose proof (At_Max_Im2Col x ks st pad (MaxPool.cover_all_ self) (t_cast 0)
                  b c dims bi ci oo Hx Hks0 Hbi Hci Hoo) as HM.
    unfold GetLowestOrInf in HM. fold out in HM. rewrite HM.
    apply argmax_first. now apply window_elems_nonempty. }
  pose proof (inb_ravel_range _ _ Hin') as Hro.
  set (o := ravel (b :: c :: outs) (bi :: ci :: oo)) in *.
  assert (Ho : 0 <= o < n) by (unfold n; now rewrite Hsi).
  pose proof (Hidx o Ho) as Hio.
  assert (Hzi : znth o (data indices) 0 = At 0 indices (bi :: ci :: oo)).
  { unfold At. now rewrite Hsi. }
  rewrite Hzi in Hio.
  set (index := At 0 indices (bi :: ci :: oo)) in *.
  assert (Hkk : inb ks (unravel ks index) = true).
  { apply inb_unravel; [exact Hks0 |]. unfold k in Hio.
    now rewrite kernel_total_size_eq in Hio. }
  assert (Hrk : ravel ks (unravel ks index) = index).
  { apply ravel_unravel; [exact Hks0 |]. unfold k in Hio.
    now rewrite kernel_total_size_eq in Hio. }
  (* the gathered position *)
  unfold double_backward_of, Take. fold indices ks.
  set (pos := Add indices (Reshape (forward_offset self x) (shape indices))).
  assert (Hsp : shape pos = b :: c :: outs) by exact Hsi.
  assert (Hdp : data pos =
                data (Add (mkArray [n] (data indices)) (Arange 0 (n * k) k)))
    by reflexivity.
  unfold At at 1. cbn [shape data]. rewrite Hsp. fold o.
  rewrite znth_map with (d := 0)
    by (rewrite Hdp, (length_index_plus_offset (data indices) n k Hlen Hk);
        exact Ho).
  rewrite Hdp, (znth_index_plus_offset (data indices) n k o Hlen Hk Ho), Hzi.
  fold index.
  (* the flattened, permuted windowed tensor of [ggx] *)
  assert (Hxg : shape ggx = b :: c :: dims) by congruence.
  set (colg := forward_col self ggx).
  assert (Hsc : shape colg = b :: c :: ks ++ outs).
  { unfold colg, forward_col. fold ks st pad.
    now rewrite (shape_Im2Col _ _ _ _ _ _ _ _ _ Hxg). }
  pose proof (At_Transpose_swap colg (length ks) b c ks outs (t_cast 0) bi ci
                (unravel ks index) oo Hsc eq_refl Hlo Hbi Hci Hkk Hoo) as Hsw.
  unfold At at 1 in Hsw.
  rewrite (shape_Transpose_swap colg (length ks) b c ks outs Hsc eq_refl Hlo)
    in Hsw.
  change (b :: c :: outs ++ ks) with ((b :: c :: outs) ++ ks) in Hsw.
  change (bi :: ci :: oo ++ unravel ks index)
    with ((bi :: ci :: oo) ++ unravel ks index) in Hsw.
  rewrite ravel_app in Hsw by (now apply inb_length).
  fold o in Hsw. rewrite Hrk, <- kernel_total_size_eq in Hsw. fold k in Hsw.
  replace (index + o * k) with (o * k + index) by lia.
  cbn [data Reshape]. rewrite Hsw.
  unfold colg, forward_col. fold ks st pad.
  rewrite (At_Im2Col ggx ks st pad (MaxPool.cover_all_ self) LowestOrInf
             (t_cast 0) b c dims bi ci (unravel ks index) oo Hxg Hbi Hci Hkk Hoo).
  unfold dims. rewrite Hx. reflexivity.
Qed.

End DoubleBackwardGather.

Lemma MaxPool_DoubleBackward_gather_witness :
  let x := tensor1 [1; 5; 3; 4] in
  let gout := tensor1 [10; 20; 30] in
  let ggx := tensor1 [7; 8; 9; 10] in
  let self := MaxPool.new (T := int64) [2] [1] [0] false in
  valid_pool (shape x) [2] [1] [0] false = true
  /\ shape gout = pooled_shape (shape x) [2] [1] [0] false
  /\ shape ggx = shape x
  /\ exists r,
       fst (MaxPool.DoubleBackward ggx
              (snd (MaxPool.Backward gout (snd (MaxPool.Forward x self))))) = Ok r
       /\ shape r = [1; 1; 3].
Proof.
  cbn zeta. split; [reflexivity |]. split; [reflexivity |].
  split; [reflexivity |].
  destruct (MaxPool_DoubleBackward_gather
              (MaxPool.new (T := int64) [2] [1] [0] false)
              (tensor1 [1; 5; 3; 4]) (tensor1 [10; 20; 30])
              (tensor1 [7; 8; 9; 10]) eq_refl eq_refl eq_refl)
    as (out & r & _ & Hrun & Hr & _).
  exists r. split; [exact Hrun |]. rewrite Hr. reflexivity.
Defined.

(** C3 as stated fails where the forward maximum is taken in the padding:
    with one element, kernel 1, stride 1 and pad 1, the window of output
    position 0 samples only the coordinate -1; [DoubleBackward] returns the
    fill value there, which is the value of [ggx] at no coordinate of that
    window. *)
Lemma MaxPool_DoubleBackward_padding_selected :
  let x := tensor1 [5] in
  let gout := tensor1 [1; 2; 3] in
  let ggx := tensor1 [7] in
  let self := MaxPool.new (T := int64) [1] [1] [1] false in
  let s2 := snd (MaxPool.Backward gout (snd (MaxPool.Forward x self))) in
  valid_pool (shape x) [1] [1] [1] false = true
  /\ shape gout = pooled_shape (shape x) [1] [1] [1] false
  /\ shape ggx = shape x
  /\ fst (MaxPool.DoubleBackward ggx s2)
     = Ok (mkArray [1; 1; 3] [LowestOrInf; i64 7; LowestOrInf])
  /\ ~ (exists coords,
          in_window (skipn 2 (shape x)) [1] [1] [1] [0] coords
          /\ (LowestOrInf : int64) = At (t_cast 0) ggx (0 :: 0 :: coords)).
Proof.
  cbn zeta. split; [reflexivity |]. split; [reflexivity |].
  split; [reflexivity |]. split; [vm_compute; reflexivity |].
  intros (coords & (kk & Hkk & Hc & Hin) & _).
  destruct kk as [| k [| k' kk]]; cbn [inb] in Hkk;
    rewrite ?andb_false_r in Hkk; try discriminate Hkk.
  change (inb [1] [k] = true) in Hkk.
  apply inb_cons in Hkk. destruct Hkk as [Hk _].
  subst coords. cbn [sample_coords tensor1 shape skipn length] in Hin.
  replace k with 0 in Hin by lia. discriminate Hin.
Qed.

(* ------------------------------------------------------------------ *)
(** ** C4: the order of the calls *)

Section MaxPoolCalls.

Context {T : Type} {E : Element T}.

(** One call keeps the parameters and the caches of the forward pass. *)
Lemma call_forward_done (c : Call) (x : Array T)
    (s : MaxPool.NativeMaxPoolForwardBackward T) :
  forward_done x s ->
  forward_done x (snd (call c s)) /\ same_params (snd (call c s)) s.
Proof.
  intros Hf. destruct c as [gout | ggx]; cbn [call].
  - destruct (list_eq_dec Z.eq_dec (shape (forward_indices s x)) (shape gout))
      as [Heq | Hne].
    + rewrite (Backward_run s x gout Hf Heq). cbn [snd].
      split; repeat split.
    + rewrite (Backward_fail s x gout Hf Hne). cbn [snd].
      destruct Hf as (Hcol & Hx & Haxes).
      split; repeat split; assumption.
  - rewrite DoubleBackward_state. split; [exact Hf | repeat split].
Qed.

(** One call keeps the index and offset tensors of the forward pass. *)
Lemma call_backward_done (c : Call) (x : Array T)
    (s : MaxPool.NativeMaxPoolForwardBackward T) :
  backward_done x s -> backward_done x (snd (call c s)).
Proof.
  intros Hb. destruct c as [gout | ggx]; cbn [call].
  - destruct Hb as (Hf & Hi & Ho).
    destruct (list_eq_dec Z.eq_dec (shape (forward_indices s x)) (shape gout))
      as [Heq | Hne].
    + rewrite (Backward_run s x gout Hf Heq). cbn [snd].
      split; repeat split.
    + rewrite (Backward_fail s x gout Hf Hne). cbn [snd].
      destruct Hf as (Hcol & Hx & Haxes).
      split; repeat split; assumption.
  - now rewrite DoubleBackward_state.
Qed.

Lemma after_calls_forward_done (cs : list Call) (x : Array T)
    (s : MaxPool.NativeMaxPoolForwardBackward T) :
  forward_done x s ->
  forward_done x (after_calls cs s) /\ same_params (after_calls cs s) s.
Proof.
  revert s. induction cs as [| c cs IH]; intros s Hf.
  - split; [exact Hf | repeat split].
  - cbn [after_calls fold_left].
    destruct (call_forward_done c x s Hf) as [Hf' Hp'].
    destruct (IH _ Hf') as [Hf'' Hp'']. split; [exact Hf'' |].
    exact (same_params_trans _ _ _ Hp'' Hp').
Qed.

Lemma after_calls_backward_done (cs : list Call) (x : Array T)
    (s : MaxPool.NativeMaxPoolForwardBackward T) :
  backward_done x s -> backward_done x (after_calls cs s).
Proof.
  revert s. induction cs as [| c cs IH]; intros s Hb; [exact Hb |].
  cbn [after_calls fold_left]. apply IH. now apply call_backward_done.
Qed.

Lemma after_calls_with_Backward (cs : list Call) (x gout : Array T)
    (s : MaxPool.NativeMaxPoolForwardBackward T) :
  forward_done x s ->
  In (CallBackward gout) cs ->
  shape gout = shape (forward_indices s x) ->
  backward_done x (after_calls cs s).
Proof.
  revert s. induction cs as [| c cs IH]; intros s Hf Hin Hs; [destruct Hin |].
  cbn [after_calls fold_left]. destruct Hin as [-> | Hin].
  - apply after_calls_backward_done. cbn [call].
    rewrite (Backward_run s x gout Hf (eq_sym Hs)). cbn [snd].
    split; repeat split.
  - destruct (call_forward_done c x s Hf) as [Hf' Hp'].
    apply IH; [exact Hf' | exact Hin |].
    now rewrite (forward_indices_params _ _ x Hp').
Qed.

(** C4, as amended: after a [Forward(x)], and after any sequence of
    [Backward] and [DoubleBackward] calls that follows it, [Backward]
    refers to the windowed tensor and the input cached by that [Forward].
    [DoubleBackward] refers to the index and offset tensors cached by the
    most recent [Backward]: once a [Backward] with a [gout] of the output's
    shape has run since that [Forward] they are the index and offset tensors
    of that [Forward], [DoubleBackward] succeeds with them, and it changes
    no member. *)
Theorem MaxPool_calls_after_Forward
    (self : MaxPool.NativeMaxPoolForwardBackward T) (x : Array T)
    (cs : list Call) :
  let s := after_calls cs (snd (MaxPool.Forward x self)) in
  forward_done x s
  /\ same_params s self
  /\ (forall gout,
         shape gout = shape (forward_indices self x) ->
         fst (MaxPool.Backward gout s) = Ok (backward_of self x gout)
         /\ backward_done x (snd (MaxPool.Backward gout s)))
  /\ ((exists gout,
          In (CallBackward gout) cs
          /\ shape gout = shape (forward_indices self x)) ->
      backward_done x s
      /\ forall ggx,
           MaxPool.DoubleBackward ggx s = (Ok (double_backward_of self x ggx), s)).
Proof.
  cbn zeta.
  pose proof (Forward_forward_done self x) as Hf1.
  pose proof (Forward_same_params self x) as Hp1.
  destruct (after_calls_forward_done cs x _ Hf1) as [Hf Hp].
  pose proof (same_params_trans _ _ _ Hp Hp1) as Hps.
  set (s := after_calls cs (snd (MaxPool.Forward x self))) in *.
  split; [exact Hf |]. split; [exact Hps |]. split.
  - intros gout Hs.
    rewrite <- (forward_indices_params _ _ x Hps) in Hs.
    rewrite (Backward_run s x gout Hf (eq_sym Hs)). cbn [fst snd].
    split; [now rewrite (backward_of_params _ _ x gout Hps) |].
    split; repeat split.
  - intros (gout & Hin & Hs).
    assert (Hb : backward_done x s).
    { apply (after_calls_with_Backward cs x gout); [exact Hf1 | exact Hin |].
      now rewrite (forward_indices_params _ _ x Hp1). }
    split; [exact Hb |]. intros ggx.
    rewrite (DoubleBackward_run s x ggx Hb).
    now rewrite (double_backward_of_params _ _ x ggx Hps).
Qed.

End MaxPoolCalls.

(** C4 as stated fails: [Forward] does not produce the index tensor,
    [Backward] does.  Straight after the first [Forward] of an object,
    [DoubleBackward] finds no index tensor; and after [Forward],
    [Backward], [Forward], it gathers with the index tensor of the first
    [Forward], not of the most recent one. *)
Lemma MaxPool_DoubleBackward_before_Backward :
  let self := MaxPool.new (T := int64) [2] [2] [0] false in
  let s1 := snd (MaxPool.Forward (tensor1 [1; 2]) self) in
  let s2 := snd (MaxPool.Backward (tensor1 [1]) s1) in
  let s3 := snd (MaxPool.Forward (tensor1 [2; 1]) s2) in
  fst (MaxPool.DoubleBackward (tensor1 [7; 8]) s1) = Throw NullArray
  /\ MaxPool.indices_ s3 = Some (forward_indices self (tensor1 [1; 2]))
  /\ data (forward_indices self (tensor1 [1; 2])) = [1]
  /\ data (forward_indices self (tensor1 [2; 1])) = [0]
  /\ fst (MaxPool.DoubleBackward (tensor1 [7; 8]) s3)
     = Ok (mkArray [1; 1; 1] [i64 8]).
Proof.
  cbn zeta. split; [reflexivity |]. split; [reflexivity |].
  split; [vm_compute; reflexivity |]. split; [vm_compute; reflexivity |].
  vm_compute. reflexivity.
Qed.

(* ------------------------------------------------------------------ *)
(** ** C5: the gradient mass *)

Lemma tiling_axis (d k s p o kk : Z) (cover_all : bool) :
  0 < k -> s = k -> p = 0 -> d mod k = 0 ->
  0 <= kk < k -> 0 <= o < GetConvOutDim d k s p cover_all ->
  0 <= o * s + kk - p < d.
Proof.
  intros Hk -> -> Hmod Hkk Ho. unfold GetConvOutDim in Ho.
  replace (d + 2 * 0 - k) with (d + (-1) * k) in Ho by lia.
  rewrite Z.mod_add, Hmod in Ho by lia.
  rewrite Z.div_add in Ho by lia.
  change (0 =? 0) with true in Ho. rewrite andb_false_r in Ho.
  pose proof (Z.div_mod d k ltac:(lia)) as Hd. nia.
Qed.

(** In a tiling every window lies inside the input. *)
Lemma tiling_inside (dims ks st pad : list Z) (cover_all : bool) (kk oo : list Z) :
  tiling dims ks st pad = true ->
  Forall (fun k => 0 < k) ks ->
  inb ks kk = true ->
  inb (conv_out_dims dims ks st pad cover_all) oo = true ->
  inb dims (sample_coords oo kk st pad) = true.
Proof.
  revert ks st pad kk oo.
  induction dims as [| d dims IH]; intros ks st pad kk oo Ht Hks Hkk Hoo;
    destruct ks as [| k ks]; destruct st as [| s st];
    destruct pad as [| p pad]; try discriminate Ht.
  - destruct oo; [| discriminate Hoo]. reflexivity.
  - cbn [tiling] in Ht. rewrite !andb_true_iff in Ht.
    destruct Ht as [[[Hs Hp] Hm] Ht].
    apply Z.eqb_eq in Hs, Hp, Hm.
    destruct kk as [| k0 kk]; [discriminate Hkk |].
    cbn [conv_out_dims] in Hoo. destruct oo as [| o oo]; [discriminate Hoo |].
    apply inb_cons in Hkk, Hoo. destruct Hkk as [Hk0 Hkk], Hoo as [Ho Hoo].
    inversion Hks; subst.
    cbn [sample_coords]. apply inb_cons. split.
    + now apply (tiling_axis d k k 0 o k0 cover_all).
    + now apply (IH ks st pad).
Qed.

(** In a tiling no two windows overlap. *)
Lemma tiling_disjoint (dims ks st pad : list Z) :
  tiling dims ks st pad = true -> disjoint_windows ks st = true.
Proof.
  revert ks st pad.
  induction dims as [| d dims IH]; intros ks st pad Ht;
    destruct ks as [| k ks]; destruct st as [| s st];
    destruct pad as [| p pad]; try discriminate Ht; try reflexivity.
  cbn [tiling] in Ht. rewrite !andb_true_iff in Ht.
  destruct Ht as [[[Hs Hp] Hm] Ht]. apply Z.eqb_eq in Hs.
  cbn [disjoint_windows]. rewrite (IH ks st pad Ht), andb_true_r.
  apply Z.leb_le. lia.
Qed.

Lemma tiling_axis_cover (d k c : Z) (cover_all : bool) :
  0 < k -> d mod k = 0 -> 0 <= c < d ->
  0 <= c mod k < k
  /\ 0 <= c / k < GetConvOutDim d k k 0 cover_all
  /\ c / k * k + c mod k - 0 = c.
Proof.
  intros Hk Hmod Hc. unfold GetConvOutDim.
  replace (d + 2 * 0 - k) with (d + (-1) * k) by lia.
  rewrite Z.mod_add, Hmod by lia. rewrite Z.div_add by lia.
  change (0 =? 0) with true. rewrite andb_false_r.
  pose proof (Z.mod_pos_bound c k Hk) as Hm.
  pose proof (Z.div_mod c k ltac:(lia)) as Hc'.
  pose proof (Z.div_mod d k ltac:(lia)) as Hd'.
  assert (H0 : 0 <= c / k) by (apply Z.div_pos; lia).
  assert (H1 : c / k < d / k) by (apply Z.div_lt_upper_bound; nia).
  split; [exact Hm |]. split; [lia | nia].
Qed.

(** In a tiling every input position is sampled by a window. *)
Lemma tiling_cover (dims ks st pad : list Z) (cover_all : bool) (coords : list Z) :
  tiling dims ks st pad = true ->
  Forall (fun k => 0 < k) ks ->
  inb dims coords = true ->
  exists kk oo,
    inb ks kk = true
    /\ inb (conv_out_dims dims ks st pad cover_all) oo = true
    /\ sample_coords oo kk st pad = coords.
Proof.
  revert ks st pad coords.
  induction dims as [| d dims IH]; intros ks st pad coords Ht Hks Hc;
    destruct ks as [| k ks]; destruct st as [| s st];
    destruct pad as [| p pad]; try discriminate Ht.
  - destruct coords; [| discriminate Hc]. exists [], []. now repeat split.
  - cbn [tiling] in Ht. rewrite !andb_true_iff in Ht.
    destruct Ht as [[[Hs Hp] Hm] Ht].
    apply Z.eqb_eq in Hs, Hp, Hm. subst s p.
    destruct coords as [| c coords]; [discriminate Hc |].
    apply inb_cons in Hc. destruct Hc as [Hc0 Hc].
    inversion Hks; subst.
    destruct (IH ks st pad coords Ht ltac:(assumption) Hc)
      as (kk & oo & Hkk & Hoo & Hsc).
    destruct (tiling_axis_cover d k c cover_all ltac:(assumption) Hm Hc0)
      as (Hk0 & Ho0 & Heq).
    exists (c mod k :: kk), (c / k :: oo).
    split; [apply inb_cons; now split |].
    split; [cbn [conv_out_dims]; apply inb_cons; now split |].
    cbn [sample_coords]. now rewrite Heq, Hsc.
Qed.

Lemma swap_index_split (n : nat) (bi ci : Z) (ib ia : list Z) :
  length ib = n -> length ia = n ->
  swap_index n (bi :: ci :: ib ++ ia) = bi :: ci :: ia ++ ib.
Proof.
  intros Hb Ha. unfold swap_index.
  destruct (firstn_skipn_index bi ci ib ia n Hb) as [H1 H2].
  rewrite H1, H2. reflexivity.
Qed.

Section GradientMass.

Context {T : Type} {E : Element T} {Mo : ElementMonoid T}.

(** The swap of the spatial axes permutes the buffer. *)
Lemma t_sum_Transpose_swap (a : Array T) (n : nat) (b c : Z) (sa sb : Shape) :
  shape a = b :: c :: sa ++ sb -> length sa = n -> length sb = n ->
  wf a = true ->
  t_sum (data (Transpose a (GetSwapSpatialDimensionsAxes (Z.of_nat n)))) =
  t_sum (data a).
Proof.
  intros Hs Ha Hb Hwf. apply wf_spec in Hwf. destruct Hwf as [Hnn Hlen].
  rewrite Hs in Hnn, Hlen.
  assert (Hnn' : nonneg (b :: c :: sb ++ sa)).
  { inversion Hnn as [| ? ? Hb0 Hnn1]; subst.
    inversion Hnn1 as [| ? ? Hc0 Hnn2]; subst.
    apply nonneg_app in Hnn2. destruct Hnn2.
    repeat constructor; try assumption. now apply nonneg_app. }
  assert (Hsize : GetTotalSize (b :: c :: sb ++ sa) =
                  GetTotalSize (b :: c :: sa ++ sb)).
  { rewrite !GetTotalSize_cons, !GetTotalSize_app. ring. }
  set (sh := b :: c :: sa ++ sb) in *.
  set (sh' := b :: c :: sb ++ sa) in *.
  set (N := GetTotalSize sh) in *.
  set (pi := fun j => ravel sh (swap_index n (unravel sh' j))).
  assert (Hdec : forall j, 0 <= j < N ->
            exists bi ci ib ia,
              unravel sh' j = bi :: ci :: ib ++ ia
              /\ 0 <= bi < b /\ 0 <= ci < c
              /\ inb sb ib = true /\ inb sa ia = true).
  { intros j Hj. apply inb_col_inv. apply inb_unravel; [exact Hnn' | lia]. }
  assert (Hdata : data (Transpose a (GetSwapSpatialDimensionsAxes (Z.of_nat n))) =
                  map (fun i => znth i (data a) (t_cast 0)) (map pi (zrange N))).
  { pose proof (shape_Transpose_swap a n b c sa sb Hs Ha Hb) as Hst.
    assert (Hd0 : data (Transpose a (GetSwapSpatialDimensionsAxes (Z.of_nat n))) =
                  map (fun j => At (t_cast 0)
                                  (Transpose a (GetSwapSpatialDimensionsAxes
                                                  (Z.of_nat n)))
                                  (unravel sh' j)) (zrange N)).
    { symmetry. etransitivity; [| apply (map_znth_zrange _ (t_cast 0))].
      assert (HN : Z.of_nat (length (data (Transpose a
                     (GetSwapSpatialDimensionsAxes (Z.of_nat n))))) = N).
      { unfold Transpose. rewrite tabulate_length, Hs. unfold sh.
        rewrite (axes_dims_swap n b c sa sb Ha Hb). fold sh'.
        pose proof (GetTotalSize_nonneg _ Hnn'). lia. }
      rewrite HN. apply map_ext_in. intros j Hj. apply In_zrange in Hj.
      unfold At. rewrite Hst. fold sh'.
      now rewrite ravel_unravel by (exact Hnn' || lia). }
    rewrite Hd0, map_map. apply map_ext_in. intros j Hj. apply In_zrange in Hj.
    destruct (Hdec j Hj) as (bi & ci & ib & ia & Hu & Hbi & Hci & Hib & Hia).
    rewrite Hu.
    rewrite (At_Transpose_swap a n b c sa sb (t_cast 0) bi ci ia ib Hs Ha Hb
               Hbi Hci Hia Hib).
    unfold pi. rewrite Hu, swap_index_split
      by (apply inb_length in Hib, Hia; lia).
    unfold At. now rewrite Hs. }
  rewrite Hdata.
  assert (Hperm : Permutation (map pi (zrange N)) (zrange N)).
  { apply Permutation_map_zrange.
    - intros j Hj.
      destruct (Hdec j Hj) as (bi & ci & ib & ia & Hu & Hbi & Hci & Hib & Hia).
      unfold pi. rewrite Hu, swap_index_split
        by (apply inb_length in Hib, Hia; lia).
      apply inb_ravel_range. now apply inb_col.
    - intros i j Hi Hj Heq.
      destruct (Hdec i Hi) as (bi & ci & ib & ia & Hu & Hbi & Hci & Hib & Hia).
      destruct (Hdec j Hj)
        as (bi' & ci' & ib' & ia' & Hu' & Hbi' & Hci' & Hib' & Hia').
      unfold pi in Heq. rewrite Hu, Hu' in Heq.
      rewrite !swap_index_split in Heq
        by (apply inb_length in Hib, Hia, Hib', Hia'; lia).
      apply ravel_inj in Heq; try now apply inb_col.
      injection Heq as -> -> Happ.
      apply app_inj_length in Happ;
        [| apply inb_length in Hia, Hia'; lia].
      destruct Happ as [-> ->].
      rewrite <- (ravel_unravel sh' i Hnn') by lia.
      rewrite <- (ravel_unravel sh' j Hnn') by lia.
      now rewrite Hu, Hu'. }
  rewrite (t_sum_Permutation _ _ (Permutation_map _ Hperm)).
  rewrite <- Hlen. now rewrite map_znth_zrange.
Qed.

(** When every window lies inside the input, window-scatter moves every
    entry of the columnar tensor into the result. *)
Lemma t_sum_Col2Im (col : Array T) (st pad dims : list Z) (b c : Z)
    (ks outs : Shape) :
  shape col = b :: c :: ks ++ outs ->
  length ks = length dims ->
  wf col = true ->
  0 <= b -> 0 <= c -> nonneg dims ->
  (forall kk oo,
      inb ks kk = true -> inb outs oo = true ->
      inb dims (sample_coords oo kk st pad) = true) ->
  t_sum (data (Col2Im col st pad dims)) = t_sum (data col).
Proof.
  intros Hs Hlk Hwf Hb Hc Hd Hinside.
  apply wf_spec in Hwf. destruct Hwf as [Hnn Hlen]. rewrite Hs in Hnn, Hlen.
  unfold Col2Im. cbn [data]. rewrite Hs.
  change (znth 0 (b :: c :: ks ++ outs) 0) with b.
  change (znth 1 (b :: c :: ks ++ outs) 0) with c.
  set (sh := b :: c :: ks ++ outs) in *.
  set (n := length dims).
  set (N := GetTotalSize sh) in *.
  set (pos := fun j =>
         ravel (b :: c :: dims)
           (znth 0 (unravel sh j) 0 :: znth 1 (unravel sh j) 0
              :: sample_coords (skipn (2 + n) (unravel sh j))
                   (firstn n (skipn 2 (unravel sh j))) st pad)).
  set (val := fun j => znth j (data col) (t_cast 0)).
  assert (Hdec : forall j, 0 <= j < N ->
            inb dims (sample_coords (skipn (2 + n) (unravel sh j))
                        (firstn n (skipn 2 (unravel sh j))) st pad) = true
            /\ 0 <= pos j < GetTotalSize (b :: c :: dims)).
  { intros j Hj.
    assert (Hin : inb sh (unravel sh j) = true)
      by (apply inb_unravel; [exact Hnn | lia]).
    destruct (inb_col_inv b c ks outs _ Hin)
      as (bi & ci & kk & oo & Hu & Hbi & Hci & Hkk & Hoo).
    unfold pos. rewrite Hu.
    destruct (firstn_skipn_index bi ci kk oo n) as [H1 H2].
    { apply inb_length in Hkk. unfold n. lia. }
    rewrite H1, H2. pose proof (Hinside kk oo Hkk Hoo) as Hc'.
    split; [exact Hc' |].
    apply inb_ravel_range. apply inb_cons. split; [exact Hbi |].
    apply inb_cons. split; [exact Hci | exact Hc']. }
  rewrite (fold_left_ext_in _ (fun buf j => add_at buf (pos j) (val j))).
  2:{ intros acc j Hj. apply In_zrange in Hj.
      destruct (Hdec j Hj) as [-> _]. reflexivity. }
  assert (Hnn2 : nonneg (b :: c :: dims)) by (repeat constructor; assumption).
  pose proof (GetTotalSize_nonneg _ Hnn2) as Hsz.
  destruct (t_sum_scatter pos val (zrange N)
              (repeat (t_cast 0) (Z.to_nat (GetTotalSize (b :: c :: dims)))))
    as [_ Hsum].
  { intros j Hj. apply In_zrange in Hj. rewrite repeat_length.
    destruct (Hdec j Hj) as [_ Hp]. lia. }
  rewrite Hsum, t_sum_repeat_zero, t_add_zero.
  unfold val. rewrite <- Hlen. now rewrite map_znth_zrange.
Qed.

(** The scatter-add of [Backward] moves every [gout] value into the
    buffer. *)
Lemma t_sum_backward_gcol (self : MaxPool.NativeMaxPoolForwardBackward T)
    (x gout : Array T) :
  valid_pool (shape x) (MaxPool.kernel_size_ self) (MaxPool.stride_ self)
    (MaxPool.pad_ self) (MaxPool.cover_all_ self) = true ->
  shape gout = shape (forward_indices self x) ->
  wf gout = true ->
  t_sum (data (backward_gcol self x gout)) = t_sum (data gout).
Proof.
  intros Hvalid Hgout Hwf.
  destruct (forward_indices_range self x Hvalid) as (Hk & Hnn & Hlen & Hidx).
  set (indices := forward_indices self x) in *.
  set (k := fold_left Z.mul (MaxPool.kernel_size_ self) 1) in *.
  set (n := GetTotalSize (shape indices)) in *.
  pose proof (GetTotalSize_nonneg _ Hnn) as Hn. fold n in Hn.
  apply wf_spec in Hwf. destruct Hwf as [_ Hlg]. rewrite Hgout in Hlg.
  fold n in Hlg.
  unfold backward_gcol, AddAt, forward_offset. fold indices k n.
  cbn [data Reshape Zeros].
  change (Reshape indices [n]) with (mkArray [n] (data indices)).
  rewrite (length_index_plus_offset (data indices) n k Hlen Hk).
  set (pos := fun i =>
         znth i (data (Add (mkArray [n] (data indices)) (Arange 0 (n * k) k))) 0).
  set (val := fun i => znth i (data gout) (t_cast 0)).
  change (fold_left _ (zrange n) _)
    with (fold_left (fun buf i => add_at buf (pos i) (val i)) (zrange n)
            (repeat (t_cast 0) (Z.to_nat (GetTotalSize [n * k])))).
  destruct (t_sum_scatter pos val (zrange n)
              (repeat (t_cast 0) (Z.to_nat (GetTotalSize [n * k]))))
    as [_ Hsum].
  { intros i Hi. apply In_zrange in Hi. rewrite repeat_length.
    unfold pos. rewrite (znth_index_plus_offset (data indices) n k i Hlen Hk Hi).
    pose proof (Hidx i Hi) as Hii.
    unfold GetTotalSize. cbn [fold_right]. nia. }
  rewrite Hsum, t_sum_repeat_zero, t_add_zero.
  unfold val. rewrite <- Hlg. now rewrite map_znth_zrange.
Qed.

(** A list that holds [g] at one position and zero at the others sums to
    [g]. *)
Lemma t_sum_indicator (g : T) (i n : Z) :
  0 <= n ->
  t_sum (map (fun j => if j =? i then g else t_cast 0) (zrange n)) =
  if (0 <=? i) && (i <? n) then g else t_cast 0.
Proof.
  revert n. apply natlike_ind.
  - cbn [zrange Z.to_nat seq map t_sum fold_right].
    destruct (Z.leb_spec 0 i); destruct (Z.ltb_spec i 0); try lia; reflexivity.
  - intros n Hn IH. rewrite <- Z.add_1_r, zrange_succ by lia.
    rewrite map_app. cbn [map].
    rewrite (t_sum_Permutation _ _ (Permutation_app_comm _ _)).
    cbn [app t_sum fold_right]. fold (t_sum (map (fun j => if j =? i then g else t_cast 0) (zrange n))).
    rewrite IH.
    destruct (Z.eqb_spec n i) as [-> | Hne].
    + destruct (Z.leb_spec 0 i); [| lia].
      destruct (Z.ltb_spec i i); [lia |].
      destruct (Z.ltb_spec i (i + 1)); [| lia].
      cbn [andb]. apply t_add_zero_r.
    + rewrite t_add_zero.
      destruct (Z.leb_spec 0 i); cbn [andb]; [| reflexivity].
      destruct (Z.ltb_spec i n); destruct (Z.ltb_spec i (n + 1)); try lia;
        reflexivity.
Qed.

(** C5: for a [Backward] that follows [Forward] on a valid input, and a
    tiling of the input by windows (on every axis the stride is the kernel
    size, there is no padding and the kernel size divides the extent),
    gradient mass is conserved.  [Backward] returns a well-formed gradient
    [gx] of the shape of the input whose sum is the sum of [gout].  Every
    input position lies in exactly one window.  Every window lies inside the
    input, and at the positions of a window [gx] holds the [gout] value of
    that window once, at the position of the window's argmax offset, and
    zero elsewhere: the entries of [gx] over one window sum to the [gout]
    value of that window, so that nothing leaks out of a window and nothing
    is counted twice within it. *)
Theorem MaxPool_Backward_gradient_mass
    (self : MaxPool.NativeMaxPoolForwardBackward T) (x gout : Array T) :
  valid_pool (shape x) (MaxPool.kernel_size_ self) (MaxPool.stride_ self)
    (MaxPool.pad_ self) (MaxPool.cover_all_ self) = true ->
  tiling (skipn 2 (shape x)) (MaxPool.kernel_size_ self) (MaxPool.stride_ self)
    (MaxPool.pad_ self) = true ->
  wf gout = true ->
  shape gout = pooled_shape (shape x) (MaxPool.kernel_size_ self)
                 (MaxPool.stride_ self) (MaxPool.pad_ self)
                 (MaxPool.cover_all_ self) ->
  let ks := MaxPool.kernel_size_ self in
  let st := MaxPool.stride_ self in
  let pad := MaxPool.pad_ self in
  let dims := skipn 2 (shape x) in
  let outs := conv_out_dims dims ks st pad (MaxPool.cover_all_ self) in
  let indices := forward_indices self x in
  exists gx,
    fst (MaxPool.Backward gout (snd (MaxPool.Forward x self))) = Ok gx
    /\ shape gx = shape x
    /\ wf gx = true
    /\ t_sum (data gx) = t_sum (data gout)
    /\ (forall bi ci coords,
          inb (shape x) (bi :: ci :: coords) = true ->
          exists kk oo,
            inb ks kk = true /\ inb outs oo = true
            /\ sample_coords oo kk st pad = coords
            /\ forall kk' oo',
                 inb ks kk' = true -> inb outs oo' = true ->
                 sample_coords oo' kk' st pad = coords ->
                 kk' = kk /\ oo' = oo)
    /\ forall bi ci oo,
         inb (shape gout) (bi :: ci :: oo) = true ->
         (forall kk,
             inb ks kk = true ->
             inb (shape x) (bi :: ci :: sample_coords oo kk st pad) = true
             /\ At (t_cast 0) gx (bi :: ci :: sample_coords oo kk st pad) =
                if ravel ks kk =? At 0 indices (bi :: ci :: oo)
                then At (t_cast 0) gout (bi :: ci :: oo)
                else t_cast 0)
         /\ t_sum (window_entries gx ks st pad bi ci oo) =
            At (t_cast 0) gout (bi :: ci :: oo).
Proof.
  intros Hvalid Htile Hwf Hgout ks st pad dims0 outs0 indices.
  destruct (valid_pool_spec _ _ _ _ _ Hvalid)
    as (b & c & dims & Hx & Hb & Hc & Hdims & Hld & Hlst & Hlpad & Hks & Hst
        & Hpad & Houts).
  fold ks st pad in Hld, Hlst, Hlpad, Hks, Hst, Hpad, Houts, Htile, Hgout.
  assert (Hd0 : dims0 = dims) by (unfold dims0; now rewrite Hx).
  subst outs0. rewrite Hd0. rewrite Hx in Htile. cbn [skipn] in Htile.
  clear Hd0. clearbody dims0. clear dims0.
  set (outs := conv_out_dims dims ks st pad (MaxPool.cover_all_ self)) in *.
  pose proof (nonneg_pos _ Hks) as Hks0.
  assert (Hps : pooled_shape (shape x) ks st pad (MaxPool.cover_all_ self) =
                b :: c :: outs).
  { unfold pooled_shape. rewrite Hx. reflexivity. }
  rewrite Hps in Hgout.
  assert (Hsi : shape indices = b :: c :: outs).
  { unfold indices.
    rewrite shape_forward_indices by (rewrite Hx; cbn [length]; fold ks; lia).
    exact Hps. }
  assert (Hlo : length outs = length ks)
    by (unfold outs; now apply conv_out_dims_length).
  pose proof (Forward_forward_done self x) as Hf.
  pose proof (Forward_same_params self x) as Hp.
  rewrite (Backward_run _ x gout Hf)
    by (rewrite (forward_indices_params _ _ x Hp); fold indices; congruence).
  rewrite (backward_of_params _ _ x gout Hp). cbn [fst].
  eexists. split; [reflexivity |].
  unfold backward_of. fold ks st pad. rewrite Hx. cbn [skipn].
  set (col := backward_colgrad self x gout).
  destruct (backward_gcol_slices self x gout (t_cast 0) Hvalid)
    as (_ & Hlg & _).
  fold indices in Hlg. rewrite Hsi, kernel_total_size_eq in Hlg.
  fold ks in Hlg.
  assert (Hwr : wf (Reshape (backward_gcol self x gout) (shape gout ++ ks)) = true).
  { apply wf_spec. cbn [shape data Reshape]. rewrite Hgout. split.
    - change ((b :: c :: outs) ++ ks) with (b :: c :: outs ++ ks).
      repeat constructor; try assumption. now apply nonneg_app.
    - rewrite Hlg. now rewrite GetTotalSize_app. }
  assert (Hsr : shape (Reshape (backward_gcol self x gout) (shape gout ++ ks)) =
                b :: c :: outs ++ ks).
  { cbn [shape Reshape]. now rewrite Hgout. }
  assert (Hsc : shape col = b :: c :: ks ++ outs).
  { unfold col, backward_colgrad. fold ks.
    now apply (shape_Transpose_swap _ (length ks) b c outs ks). }
  assert (Hnc : nonneg (shape col)).
  { rewrite Hsc. repeat constructor; try assumption. now apply nonneg_app. }
  assert (Hwc : wf col = true).
  { unfold col, backward_colgrad, Transpose. apply wf_tabulate.
    fold ks. rewrite Hsr.
    rewrite (axes_dims_swap (length ks) b c outs ks Hlo eq_refl).
    repeat constructor; try assumption. now apply nonneg_app. }
  assert (Hinside : forall kk oo,
             inb ks kk = true -> inb outs oo = true ->
             inb dims (sample_coords oo kk st pad) = true).
  { intros kk oo Hkk Hoo.
    now apply (tiling_inside dims ks st pad (MaxPool.cover_all_ self)). }
  assert (Hinj : forall kk oo kk' oo',
             inb ks kk = true -> inb outs oo = true ->
             inb ks kk' = true -> inb outs oo' = true ->
             sample_coords oo kk st pad = sample_coords oo' kk' st pad ->
             kk = kk' /\ oo = oo').
  { intros kk oo kk' oo' Hkk Hoo Hkk' Hoo' Heq.
    apply (sample_coords_disjoint ks st pad kk oo kk' oo'
             (tiling_disjoint dims ks st pad Htile) Hlst Hlpad);
      try assumption.
    - apply inb_length in Hoo. lia.
    - apply inb_length in Hoo'. lia. }
  destruct (At_Col2Im_disjoint col st pad dims b c ks outs (t_cast 0) Hsc
              (eq_sym Hld) Hnc Hb Hc Hdims Hinj) as [Hone _].
  split.
  { rewrite shape_Col2Im, Hsc. reflexivity. }
  split.
  { apply wf_Col2Im. rewrite Hsc. repeat constructor; assumption. }
  split.
  { rewrite (t_sum_Col2Im col st pad dims b c ks outs Hsc (eq_sym Hld));
      try assumption.
    unfold col, backward_colgrad. fold ks.
    rewrite (t_sum_Transpose_swap _ (length ks) b c outs ks Hsr Hlo eq_refl Hwr).
    cbn [data Reshape]. apply t_sum_backward_gcol; try assumption.
    fold indices. congruence. }
  split.
  { intros bi ci coords Hin.
    apply inb_cons in Hin. destruct Hin as [Hbi Hin].
    apply inb_cons in Hin. destruct Hin as [Hci Hco].
    destruct (tiling_cover dims ks st pad (MaxPool.cover_all_ self) coords
                Htile Hks Hco) as (kk & oo & Hkk & Hoo & Hsc').
    exists kk, oo. split; [exact Hkk |]. split; [exact Hoo |].
    split; [exact Hsc' |].
    intros kk' oo' Hkk' Hoo' Heq.
    apply (Hinj kk' oo' kk oo Hkk' Hoo' Hkk Hoo). congruence. }
  intros bi ci oo Hin. rewrite Hgout in Hin. pose proof Hin as Hin'.
  apply inb_cons in Hin. destruct Hin as [Hbi Hin].
  apply inb_cons in Hin. destruct Hin as [Hci Hoo].
  assert (Hpoint : forall kk,
             inb ks kk = true ->
             inb (b :: c :: dims) (bi :: ci :: sample_coords oo kk st pad) = true
             /\ At (t_cast 0) (Col2Im col st pad dims)
                  (bi :: ci :: sample_coords oo kk st pad) =
                if ravel ks kk =? At 0 indices (bi :: ci :: oo)
                then At (t_cast 0) gout (bi :: ci :: oo)
                else t_cast 0).
  { intros kk Hkk. pose proof (Hinside kk oo Hkk Hoo) as Hco.
    split.
    { apply inb_cons. split; [exact Hbi |]. apply inb_cons. now split. }
    rewrite (Hone bi ci kk oo Hbi Hci Hkk Hoo Hco).
    destruct (At_backward_colgrad self x gout (t_cast 0) b c dims bi ci kk oo
                Hvalid Hx Hgout Hbi Hci Hkk Hoo) as [_ Hat].
    fold col ks indices in Hat. rewrite Hat, t_add_zero.
    destruct (ravel ks kk =? At 0 indices (bi :: ci :: oo));
      [apply t_add_zero | reflexivity]. }
  split; [exact Hpoint |].
  (* the entries of one window *)
  destruct (forward_indices_range self x Hvalid) as (Hk & _ & _ & Hidx).
  fold indices ks in Hk, Hidx.
  rewrite kernel_total_size_eq in Hk, Hidx.
  pose proof (inb_ravel_range _ _ Hin') as Hro.
  assert (Hio : 0 <= At 0 indices (bi :: ci :: oo) < GetTotalSize ks).
  { unfold At. rewrite Hsi. apply Hidx. now rewrite Hsi. }
  set (index := At 0 indices (bi :: ci :: oo)) in *.
  unfold window_entries, all_indices. rewrite map_map.
  rewrite (map_ext_in _
             (fun j => if j =? index
                       then At (t_cast 0) gout (bi :: ci :: oo)
                       else t_cast 0)).
  - rewrite t_sum_indicator by lia.
    destruct (Z.leb_spec 0 index); destruct (Z.ltb_spec index (GetTotalSize ks));
      try lia. reflexivity.
  - intros j Hj. apply In_zrange in Hj.
    destruct (Hpoint (unravel ks j) (inb_unravel _ _ Hks0 Hj)) as [_ ->].
    now rewrite (ravel_unravel _ _ Hks0 Hj).
Qed.

End GradientMass.

Lemma MaxPool_Backward_gradient_mass_witness :
  let x := tensor1 [1; 2; 3; 4] in
  let gout := tensor1 [10; 20] in
  let self := MaxPool.new (T := int64) [2] [2] [0] false in
  valid_pool (shape x) [2] [2] [0] false = true
  /\ tiling (skipn 2 (shape x)) [2] [2] [0] = true
  /\ wf gout = true
  /\ shape gout = pooled_shape (shape x) [2] [2] [0] false
  /\ fst (MaxPool.Backward gout (snd (MaxPool.Forward x self)))
     = Ok (tensor1 [0; 10; 0; 20])
  /\ exists gx,
       fst (MaxPool.Backward gout (snd (MaxPool.Forward x self))) = Ok gx
       /\ wf gx = true
       /\ t_sum (data gx) = t_sum (data gout)
       /\ t_sum (window_entries gx [2] [2] [0] 0 0 [1]) = i64 20.
Proof.
  cbn zeta. split; [reflexivity |]. split; [reflexivity |].
  split; [reflexivity |]. split; [reflexivity |].
  split; [vm_compute; reflexivity |].
  destruct (MaxPool_Backward_gradient_mass
              (MaxPool.new (T := int64) [2] [2] [0] false)
              (tensor1 [1; 2; 3; 4]) (tensor1 [10; 20])
              eq_refl eq_refl eq_refl eq_refl)
    as (gx & Hrun & _ & Hwf & Hsum & _ & Hwin).
  exists gx. split; [exact Hrun |]. split; [exact Hwf |].
  split; [exact Hsum |].
  destruct (Hwin 0 0 [1] eq_refl) as [_ Hw]. exact Hw.
Defined.

(* ------------------------------------------------------------------ *)
(** ** C6: the effective window widths of ignore mode *)

Lemma GetConvOutDim_no_cover (d k s p : Z) :
  GetConvOutDim d k s p false = (d + 2 * p - k) / s + 1.
Proof. unfold GetConvOutDim. cbn [andb]. lia. Qed.

Lemma out_position_bound (d k s p i : Z) :
  0 < s -> 0 <= i < GetConvOutDim d k s p false -> i * s <= d + 2 * p - k.
Proof.
  intros Hs Hi. rewrite GetConvOutDim_no_cover in Hi.
  pose proof (Z.mul_div_le (d + 2 * p - k) s Hs). nia.
Qed.

(** With [pad <= kernel_size] the width is the width with both ends
    clamped, and it is not negative. *)
Lemma pool_width_clamped (d k s p i : Z) :
  0 < s -> 0 <= d -> 0 <= p <= k ->
  0 <= i < GetConvOutDim d k s p false ->
  pool_width d k s p i = clamped_width d k s p i /\ 0 <= pool_width d k s p i.
Proof.
  intros Hs Hd Hp Hi. pose proof (out_position_bound d k s p i Hs Hi) as Hb.
  unfold pool_width, clamped_width, clamp. split; nia.
Qed.

(** With [pad < kernel_size] no window of a non-empty axis lies wholly
    outside it: the width is positive. *)
Lemma pool_width_positive (d k s p i : Z) :
  0 < s -> 0 < d -> 0 <= p < k ->
  0 <= i < GetConvOutDim d k s p false ->
  0 < pool_width d k s p i.
Proof.
  intros Hs Hd Hp Hi. pose proof (out_position_bound d k s p i Hs Hi) as Hb.
  unfold pool_width. nia.
Qed.

Lemma consec_one (s : Z) : consec s 1 = [s].
Proof. unfold consec. change (zrange 1) with [0]. cbn [map]. f_equal. lia. Qed.

Lemma Forall_znth {A : Type} (P : A -> Prop) (l : list A) (i : Z) (d : A) :
  Forall P l -> 0 <= i < Z.of_nat (length l) -> P (znth i l d).
Proof.
  intros H Hi. rewrite Forall_forall in H. apply H. now apply znth_In.
Qed.

Lemma znth_conv_out_dims (dims ks st pad : list Z) (cover_all : bool) (a : Z) :
  length dims = length ks -> length st = length ks -> length pad = length ks ->
  0 <= a < Z.of_nat (length ks) ->
  znth a (conv_out_dims dims ks st pad cover_all) 0 =
  GetConvOutDim (znth a dims 0) (znth a ks 0) (znth a st 0) (znth a pad 0)
    cover_all.
Proof.
  revert dims st pad a.
  induction ks as [| k ks IH]; intros dims st pad a H1 H2 H3 Ha;
    destruct dims as [| d dims]; destruct st as [| s st];
    destruct pad as [| p pad]; simpl in H1, H2, H3, Ha; try lia.
  cbn [conv_out_dims]. destruct (Z.eq_dec a 0) as [-> | Hne]; [reflexivity |].
  rewrite !(znth_cons a) by lia. apply IH; lia.
Qed.

Lemma axes_within_znth (bound : Z) (dims ks st pad : list Z) (a : Z) :
  axes_within bound dims ks st pad = true ->
  length dims = length ks -> length st = length ks -> length pad = length ks ->
  0 <= a < Z.of_nat (length ks) ->
  znth a dims 0 + znth a ks 0 + znth a pad 0
  + GetConvOutDim (znth a dims 0) (znth a ks 0) (znth a st 0) (znth a pad 0)
      false * znth a st 0 <= bound.
Proof.
  revert dims st pad a.
  induction ks as [| k ks IH]; intros dims st pad a Hw H1 H2 H3 Ha;
    destruct dims as [| d dims]; destruct st as [| s st];
    destruct pad as [| p pad]; simpl in H1, H2, H3, Ha; try lia.
  cbn [axes_within] in Hw. apply andb_prop in Hw. destruct Hw as [Hw0 Hw].
  destruct (Z.eq_dec a 0) as [-> | Hne].
  - change (znth 0 (d :: dims) 0) with d. change (znth 0 (k :: ks) 0) with k.
    change (znth 0 (s :: st) 0) with s. change (znth 0 (p :: pad) 0) with p.
    lia.
  - rewrite !(znth_cons a) by lia. apply IH; try assumption; lia.
Qed.

Lemma pool_widths_nil (dims ks st pad : list Z) :
  pool_widths dims ks st pad [] = [].
Proof. destruct dims, ks, st, pad; reflexivity. Qed.

Lemma pool_widths_snoc (dims ks st pad ia : list Z) (o : Z) :
  length dims = length ks -> length st = length ks -> length pad = length ks ->
  (length ia < length ks)%nat ->
  let m := Z.of_nat (length ia) in
  pool_widths dims ks st pad (ia ++ [o]) =
  pool_widths dims ks st pad ia
    ++ [pool_width (znth m dims 0) (znth m ks 0) (znth m st 0) (znth m pad 0) o].
Proof.
  cbn zeta. revert dims st pad ia.
  induction ks as [| k ks IH]; intros dims st pad ia H1 H2 H3 Hl;
    destruct dims as [| d dims]; destruct st as [| s st];
    destruct pad as [| p pad]; simpl in H1, H2, H3, Hl; try lia.
  destruct ia as [| i ia].
  - cbn [app pool_widths length]. destruct ks, dims, st, pad; reflexivity.
  - cbn [app pool_widths length]. f_equal.
    rewrite !(znth_cons (Z.of_nat (S (length ia)))) by lia.
    replace (Z.of_nat (S (length ia)) - 1) with (Z.of_nat (length ia)) by lia.
    apply IH; simpl in Hl; lia.
Qed.

Lemma pool_widths_clamped (dims ks st pad oo : list Z) :
  length dims = length ks -> length st = length ks -> length pad = length ks ->
  nonneg dims -> Forall (fun s => 0 < s) st -> Forall (fun p => 0 <= p) pad ->
  pad_within_kernel ks pad = true ->
  inb (conv_out_dims dims ks st pad false) oo = true ->
  pool_widths dims ks st pad oo = clamped_widths dims ks st pad oo
  /\ Forall (fun w => 0 <= w) (pool_widths dims ks st pad oo).
Proof.
  revert dims st pad oo.
  induction ks as [| k ks IH]; intros dims st pad oo H1 H2 H3 Hd Hs Hp Hpk Hoo;
    destruct dims as [| d dims]; destruct st as [| s st];
    destruct pad as [| p pad]; simpl in H1, H2, H3; try lia.
  - split; [reflexivity | constructor].
  - cbn [conv_out_dims] in Hoo. destruct oo as [| o oo]; [discriminate Hoo |].
    apply inb_cons in Hoo. destruct Hoo as [Ho Hoo].
    cbn [pad_within_kernel] in Hpk. apply andb_prop in Hpk.
    destruct Hpk as [Hpk0 Hpk]. apply Z.leb_le in Hpk0.
    inversion Hd; subst. inversion Hs; subst. inversion Hp; subst.
    destruct (IH dims st pad oo) as [IH1 IH2]; try assumption; try lia.
    destruct (pool_width_clamped d k s p o) as [Hc Hn]; try assumption; try lia.
    cbn [pool_widths clamped_widths]. split.
    + now rewrite Hc, IH1.
    + now constructor.
Qed.

Lemma inb_snoc_inv (sh : Shape) (d : Z) (idx : list Z) :
  inb (sh ++ [d]) idx = true ->
  exists ia o, idx = ia ++ [o] /\ inb sh ia = true /\ 0 <= o < d.
Proof.
  revert idx. induction sh as [| e sh IH]; intros idx H.
  - destruct idx as [| o [| o' idx]]; cbn [app inb] in H;
      rewrite ?andb_false_r in H; try discriminate H.
    exists [], o. split; [reflexivity |]. split; [reflexivity |].
    rewrite andb_true_r in H. apply andb_prop in H. lia.
  - destruct idx as [| i idx]; [discriminate H |].
    cbn [app] in H. apply inb_cons in H. destruct H as [Hi H].
    destruct (IH idx H) as (ia & o & -> & Hia & Ho).
    exists (i :: ia), o. split; [reflexivity |]. split; [| exact Ho].
    apply inb_cons. now split.
Qed.

Lemma firstn_succ_znth (l : list Z) (m : nat) :
  (m < length l)%nat ->
  firstn (S m) l = firstn m l ++ [znth (Z.of_nat m) l 0].
Proof.
  revert m. induction l as [| a l IH]; intros m Hm; simpl in Hm; [lia |].
  destruct m as [| m]; [reflexivity |].
  cbn [firstn app]. f_equal. rewrite znth_cons by lia.
  replace (Z.of_nat (S m) - 1) with (Z.of_nat m) by lia.
  apply IH. lia.
Qed.

Lemma pool_widths_length (dims ks st pad oo : list Z) :
  length dims = length ks -> length st = length ks -> length pad = length ks ->
  (length oo <= length ks)%nat ->
  length (pool_widths dims ks st pad oo) = length oo.
Proof.
  revert dims st pad oo.
  induction ks as [| k ks IH]; intros dims st pad oo H1 H2 H3 Hl;
    destruct dims as [| d dims]; destruct st as [| s st];
    destruct pad as [| p pad]; destruct oo as [| o oo];
    simpl in H1, H2, H3, Hl; try lia; try reflexivity.
  cbn [pool_widths length]. f_equal. apply IH; lia.
Qed.

Lemma broadcast_index (sh : Shape) (idx : list Z) :
  inb sh idx = true ->
  map2 (fun d i => if d =? 1 then 0 else i) sh idx = idx.
Proof.
  revert idx. induction sh as [| d sh IH]; intros [| i idx] H;
    try discriminate H; [reflexivity |].
  apply inb_cons in H. destruct H as [Hi H]. cbn [map2].
  rewrite (IH idx H). f_equal.
  destruct (Z.eqb_spec d 1); lia.
Qed.

Lemma pool_widths_positive (dims ks st pad oo : list Z) :
  length dims = length ks -> length st = length ks -> length pad = length ks ->
  Forall (fun d => 0 < d) dims -> Forall (fun s => 0 < s) st ->
  Forall (fun p => 0 <= p) pad ->
  pad_below_kernel ks pad = true ->
  inb (conv_out_dims dims ks st pad false) oo = true ->
  Forall (fun w => 0 < w) (pool_widths dims ks st pad oo).
Proof.
  revert dims st pad oo.
  induction ks as [| k ks IH]; intros dims st pad oo H1 H2 H3 Hd Hs Hp Hpk Hoo;
    destruct dims as [| d dims]; destruct st as [| s st];
    destruct pad as [| p pad]; simpl in H1, H2, H3; try lia.
  - constructor.
  - cbn [conv_out_dims] in Hoo. destruct oo as [| o oo]; [discriminate Hoo |].
    apply inb_cons in Hoo. destruct Hoo as [Ho Hoo].
    cbn [pad_below_kernel] in Hpk. apply andb_prop in Hpk.
    destruct Hpk as [Hpk0 Hpk]. apply Z.ltb_lt in Hpk0.
    inversion Hd; subst. inversion Hs; subst. inversion Hp; subst.
    cbn [pool_widths]. constructor.
    + apply pool_width_positive; try assumption; lia.
    + apply IH; try assumption; lia.
Qed.

Lemma pool_width_upper (d k s p i : Z) :
  0 <= d -> pool_width d k s p i <= k /\ pool_width d k s p i <= d.
Proof. intros Hd. unfold pool_width. lia. Qed.

(** Every width is at most the kernel size of its axis. *)
Lemma pool_widths_upper (dims ks st pad oo : list Z) :
  length dims = length ks -> length st = length ks -> length pad = length ks ->
  length oo = length ks ->
  nonneg dims ->
  Forall2 (fun w k => w <= k) (pool_widths dims ks st pad oo) ks.
Proof.
  revert dims st pad oo.
  induction ks as [| k ks IH]; intros dims st pad oo H1 H2 H3 H4 Hd;
    destruct dims as [| d dims]; try discriminate H1;
    destruct st as [| s st]; try discriminate H2;
    destruct pad as [| p pad]; try discriminate H3;
    destruct oo as [| o oo]; try discriminate H4.
  - constructor.
  - inversion Hd; subst. cbn [length] in H1, H2, H3, H4.
    cbn [pool_widths]. constructor.
    + now apply pool_width_upper.
    + apply IH; try assumption; lia.
Qed.

Lemma GetTotalSize_le (ws ks : list Z) :
  Forall2 (fun w k => w <= k) ws ks -> Forall (fun w => 0 <= w) ws ->
  GetTotalSize ws <= GetTotalSize ks.
Proof.
  induction 1 as [| w k ws ks Hwk H2 IH]; intros Hw; [reflexivity |].
  inversion Hw; subst. rewrite !GetTotalSize_cons.
  pose proof (GetTotalSize_nonneg ws ltac:(assumption)).
  specialize (IH ltac:(assumption)). nia.
Qed.

Section IgnoreWidths.

Context {T : Type} {E : Element T} {bound : Z} {X : ElementExact T bound}.

(** [Impl] computes [pool_width] when the integers it meets are within the
    bound. *)
Lemma Impl_exact (d k s p i : Z) (w : T) :
  0 <= i -> 0 < s -> 0 <= p -> 0 < k -> 0 <= d ->
  d + k + p + (i + 1) * s <= bound ->
  Impl (t_cast d) (t_cast k) (t_cast s) (t_cast p) i w =
  t_cast (pool_width d k s p i).
Proof.
  intros Hi Hs Hp Hk Hd Hb. unfold Impl, pool_width.
  assert (His : 0 <= i * s) by nia.
  rewrite cast_mul by nia.
  rewrite cast_sub by nia.
  rewrite cast_add by nia.
  rewrite !cast_lt by nia.
  destruct (Z.ltb_spec (i * s - p) 0) as [H1 | H1];
    destruct (Z.ltb_spec d (i * s - p + k)) as [H2 | H2].
  - rewrite cast_sub by nia. f_equal. lia.
  - rewrite cast_sub by nia. f_equal. lia.
  - rewrite cast_sub by nia. f_equal. lia.
  - rewrite cast_sub by nia. f_equal. lia.
Qed.

(** The width vector of one axis. *)
Lemma width_vector (impl : Z -> T -> T) (out : Z) (o : Z) :
  0 <= o < out ->
  let width := Elementwise impl (Empty [out]) in
  shape width = [out]
  /\ Z.of_nat (length (data width)) = out
  /\ znth o (data width) (t_cast 0) = impl o (t_cast 0).
Proof.
  intros Ho. cbn zeta. unfold Elementwise, Empty, Zeros. cbn [shape data].
  unfold GetTotalSize. cbn [fold_right]. rewrite Z.mul_1_r, repeat_length.
  split; [reflexivity |]. split.
  - rewrite map2_length, zrange_length, repeat_length. lia.
  - rewrite znth_map2 with (da := 0) (db := t_cast 0)
      by (rewrite ?zrange_length, ?repeat_length; lia).
    rewrite znth_zrange by lia. f_equal.
    rewrite znth_nth by lia. apply nth_repeat.
Qed.

Lemma width_vector_shape (impl : Z -> T -> T) (out : Z) :
  0 <= out ->
  shape (Elementwise impl (Empty [out])) = [out]
  /\ Z.of_nat (length (data (Elementwise impl (Empty (T := T) [out])))) = out.
Proof.
  intros Ho. unfold Elementwise, Empty, Zeros. cbn [shape data].
  unfold GetTotalSize. cbn [fold_right]. rewrite Z.mul_1_r, repeat_length.
  split; [reflexivity |].
  rewrite map2_length, zrange_length, repeat_length. lia.
Qed.

(** One outer product: the running tensor times the width vector of the
    next axis. *)
Lemma TensorDot_outer (w width : Array T) (out : Z) (d : T) (ia : list Z)
    (o : Z) :
  shape width = [out] ->
  inb (shape w) ia = true -> 0 <= o < out ->
  let r := TensorDot (Reshape w (shape w ++ [1])) (Reshape width (1 :: shape width))
             [ndim w] [0] in
  shape r = shape w ++ [out]
  /\ At d r (ia ++ [o]) =
     t_mul (At (t_cast 0) w ia) (znth o (data width) (t_cast 0)).
Proof.
  intros Hwidth Hia Ho. cbn zeta. unfold TensorDot, ndim.
  cbn [shape Reshape]. rewrite Hwidth.
  pose proof (drop_axes_block (shape w) [1] []) as Hd1.
  pose proof (axes_dims_block (shape w) [1] []) as Ha1.
  cbn [app length] in Hd1, Ha1. rewrite (app_nil_r (shape w)) in Hd1.
  rewrite consec_one in Hd1, Ha1. rewrite Hd1, Ha1.
  change (drop_axes [1; out] [0]) with [out].
  rewrite shape_tabulate. split; [reflexivity |].
  pose proof (inb_length _ _ Hia) as Hl.
  rewrite At_tabulate
    by (rewrite inb_app by exact Hl; rewrite Hia; apply inb_cons; now split).
  rewrite firstn_app, <- Hl, firstn_all, Nat.sub_diag. cbn [firstn].
  rewrite app_nil_r.
  rewrite skipn_app, skipn_all, Nat.sub_diag. cbn [skipn app].
  change (all_indices [1]) with [[0]]. cbn [map fold_left].
  rewrite add_zero_l. f_equal.
  - rewrite length_app. cbn [length].
    pose proof (expand_index_block ia [0] []) as He.
    cbn [app length] in He. rewrite (app_nil_r ia) in He.
    rewrite consec_one, Nat.add_0_r, Hl in He. rewrite ?Hl. rewrite He.
    rewrite At_Reshape. unfold At. f_equal.
    rewrite ravel_app by exact Hl. cbn. lia.
  - rewrite At_Reshape.
    cbn [length expand_index expand_from lookup_axis Z.eqb].
    f_equal. cbn. lia.
Qed.

Lemma t_product_snoc (l : list Z) (v : Z) :
  l <> [] -> t_product (T := T) (l ++ [v]) = t_mul (t_product l) (t_cast v).
Proof.
  destruct l as [| a l]; [congruence | intros _].
  cbn [app t_product]. now rewrite fold_left_app.
Qed.

(** The loop of [GetPadModeIgnorePoolingWidths] after [m] axes: the outer
    product of the width vectors of these axes. *)
Lemma widths_loop (b c : Z) (dims ks st pad : list Z) (m : nat) :
  length dims = length ks -> length st = length ks -> length pad = length ks ->
  nonneg dims ->
  Forall (fun k => 0 < k) ks ->
  Forall (fun s => 0 < s) st ->
  Forall (fun p => 0 <= p) pad ->
  nonneg (conv_out_dims dims ks st pad false) ->
  axes_within bound dims ks st pad = true ->
  (S m <= length ks)%nat ->
  exists w,
    fold_left
      (fun acc i =>
         match acc with
         | Ok widths => widths_step (b :: c :: dims) ks st pad widths i
         | Throw e => Throw e
         end)
      (zrange (Z.of_nat (S m))) (Ok None) = Ok (Some w)
    /\ shape w = firstn (S m) (conv_out_dims dims ks st pad false)
    /\ forall oo,
         inb (shape w) oo = true ->
         At (t_cast 0) w oo = t_product (pool_widths dims ks st pad oo).
Proof.
  intros H1 H2 H3 Hd Hk Hs Hp Ho Hw.
  set (outs := conv_out_dims dims ks st pad false) in *.
  assert (Hlo : length outs = length ks) by (now apply conv_out_dims_length).
  assert (Haxis : forall a o,
             0 <= a < Z.of_nat (length ks) ->
             0 <= o < znth a outs 0 ->
             Impl (t_cast (znth a dims 0)) (t_cast (znth a ks 0))
               (t_cast (znth a st 0)) (t_cast (znth a pad 0)) o (t_cast 0) =
             t_cast (pool_width (znth a dims 0) (znth a ks 0) (znth a st 0)
                       (znth a pad 0) o)).
  { intros a o Ha Hoa. unfold outs in Hoa.
    rewrite znth_conv_out_dims in Hoa by assumption.
    pose proof (axes_within_znth bound dims ks st pad a Hw H1 H2 H3 Ha) as Hb.
    pose proof (Forall_znth _ dims a 0 Hd ltac:(lia)) as Hda.
    pose proof (Forall_znth _ ks a 0 Hk ltac:(lia)) as Hka.
    pose proof (Forall_znth _ st a 0 Hs ltac:(lia)) as Hsa.
    pose proof (Forall_znth _ pad a 0 Hp ltac:(lia)) as Hpa.
    cbv beta in Hda, Hka, Hsa, Hpa.
    apply Impl_exact; try lia. nia. }
  assert (Hstep : forall a,
             0 <= a < Z.of_nat (length ks) ->
             GetConvOutDim (znth (2 + a) (b :: c :: dims) 0) (znth a ks 0)
               (znth a st 0) (znth a pad 0) false = znth a outs 0
             /\ znth (2 + a) (b :: c :: dims) 0 = znth a dims 0
             /\ 0 <= znth a outs 0).
  { intros a Ha. rewrite znth_cons by lia. rewrite znth_cons by lia.
    replace (2 + a - 1 - 1) with a by lia. unfold outs.
    rewrite znth_conv_out_dims by assumption. split; [reflexivity |].
    split; [reflexivity |].
    rewrite <- (znth_conv_out_dims dims ks st pad false a) by assumption.
    apply (Forall_znth (fun d => 0 <= d)); [exact Ho | fold outs; lia]. }
  induction m as [| m IH]; intros Hm.
  - change (zrange (Z.of_nat 1)) with [0]. cbn [fold_left].
    unfold widths_step. change (0 =? 0) with true. cbv iota.
    destruct (Hstep 0 ltac:(lia)) as (Hout & Hdim & Hnn).
    rewrite Hout, Hdim.
    destruct (width_vector_shape
                (Impl (t_cast (znth 0 dims 0)) (t_cast (znth 0 ks 0))
                   (t_cast (znth 0 st 0)) (t_cast (znth 0 pad 0)))
                (znth 0 outs 0) Hnn) as [Hsh Hlen].
    eexists. split; [reflexivity |].
    assert (Hf : firstn 1 outs = [znth 0 outs 0]).
    { rewrite firstn_succ_znth by lia. reflexivity. }
    split; [now rewrite Hsh, Hf |].
    intros oo Hoo. rewrite Hsh in Hoo.
    destruct oo as [| o [| o' oo]]; cbn [inb] in Hoo;
      rewrite ?andb_false_r in Hoo; try discriminate Hoo.
    rewrite andb_true_r in Hoo. apply andb_prop in Hoo.
    assert (Ho' : 0 <= o < znth 0 outs 0) by lia.
    destruct (width_vector
                (Impl (t_cast (znth 0 dims 0)) (t_cast (znth 0 ks 0))
                   (t_cast (znth 0 st 0)) (t_cast (znth 0 pad 0)))
                (znth 0 outs 0) o Ho') as (_ & _ & Hz).
    unfold At. rewrite Hsh. cbn [ravel].
    replace (o * GetTotalSize [] + 0) with o by (cbn; lia).
    rewrite Hz, Haxis by lia.
    destruct dims as [| d0 dims], ks as [| k0 ks], st as [| s0 st],
      pad as [| p0 pad]; simpl in H1, H2, H3, Hm; try lia.
    cbn [pool_widths]. rewrite pool_widths_nil. reflexivity.
  - destruct (IH ltac:(lia)) as (w & Hfold & Hshape & Hat). clear IH.
    replace (Z.of_nat (S (S m))) with (Z.of_nat (S m) + 1) by lia.
    rewrite zrange_succ, fold_left_app by lia. rewrite Hfold. cbn [fold_left].
    unfold widths_step.
    destruct (Z.eqb_spec (Z.of_nat (S m)) 0) as [H0 | _]; [lia |].
    destruct (Hstep (Z.of_nat (S m)) ltac:(lia)) as (Hout & Hdim & Hnn).
    rewrite Hout, Hdim.
    set (impl := Impl (t_cast (znth (Z.of_nat (S m)) dims 0))
                   (t_cast (znth (Z.of_nat (S m)) ks 0))
                   (t_cast (znth (Z.of_nat (S m)) st 0))
                   (t_cast (znth (Z.of_nat (S m)) pad 0))).
    set (out := znth (Z.of_nat (S m)) outs 0) in *.
    destruct (width_vector_shape impl out Hnn) as [Hsh Hlen].
    eexists. split; [reflexivity |].
    assert (Hshape' :
              shape (TensorDot (Reshape w (shape w ++ [1]))
                       (Reshape (Elementwise impl (Empty [out]))
                          (1 :: shape (Elementwise impl (Empty (T := T) [out]))))
                       [ndim w] [0]) =
              firstn (S (S m)) outs).
    { unfold TensorDot, ndim. rewrite shape_tabulate. cbn [shape Reshape].
      rewrite Hsh.
      pose proof (drop_axes_block (shape w) [1] []) as Hd1.
      cbn [app length] in Hd1. rewrite (app_nil_r (shape w)) in Hd1.
      rewrite consec_one in Hd1. rewrite Hd1.
      change (drop_axes [1; out] [0]) with [out].
      rewrite Hshape. symmetry. apply firstn_succ_znth. lia. }
    split; [exact Hshape' |].
    intros oo Hoo. rewrite Hshape' in Hoo.
    rewrite firstn_succ_znth in Hoo by lia. fold out in Hoo.
    destruct (inb_snoc_inv _ _ _ Hoo) as (ia & o & -> & Hia & Ho').
    rewrite <- Hshape in Hia.
    destruct (TensorDot_outer w (Elementwise impl (Empty [out])) out (t_cast 0)
                ia o Hsh Hia Ho') as [_ ->].
    destruct (width_vector impl out o Ho') as (_ & _ & ->).
    rewrite (Hat ia Hia). unfold impl, out.
    rewrite Haxis by (fold out; lia).
    pose proof (inb_length _ _ Hia) as Hlia.
    rewrite Hshape, length_firstn in Hlia.
    assert (Hlia' : length ia = S m) by lia.
    rewrite pool_widths_snoc by lia. cbn zeta. rewrite Hlia'.
    symmetry. apply t_product_snoc.
    intros Hnil. apply (f_equal (@length Z)) in Hnil.
    rewrite pool_widths_length in Hnil by lia. simpl in Hnil. lia.
Qed.

End IgnoreWidths.

Section IgnoreMode.

Context {T : Type} {E : Element T} {bound : Z} {X : ElementExact T bound}.

(** [GetPadModeIgnorePoolingWidths] on a valid shape with at least one
    spatial axis: the tensor of the shape of the output's spatial axes that
    holds, at every position, the product of the per-axis widths. *)
Lemma GetPadModeIgnorePoolingWidths_run (sh : Shape) (ks st pad : list Z) :
  valid_pool sh ks st pad false = true ->
  ks <> [] ->
  axes_within bound (skipn 2 sh) ks st pad = true ->
  let dims := skipn 2 sh in
  let outs := conv_out_dims dims ks st pad false in
  exists widths,
    GetPadModeIgnorePoolingWidths sh ks st pad = Ok (Some widths)
    /\ shape widths = outs
    /\ forall oo,
         inb outs oo = true ->
         At (t_cast 0) widths oo = t_product (pool_widths dims ks st pad oo).
Proof.
  intros Hvalid Hne Hw dims outs.
  destruct (valid_pool_spec _ _ _ _ _ Hvalid)
    as (b & c & dims' & Hx & Hb & Hc & Hdims & Hld & Hlst & Hlpad & Hks & Hst
        & Hpad & Houts).
  assert (Hd' : dims = dims') by (unfold dims; now rewrite Hx). subst dims'.
  fold outs in Houts.
  assert (Hm : exists m, length ks = S m).
  { destruct ks as [| k0 ks0]; [congruence |]. now exists (length ks0). }
  destruct Hm as [m Hn].
  destruct (widths_loop b c dims ks st pad m Hld Hlst Hlpad Hdims
              Hks Hst Hpad Houts Hw ltac:(lia)) as (w & Hfold & Hshape & Hat).
  exists w. unfold GetPadModeIgnorePoolingWidths.
  rewrite Hx. cbn [length].
  replace (Z.of_nat (S (S (length dims))) - 2) with (Z.of_nat (length ks)) by lia.
  rewrite Hlst, Hlpad, !Z.eqb_refl. cbn [andb negb].
  rewrite Hn. rewrite Hfold. split; [reflexivity |].
  assert (Hso : shape w = outs).
  { rewrite Hshape. fold outs. apply firstn_all2.
    unfold outs. rewrite conv_out_dims_length by assumption. lia. }
  split; [exact Hso |]. intros oo Hoo. apply Hat. now rewrite Hso.
Qed.

Lemma fold_product_cast (ws ks : list Z) (a A : Z) :
  Forall2 (fun w k => w <= k) ws ks ->
  Forall (fun w => 0 <= w) ws ->
  Forall (fun k => 0 < k) ks ->
  0 <= a <= A -> 0 < A -> A * GetTotalSize ks <= bound ->
  fold_left (fun acc v => t_mul acc (t_cast v)) ws (t_cast (T := T) a) =
  t_cast (a * GetTotalSize ws).
Proof.
  intros H2. revert a A.
  induction H2 as [| w k ws ks Hwk H2 IH]; intros a A Hw Hk Ha HA Hb.
  - cbn [fold_left]. f_equal. cbn. lia.
  - inversion Hw as [| ? ? Hw0 Hw']; subst.
    inversion Hk as [| ? ? Hk0 Hk']; subst.
    pose proof (GetTotalSize_pos ks Hk') as Hpos.
    rewrite GetTotalSize_cons in Hb.
    assert (HAk : A * k <= bound) by nia.
    assert (Haw : 0 <= a * w <= A * k) by nia.
    assert (Hab : a <= bound) by nia.
    assert (Hwb : w <= bound) by nia.
    cbn [fold_left]. rewrite cast_mul by lia.
    rewrite (IH (a * w) (A * k)); try assumption; try nia.
    f_equal. rewrite GetTotalSize_cons. ring.
Qed.

Lemma t_product_widths (ws ks : list Z) :
  Forall2 (fun w k => w <= k) ws ks ->
  Forall (fun w => 0 <= w) ws ->
  Forall (fun k => 0 < k) ks ->
  GetTotalSize ks <= bound ->
  ws <> [] ->
  t_product (T := T) ws = t_cast (GetTotalSize ws).
Proof.
  intros H2 Hw Hk Hb Hne.
  destruct H2 as [| w k ws ks Hwk H2]; [congruence |].
  inversion Hw; subst. inversion Hk; subst.
  cbn [t_product]. rewrite GetTotalSize_cons in *.
  apply (fold_product_cast ws ks w k); try assumption; lia.
Qed.

(** Where the pad is below the kernel size and no axis is empty, the
    product of the widths of an output position is positive, within the
    kernel volume, and exact and positive in the element type. *)
Lemma widths_product_positive (dims ks st pad oo : list Z) :
  length dims = length ks -> length st = length ks -> length pad = length ks ->
  Forall (fun d => 0 < d) dims ->
  Forall (fun k => 0 < k) ks ->
  Forall (fun s => 0 < s) st ->
  Forall (fun p => 0 <= p) pad ->
  ks <> [] ->
  pad_below_kernel ks pad = true ->
  GetTotalSize ks <= bound ->
  inb (conv_out_dims dims ks st pad false) oo = true ->
  let n := GetTotalSize (pool_widths dims ks st pad oo) in
  t_product (T := T) (pool_widths dims ks st pad oo) = t_cast n
  /\ 0 < n <= GetTotalSize ks
  /\ t_lt (t_cast (T := T) 0) (t_cast n) = true.
Proof.
  intros Hld Hlst Hlpad Hdpos Hks Hst Hpad Hne Hpk Hvol Hoo n.
  assert (Hloo : length oo = length ks).
  { apply inb_length in Hoo.
    rewrite conv_out_dims_length in Hoo by assumption. exact Hoo. }
  pose proof (pool_widths_positive dims ks st pad oo Hld Hlst Hlpad Hdpos Hst
                Hpad Hpk Hoo) as Hpos.
  assert (Hnn : Forall (fun w => 0 <= w) (pool_widths dims ks st pad oo)).
  { eapply Forall_impl; [| exact Hpos]. cbv beta. intros. lia. }
  assert (Hdn : nonneg dims).
  { eapply Forall_impl; [| exact Hdpos]. cbv beta. intros. lia. }
  pose proof (pool_widths_upper dims ks st pad oo Hld Hlst Hlpad Hloo Hdn)
    as Hup.
  assert (Hn : 0 < n <= GetTotalSize ks).
  { split; [now apply GetTotalSize_pos | now apply GetTotalSize_le]. }
  split.
  { apply (t_product_widths _ ks); try assumption.
    intros Hnil. apply (f_equal (@length Z)) in Hnil.
    rewrite pool_widths_length in Hnil by (assumption || lia).
    destruct ks; [congruence |]. cbn [length] in *. lia. }
  split; [exact Hn |].
  rewrite cast_lt by lia. apply Z.ltb_lt. lia.
Qed.

(** [Forward] in ignore mode, given the widths tensor and that every
    divisor is positive: every output position is the sum of its window
    divided by the entry of the widths tensor. *)
Lemma ignore_forward_run
    (self : AveragePool.NativeAveragePoolForwardBackward) (x widths : Array T) :
  AveragePool.pad_mode_ self = kIgnore ->
  valid_pool (shape x) (AveragePool.kernel_size_ self)
    (AveragePool.stride_ self) (AveragePool.pad_ self) false = true ->
  let ks := AveragePool.kernel_size_ self in
  let st := AveragePool.stride_ self in
  let pad := AveragePool.pad_ self in
  let outs := conv_out_dims (skipn 2 (shape x)) ks st pad false in
  GetPadModeIgnorePoolingWidths (shape x) ks st pad = Ok (Some widths) ->
  shape widths = outs ->
  (forall oo,
      inb outs oo = true ->
      t_lt (t_cast 0) (At (t_cast 0) widths oo) = true) ->
  exists out,
    AveragePool.Forward x self = (Ok out, self)
    /\ shape out = pooled_shape (shape x) ks st pad false
    /\ wf out = true
    /\ forall bi ci oo,
         inb (shape out) (bi :: ci :: oo) = true ->
         At (t_cast 0) out (bi :: ci :: oo) =
         t_div
           (fold_left t_add (window_elems x ks st pad (t_cast 0) bi ci oo)
              (t_cast 0))
           (At (t_cast 0) widths oo).
Proof.
  intros Hmode Hvalid ks st pad outs0 Hrun Hshw _.
  destruct (valid_pool_spec _ _ _ _ _ Hvalid)
    as (b & c & dims & Hx & Hb & Hc & Hdims & Hld & Hlst & Hlpad & Hks & Hst
        & Hpad & Houts).
  fold ks st pad in Hld, Hlst, Hlpad, Hks, Hst, Hpad, Houts.
  unfold outs0 in Hshw. rewrite Hx in Hshw. cbn [skipn] in Hshw.
  clear outs0.
  set (outs := conv_out_dims dims ks st pad false) in *.
  pose proof (nonneg_pos _ Hks) as Hks0.
  unfold AveragePool.Forward, bind, get, lift, deref, ret. rewrite Hmode.
  fold ks st pad. rewrite Hrun. rewrite iota_resize.
  set (col := Im2Col x ks st pad false (t_cast 0)).
  set (axes := consec 2 (Z.of_nat (length ks))).
  assert (Hsh : shape (EmptyReduced (T := T) (shape col) axes) =
                b :: c :: outs).
  { unfold col, axes. rewrite shape_EmptyReduced_Im2Col
      by (rewrite Hx; cbn [length]; lia).
    unfold pooled_shape. now rewrite Hx. }
  eexists. split; [reflexivity |]. fold col axes. unfold Divide, Sum.
  cbn [shape]. rewrite !shape_tabulate, Hsh.
  split; [unfold pooled_shape; now rewrite Hx |].
  split.
  { apply wf_spec. cbn [shape data]. split.
    - repeat constructor; assumption.
    - rewrite map2_length. unfold BroadcastTo. rewrite !tabulate_length.
      pose proof (GetTotalSize_nonneg (b :: c :: outs)
                    ltac:(repeat constructor; assumption)). lia. }
  intros bi ci oo Hin. pose proof Hin as Hin'.
  apply inb_cons in Hin. destruct Hin as [Hbi Hin].
  apply inb_cons in Hin. destruct Hin as [Hci Hoo].
  pose proof (inb_ravel_range _ _ Hin') as Hr.
  unfold At at 1. cbn [shape data].
  rewrite znth_map2 with (da := t_cast 0) (db := t_cast 0)
    by (unfold BroadcastTo; rewrite tabulate_length; lia).
  f_equal.
  - pose proof (At_Sum_Im2Col x ks st pad false (t_cast 0) (t_cast 0)
                  (EmptyReduced (shape col) axes) b c dims bi ci oo
                  Hx Hsh Hks0 Hbi Hci Hoo) as HS.
    unfold At, Sum in HS. cbn [shape] in HS. rewrite Hsh in HS. exact HS.
  - unfold BroadcastTo. rewrite znth_tabulate by exact Hr.
    rewrite (unravel_ravel _ _ Hin'). rewrite Hshw. cbn [length].
    replace (S (S (length outs)) - length outs)%nat with 2%nat by lia.
    cbn [skipn]. now rewrite (broadcast_index _ _ Hoo).
Qed.

(** C6, as amended: in ignore mode, for an element type that represents and
    computes exactly the integers involved, for each spatial axis and each
    output position [i] the width is [min(i*stride - pad + kernel_size, dim)
    - max(i*stride - pad, 0)]: the end of the window is cut at [dim] and its
    start at [0].  When [pad <= kernel_size] on every axis this is the width
    with both ends clamped to [[0, dim]] and it is not negative; when
    [pad < kernel_size] and no axis is empty it is positive.  The per-axis
    width vectors are combined over the axes by successive outer products
    into the tensor of the output's spatial shape.  When [pad <
    kernel_size], no axis is empty and the kernel volume is within the exact
    range, every entry of that tensor is the product of the per-axis
    widths, positive and at most the kernel volume, and every output
    position of [Forward] is its window sum divided by that entry. *)
Theorem AveragePool_Forward_ignore_mode
    (self : AveragePool.NativeAveragePoolForwardBackward) (x : Array T) :
  AveragePool.pad_mode_ self = kIgnore ->
  valid_pool (shape x) (AveragePool.kernel_size_ self)
    (AveragePool.stride_ self) (AveragePool.pad_ self) false = true ->
  AveragePool.kernel_size_ self <> [] ->
  axes_within bound (skipn 2 (shape x)) (AveragePool.kernel_size_ self)
    (AveragePool.stride_ self) (AveragePool.pad_ self) = true ->
  let ks := AveragePool.kernel_size_ self in
  let st := AveragePool.stride_ self in
  let pad := AveragePool.pad_ self in
  let dims := skipn 2 (shape x) in
  let outs := conv_out_dims dims ks st pad false in
  exists widths,
    GetPadModeIgnorePoolingWidths (shape x) ks st pad = Ok (Some widths)
    /\ shape widths = outs
    /\ (forall oo,
           inb outs oo = true ->
           At (t_cast 0) widths oo = t_product (pool_widths dims ks st pad oo))
    /\ (pad_within_kernel ks pad = true ->
        forall oo,
          inb outs oo = true ->
          pool_widths dims ks st pad oo = clamped_widths dims ks st pad oo
          /\ Forall (fun w => 0 <= w) (pool_widths dims ks st pad oo))
    /\ (pad_below_kernel ks pad = true ->
        Forall (fun d => 0 < d) dims ->
        (forall oo,
            inb outs oo = true ->
            Forall (fun w => 0 < w) (pool_widths dims ks st pad oo))
        /\ (GetTotalSize ks <= bound ->
            (forall oo,
                inb outs oo = true ->
                let n := GetTotalSize (pool_widths dims ks st pad oo) in
                At (t_cast 0) widths oo = t_cast n
                /\ 0 < n <= GetTotalSize ks
                /\ t_lt (t_cast 0) (At (t_cast 0) widths oo) = true)
            /\ exists out,
                 fst (AveragePool.Forward x self) = Ok out
                 /\ shape out = pooled_shape (shape x) ks st pad false
                 /\ forall bi ci oo,
                      inb (shape out) (bi :: ci :: oo) = true ->
                      At (t_cast 0) out (bi :: ci :: oo) =
                      t_div
                        (fold_left t_add
                           (window_elems x ks st pad (t_cast 0) bi ci oo)
                           (t_cast 0))
                        (At (t_cast 0) widths oo))).
Proof.
  intros Hmode Hvalid Hne Hw ks st pad dims outs.
  destruct (GetPadModeIgnorePoolingWidths_run (shape x) ks st pad Hvalid Hne Hw)
    as (widths & Hrun & Hshw & Hatw).
  fold dims outs in Hshw, Hatw.
  destruct (valid_pool_spec _ _ _ _ _ Hvalid)
    as (b & c & dims' & Hx & Hb & Hc & Hdims & Hld & Hlst & Hlpad & Hks & Hst
        & Hpad & Houts).
  fold ks st pad in Hld, Hlst, Hlpad, Hks, Hst, Hpad, Houts.
  assert (Hd' : dims = dims') by (unfold dims; now rewrite Hx). subst dims'.
  fold outs in Houts.
  exists widths. split; [exact Hrun |]. split; [exact Hshw |].
  split; [exact Hatw |]. split.
  { intros Hpk oo Hoo. now apply pool_widths_clamped. }
  intros Hpk Hdpos. split.
  { intros oo Hoo. now apply pool_widths_positive. }
  intros Hvol.
  assert (Hent : forall oo,
             inb outs oo = true ->
             let n := GetTotalSize (pool_widths dims ks st pad oo) in
             At (t_cast 0) widths oo = t_cast n
             /\ 0 < n <= GetTotalSize ks
             /\ t_lt (t_cast 0) (At (t_cast 0) widths oo) = true).
  { intros oo Hoo n.
    destruct (widths_product_positive dims ks st pad oo Hld Hlst Hlpad Hdpos
                Hks Hst Hpad Hne Hpk Hvol Hoo) as (Hprod & Hn & Hlt).
    fold n in Hprod, Hn, Hlt.
    assert (Hcast : At (t_cast 0) widths oo = t_cast n)
      by (now rewrite (Hatw oo Hoo)).
    split; [exact Hcast |]. split; [exact Hn |]. now rewrite Hcast. }
  split; [exact Hent |].
  destruct (ignore_forward_run self x widths Hmode Hvalid Hrun Hshw)
    as (out & Hfw & Hso & _ & Hat).
  { intros oo Hoo. now apply Hent. }
  exists out. split; [now rewrite Hfw |]. split; [exact Hso | exact Hat].
Qed.

End IgnoreMode.

Lemma AveragePool_Forward_ignore_mode_witness :
  let x := tensor1 [2; 4; 6; 8] in
  let self := AveragePool.mkAveragePool [2] [2] [1] kIgnore in
  valid_pool (shape x) [2] [2] [1] false = true
  /\ axes_within (2 ^ 63 - 1) (skipn 2 (shape x)) [2] [2] [1] = true
  /\ pad_below_kernel [2] [1] = true
  /\ fst (AveragePool.Forward x self) = Ok (tensor1 [2; 5; 8])
  /\ exists widths out,
       GetPadModeIgnorePoolingWidths (shape x) [2] [2] [1] = Ok (Some widths)
       /\ shape widths = [3]
       /\ fst (AveragePool.Forward x self) = Ok out
       /\ shape out = [1; 1; 3].
Proof.
  cbn zeta. split; [reflexivity |]. split; [reflexivity |].
  split; [reflexivity |]. split; [vm_compute; reflexivity |].
  destruct (AveragePool_Forward_ignore_mode
              (AveragePool.mkAveragePool [2] [2] [1] kIgnore)
              (tensor1 [2; 4; 6; 8]) eq_refl eq_refl
              ltac:(discriminate) eq_refl)
    as (widths & Hrun & Hshw & _ & _ & Hpos).
  destruct (Hpos eq_refl ltac:(repeat constructor; lia)) as [_ Hfw].
  destruct (Hfw ltac:(cbn; lia)) as (_ & out & Hout & Hshape & _).
  exists widths, out.
  split; [exact Hrun |]. split; [exact Hshw |].
  split; [exact Hout | exact Hshape].
Defined.

(** C6 as stated fails on the width.  The code cuts the end of the window
    only at [dim] and its start only at [0].  With extent 1, kernel 1,
    stride 1 and pad 2 the window of output position 0 covers [-2, -1): the
    code's width is [-1 - 0 = -1], negative, where the two-sided clamp gives
    0.  And with pad 1 the window of position 0 covers [-1, 0), wholly
    outside the input, at a valid output position: its width is 0. *)
Lemma GetPadModeIgnorePoolingWidths_negative_width :
  valid_pool [1; 1; 1] [1] [1] [2] false = true
  /\ GetPadModeIgnorePoolingWidths (T := int64) [1; 1; 1] [1] [1] [2]
     = Ok (Some (mkArray [5] [i64 (-1); i64 0; i64 1; i64 0; i64 (-1)]))
  /\ pool_width 1 1 1 2 0 = -1
  /\ clamped_width 1 1 1 2 0 = 0
  /\ valid_pool [1; 1; 1] [1] [1] [1] false = true
  /\ GetPadModeIgnorePoolingWidths (T := int64) [1; 1; 1] [1] [1] [1]
     = Ok (Some (mkArray [3] [i64 0; i64 1; i64 0])).
Proof.
  split; [reflexivity |]. split; [vm_compute; reflexivity |].
  split; [reflexivity |]. split; [reflexivity |].
  split; [reflexivity |]. vm_compute. reflexivity.
Qed.

(** The widths are computed in the element type.  At [uint8], with extent
    4, kernel 2, stride 2 and pad 1, the start of the window of output
    position 0 wraps to 255 and is not cut at 0: the code's width there is
    2, where the integers give 1. *)
Example GetPadModeIgnorePoolingWidths_uint8_wraps :
  valid_pool [1; 1; 4] [2] [2] [1] false = true
  /\ pad_below_kernel [2] [1] = true
  /\ GetPadModeIgnorePoolingWidths (E := UInt8) [1; 1; 4] [2] [2] [1]
     = Ok (Some (mkArray [3] (map (t_cast (Element := UInt8)) [2; 2; 1])))
  /\ map (fun o => pool_widths [4] [2] [2] [1] [o]) [0; 1; 2]
     = [[1]; [2]; [1]].
Proof.
  split; [reflexivity |]. split; [reflexivity |].
  split; [vm_compute; reflexivity | reflexivity].
Qed.

(* ------------------------------------------------------------------ *)
(** ** C7: average pooling, zero mode *)

Section AveragePoolZero.

Context {T : Type} {E : Element T}.


End AveragePoolZero.


(* ------------------------------------------------------------------ *)
(** ** C8 and C9: the failures of average pooling *)

Section AveragePoolFailures.

Context {T : Type} {E : Element T}.

(** C8: [Backward] of an average-pool object raises [NotImplementedError]
    for every [gout]; it returns no tensor and leaves the object as it
    is. *)
Theorem AveragePool_Backward_not_implemented
    (self : AveragePool.NativeAveragePoolForwardBackward) (gout : Array T) :
  AveragePool.Backward gout self = (Throw NotImplementedError, self)
  /\ forall out, fst (AveragePool.Backward gout self) <> Ok out.
Proof. split; [reflexivity | intros out H; discriminate H]. Qed.

Lemma widths_step_not_never_reach (sh : Shape) (ks st pad : list Z)
    (widths : option (Array T)) (i : Z) :
  widths_step sh ks st pad widths i <> Throw NeverReach.
Proof.
  unfold widths_step. destruct (i =? 0); [discriminate |].
  destruct widths; discriminate.
Qed.

Lemma GetPadModeIgnorePoolingWidths_not_never_reach (sh : Shape)
    (ks st pad : list Z) :
  GetPadModeIgnorePoolingWidths (T := T) sh ks st pad <> Throw NeverReach.
Proof.
  unfold GetPadModeIgnorePoolingWidths.
  destruct (negb _); [discriminate |].
  assert (H : forall l (acc : Result (option (Array T))),
             acc <> Throw NeverReach ->
             fold_left
               (fun acc i =>
                  match acc with
                  | Ok widths => widths_step sh ks st pad widths i
                  | Throw e => Throw e
                  end) l acc <> Throw NeverReach).
  { induction l as [| i l IH]; intros acc Hacc; [exact Hacc |].
    cbn [fold_left]. apply IH. destruct acc as [w | e]; [| exact Hacc].
    apply widths_step_not_never_reach. }
  apply H. discriminate.
Qed.

(** C9: [Forward] of an average-pool object ends in the never-reach failure
    exactly when its padding mode is neither [kZero] nor [kIgnore]; it then
    returns no output, and for the two modes that failure does not occur. *)
Theorem AveragePool_Forward_never_reach
    (self : AveragePool.NativeAveragePoolForwardBackward) (x : Array T) :
  fst (AveragePool.Forward x self) = Throw NeverReach
  <-> exists value, AveragePool.pad_mode_ self = kUnrecognized value.
Proof.
  unfold AveragePool.Forward, bind, get, lift, deref, ret, throw. cbn [fst].
  destruct (AveragePool.pad_mode_ self) as [| | value] eqn:Hmode.
  - split; [discriminate | intros [v Hv]; discriminate Hv].
  - split; [| intros [v Hv]; discriminate Hv].
    pose proof (GetPadModeIgnorePoolingWidths_not_never_reach (shape x)
                  (AveragePool.kernel_size_ self) (AveragePool.stride_ self)
                  (AveragePool.pad_ self)) as Hw.
    destruct (GetPadModeIgnorePoolingWidths _ _ _ _) as [[w |] | e]; cbn [fst].
    + discriminate.
    + discriminate.
    + intros H. elim Hw. congruence.
  - split; [intros _; now exists value | reflexivity].
Qed.

End AveragePoolFailures.

(* ------------------------------------------------------------------ *)
(** ** C10: where [Backward] writes *)

Section BackwardPositions.

Context {T : Type} {E : Element T}.

(** C10: in [Backward] every argmax index lies in [[0, kernel_total_size)];
    the write position of output position [o] is [index + o *
    kernel_total_size], it falls inside the flat buffer of size
    [out_total_size * kernel_total_size] and inside the slice of [o], and
    two different output positions write to different positions. *)
Theorem MaxPool_Backward_write_positions
    (self : MaxPool.NativeMaxPoolForwardBackward T) (x gout : Array T) :
  valid_pool (shape x) (MaxPool.kernel_size_ self) (MaxPool.stride_ self)
    (MaxPool.pad_ self) (MaxPool.cover_all_ self) = true ->
  shape gout = pooled_shape (shape x) (MaxPool.kernel_size_ self)
                 (MaxPool.stride_ self) (MaxPool.pad_ self)
                 (MaxPool.cover_all_ self) ->
  let s1 := snd (MaxPool.Forward x self) in
  let indices := forward_indices self x in
  let k := fold_left Z.mul (MaxPool.kernel_size_ self) 1 in
  let n := GetTotalSize (shape indices) in
  let positions := data (Add (Reshape indices [n]) (forward_offset self x)) in
  fst (MaxPool.Backward gout s1) = Ok (backward_of self x gout)
  /\ MaxPool.indices_ (snd (MaxPool.Backward gout s1)) = Some indices
  /\ Z.of_nat (length positions) = n
  /\ forall o,
       0 <= o < n ->
       0 <= znth o (data indices) 0 < k
       /\ znth o positions 0 = znth o (data indices) 0 + o * k
       /\ o * k <= znth o positions 0 < (o + 1) * k
       /\ 0 <= znth o positions 0 < n * k
       /\ forall o', 0 <= o' < n -> o' <> o ->
            znth o' positions 0 <> znth o positions 0.
Proof.
  intros Hvalid Hgout s1 indices k n positions.
  destruct (valid_pool_spec _ _ _ _ _ Hvalid)
    as (b & c & dims & Hx & Hb & Hc & Hdims & Hld & Hlst & Hlpad & Hks & Hst
        & Hpad & Houts).
  pose proof (nonneg_pos _ Hks) as Hks0.
  assert (Hsi : shape indices =
                pooled_shape (shape x) (MaxPool.kernel_size_ self)
                  (MaxPool.stride_ self) (MaxPool.pad_ self)
                  (MaxPool.cover_all_ self)).
  { apply shape_forward_indices. rewrite Hx. cbn [length]. lia. }
  pose proof (Forward_forward_done self x) as Hf.
  pose proof (Forward_same_params self x) as Hp.
  fold s1 in Hf, Hp.
  assert (Hrun : MaxPool.Backward gout s1 =
                 (Ok (backward_of s1 x gout),
                  MaxPool.mkMaxPool (MaxPool.kernel_size_ s1) (MaxPool.stride_ s1)
                    (MaxPool.pad_ s1) (Some x) (MaxPool.cover_all_ s1)
                    (Some (forward_col s1 x)) (kernel_axes s1)
                    (Some (forward_indices s1 x)) (Some (forward_offset s1 x)))).
  { apply Backward_run; [exact Hf |].
    rewrite (forward_indices_params _ _ x Hp). fold indices. congruence. }
  rewrite Hrun. cbn [fst snd MaxPool.indices_].
  rewrite (backward_of_params _ _ x gout Hp), (forward_indices_params _ _ x Hp).
  split; [reflexivity |]. split; [reflexivity |].
  destruct (forward_indices_range self x Hvalid) as (Hk & Hnn & Hlen & Hidx).
  fold indices k n in Hk, Hnn, Hlen, Hidx.
  assert (Hn : 0 <= n) by lia.
  assert (Hpos : forall o, 0 <= o < n ->
            znth o positions 0 = znth o (data indices) 0 + o * k).
  { intros o Ho. unfold positions, forward_offset. fold indices k n.
    now apply (znth_index_plus_offset (data indices) n k o). }
  split.
  { unfold positions, forward_offset. fold indices k n.
    now apply (length_index_plus_offset (data indices) n k). }
  intros o Ho. pose proof (Hidx o Ho) as Hio. rewrite (Hpos o Ho).
  split; [exact Hio |]. split; [reflexivity |].
  split; [lia |]. split; [nia |].
  intros o' Ho' Hne. rewrite (Hpos o' Ho').
  pose proof (Hidx o' Ho') as Hio'. nia.
Qed.

End BackwardPositions.

Lemma MaxPool_Backward_write_positions_witness :
  let x := tensor1 [1; 5; 3; 4] in
  let gout := tensor1 [10; 20; 30] in
  let self := MaxPool.new (T := int64) [2] [1] [0] false in
  valid_pool (shape x) [2] [1] [0] false = true
  /\ shape gout = pooled_shape (shape x) [2] [1] [0] false
  /\ exists gx,
       fst (MaxPool.Backward gout (snd (MaxPool.Forward x self))) = Ok gx.
Proof.
  cbn zeta. split; [reflexivity |]. split; [reflexivity |].
  destruct (MaxPool_Backward_write_positions
              (MaxPool.new (T := int64) [2] [1] [0] false)
              (tensor1 [1; 5; 3; 4]) (tensor1 [10; 20; 30]) eq_refl eq_refl)
    as (Hrun & _).
  eexists. exact Hrun.
Defined.

(* ------------------------------------------------------------------ *)
(** * Further properties of the code *)

(** ** Arrays with the same entries *)

(** Two well-formed arrays of one shape that agree at every index of the
    shape are the same array. *)
Lemma Array_ext {A : Type} (a b : Array A) (d : A) :
  wf a = true -> wf b = true -> shape a = shape b ->
  (forall idx, inb (shape a) idx = true -> At d a idx = At d b idx) ->
  a = b.
Proof.
  intros Ha Hb Hs Hat.
  apply wf_spec in Ha. destruct Ha as [Hnn Hla].
  apply wf_spec in Hb. destruct Hb as [_ Hlb].
  destruct a as [sa da], b as [sb db]. cbn [shape data] in *. subst sb.
  f_equal. apply nth_ext with (d := d) (d' := d); [lia |].
  intros k Hk.
  assert (Hr : 0 <= Z.of_nat k < GetTotalSize sa) by lia.
  specialize (Hat (unravel sa (Z.of_nat k)) (inb_unravel _ _ Hnn Hr)).
  unfold At in Hat. cbn [shape data] in Hat.
  rewrite (ravel_unravel _ _ Hnn Hr) in Hat.
  now rewrite !znth_of_nat in Hat.
Qed.

(* ------------------------------------------------------------------ *)
(** ** The axes of [GetSwapSpatialDimensionsAxes] *)

(** The entry of the swap at axis [p]. *)
Lemma znth_swap_axes (n : nat) (p : Z) :
  0 <= p < 2 + 2 * Z.of_nat n ->
  znth p (GetSwapSpatialDimensionsAxes (Z.of_nat n)) 0 =
  if p <? 2 then p
  else if p <? 2 + Z.of_nat n then Z.of_nat n + p
  else p - Z.of_nat n.
Proof.
  intros Hp. rewrite GetSwapSpatialDimensionsAxes_eq by lia.
  destruct (Z.ltb_spec p 2) as [H2 | H2].
  - assert (Hc : p = 0 \/ p = 1) by lia.
    destruct Hc as [-> | ->]; reflexivity.
  - rewrite znth_cons by lia. rewrite znth_cons by lia.
    destruct (Z.ltb_spec p (2 + Z.of_nat n)) as [Hn | Hn].
    + rewrite znth_app_l by (rewrite consec_length; lia).
      rewrite znth_consec by lia. lia.
    + rewrite znth_app_r by (rewrite consec_length; lia).
      rewrite consec_length. rewrite znth_consec by lia. lia.
Qed.

Lemma length_swap_axes (n : nat) :
  length (GetSwapSpatialDimensionsAxes (Z.of_nat n)) = (2 + 2 * n)%nat.
Proof.
  rewrite GetSwapSpatialDimensionsAxes_eq by lia.
  cbn [length]. rewrite length_app, !consec_length. lia.
Qed.

(** X1: the loop of [GetSwapSpatialDimensionsAxes(n)] yields [2 + 2n] axes:
    axes 0 and 1 are kept, each axis [i] of the first spatial block
    [2..n+1] is mapped to [n + i], and each axis [n + i] of the second
    block to [i]; this is the transposition [(batch, channel, a_1..a_n,
    b_1..b_n) -> (batch, channel, b_1..b_n, a_1..a_n)] of its comment. *)
Theorem GetSwapSpatialDimensionsAxes_entries (n : nat) :
  let axes := GetSwapSpatialDimensionsAxes (Z.of_nat n) in
  length axes = (2 + 2 * n)%nat
  /\ znth 0 axes 0 = 0
  /\ znth 1 axes 0 = 1
  /\ forall i, 2 <= i < Z.of_nat n + 2 ->
       znth i axes 0 = Z.of_nat n + i
       /\ znth (Z.of_nat n + i) axes 0 = i.
Proof.
  cbn zeta. split; [apply length_swap_axes |].
  split; [now rewrite znth_swap_axes by lia |].
  split; [now rewrite znth_swap_axes by lia |].
  intros i Hi. split.
  - rewrite znth_swap_axes by lia.
    destruct (Z.ltb_spec i 2); [lia |].
    destruct (Z.ltb_spec i (2 + Z.of_nat n)); lia.
  - rewrite znth_swap_axes by lia.
    destruct (Z.ltb_spec (Z.of_nat n + i) 2); [lia |].
    destruct (Z.ltb_spec (Z.of_nat n + i) (2 + Z.of_nat n)); lia.
Qed.

(** X2: the axes of [GetSwapSpatialDimensionsAxes(n)] are a permutation of
    the axes [0..2n+1], every axis once, and the permutation is its own
    inverse: the axis that axis [p] is mapped to is mapped back to [p]. *)
Theorem GetSwapSpatialDimensionsAxes_involution (n : nat) :
  let axes := GetSwapSpatialDimensionsAxes (Z.of_nat n) in
  Permutation axes (zrange (2 + 2 * Z.of_nat n))
  /\ NoDup axes
  /\ forall p, 0 <= p < 2 + 2 * Z.of_nat n ->
       0 <= znth p axes 0 < 2 + 2 * Z.of_nat n
       /\ znth (znth p axes 0) axes 0 = p.
Proof.
  cbn zeta.
  set (axes := GetSwapSpatialDimensionsAxes (Z.of_nat n)).
  set (f := fun p : Z =>
              if p <? 2 then p
              else if p <? 2 + Z.of_nat n then Z.of_nat n + p
              else p - Z.of_nat n).
  assert (Hlen : Z.of_nat (length axes) = 2 + 2 * Z.of_nat n).
  { unfold axes. rewrite length_swap_axes. lia. }
  assert (Hmap : axes = map f (zrange (2 + 2 * Z.of_nat n))).
  { rewrite <- (map_znth_zrange axes 0) at 1. rewrite Hlen.
    apply map_ext_in. intros p Hp. apply In_zrange in Hp.
    now apply znth_swap_axes. }
  assert (Hrange : forall p, 0 <= p < 2 + 2 * Z.of_nat n ->
                             0 <= f p < 2 + 2 * Z.of_nat n).
  { intros p Hp. unfold f.
    destruct (Z.ltb_spec p 2); [lia |].
    destruct (Z.ltb_spec p (2 + Z.of_nat n)); lia. }
  assert (Hinv : forall p, 0 <= p < 2 + 2 * Z.of_nat n -> f (f p) = p).
  { intros p Hp. unfold f.
    destruct (Z.ltb_spec p 2) as [H2 | H2].
    - destruct (Z.ltb_spec p 2); lia.
    - destruct (Z.ltb_spec p (2 + Z.of_nat n)) as [Hn | Hn].
      + destruct (Z.ltb_spec (Z.of_nat n + p) 2); [lia |].
        destruct (Z.ltb_spec (Z.of_nat n + p) (2 + Z.of_nat n)); lia.
      + destruct (Z.ltb_spec (p - Z.of_nat n) 2); [lia |].
        destruct (Z.ltb_spec (p - Z.of_nat n) (2 + Z.of_nat n)); lia. }
  assert (Hperm : Permutation axes (zrange (2 + 2 * Z.of_nat n))).
  { rewrite Hmap. apply Permutation_map_zrange; [exact Hrange |].
    intros i j Hi Hj Hij.
    rewrite <- (Hinv i Hi), <- (Hinv j Hj). now rewrite Hij. }
  split; [exact Hperm |].
  split.
  { apply (Permutation_NoDup (Permutation_sym Hperm)). apply NoDup_zrange. }
  intros p Hp.
  unfold axes. rewrite (znth_swap_axes n p Hp). fold (f p).
  split; [now apply Hrange |].
  rewrite (znth_swap_axes n (f p) (Hrange p Hp)). fold (f (f p)).
  now apply Hinv.
Qed.

Section SwapTwice.

Context {T : Type} {E : Element T}.

Lemma wf_Transpose (a : Array T) (axes : Axes) :
  nonneg (axes_dims (shape a) axes) -> wf (Transpose a axes) = true.
Proof.
  intros Hnn. unfold Transpose. now apply wf_tabulate.
Qed.

(** X3: transposing a tensor of rank [2 + 2n] by the axes of
    [GetSwapSpatialDimensionsAxes(n)] and transposing the result by the same
    axes gives the tensor back: the swap of the two spatial blocks that
    [Backward] applies to the gradient buffer undoes the one
    [DoubleBackward] applies to the windowed tensor. *)
Theorem Transpose_swap_twice (a : Array T) (n : nat) :
  wf a = true ->
  length (shape a) = (2 + n + n)%nat ->
  let axes := GetSwapSpatialDimensionsAxes (Z.of_nat n) in
  Transpose (Transpose a axes) axes = a.
Proof.
  intros Hwf Hlen. cbn zeta.
  set (axes := GetSwapSpatialDimensionsAxes (Z.of_nat n)).
  destruct (shape a) as [| b [| c rest]] eqn:Hsh; cbn [length] in Hlen; try lia.
  set (sa := firstn n rest). set (sb := skipn n rest).
  assert (Hrest : rest = sa ++ sb) by (symmetry; apply firstn_skipn).
  assert (Hla : length sa = n) by (unfold sa; rewrite length_firstn; lia).
  assert (Hlb : length sb = n) by (unfold sb; rewrite length_skipn; lia).
  rewrite Hrest in Hsh.
  pose proof (proj1 (wf_spec a) Hwf) as [Hnn _]. rewrite Hsh in Hnn.
  assert (Hb : 0 <= b) by (inversion Hnn; assumption).
  assert (Hnn' : nonneg (c :: sa ++ sb)) by (inversion Hnn; assumption).
  assert (Hc : 0 <= c) by (inversion Hnn'; assumption).
  assert (Hnab : nonneg (sa ++ sb)) by (inversion Hnn'; assumption).
  apply nonneg_app in Hnab. destruct Hnab as [Hna Hnb].
  pose proof (shape_Transpose_swap a n b c sa sb Hsh Hla Hlb) as Hs1.
  fold axes in Hs1.
  pose proof (shape_Transpose_swap (Transpose a axes) n b c sb sa Hs1 Hlb Hla)
    as Hs2.
  fold axes in Hs2.
  apply Array_ext with (d := t_cast 0).
  - apply wf_Transpose. rewrite Hs1. unfold axes.
    rewrite (axes_dims_swap n b c sb sa Hlb Hla).
    constructor; [exact Hb |]. constructor; [exact Hc |].
    apply nonneg_app. now split.
  - exact Hwf.
  - now rewrite Hs2, Hsh.
  - intros idx Hin. rewrite Hs2 in Hin.
    destruct (inb_col_inv b c sa sb idx Hin)
      as (bi & ci & ia & ib & -> & Hbi & Hci & Hia & Hib).
    unfold axes.
    rewrite (At_Transpose_swap (Transpose a axes) n b c sb sa (t_cast 0) bi ci
               ib ia Hs1 Hlb Hla Hbi Hci Hib Hia).
    unfold axes.
    now rewrite (At_Transpose_swap a n b c sa sb (t_cast 0) bi ci ia ib Hsh Hla
                   Hlb Hbi Hci Hia Hib).
Qed.

End SwapTwice.

Lemma Transpose_swap_twice_witness :
  let a : Array int64 := mkArray [1; 2; 2; 3] (map i64 (zrange 12)) in
  let axes := GetSwapSpatialDimensionsAxes 1 in
  wf a = true
  /\ length (shape a) = 4%nat
  /\ shape (Transpose a axes) = [1; 2; 3; 2]
  /\ Transpose (Transpose a axes) axes = a.
Proof.
  cbn zeta. split; [reflexivity |]. split; [reflexivity |].
  split; [reflexivity |].
  apply (Transpose_swap_twice
           (mkArray [1; 2; 2; 3] (map i64 (zrange 12)) : Array int64) 1);
    reflexivity.
Defined.

(* ------------------------------------------------------------------ *)
(** ** Max pooling: what [Backward] returns and leaves behind *)

Section MaxPoolBackwardShape.

Context {T : Type} {E : Element T}.

(** X4: after [Forward(x)] on a valid input, [Backward] with a [gout] of the
    shape of the forward output returns a gradient of the shape of [x],
    whose buffer has the size of that shape; this holds for overlapping and
    for padded windows too. *)
Theorem MaxPool_Backward_input_shape
    (self : MaxPool.NativeMaxPoolForwardBackward T) (x gout : Array T) :
  valid_pool (shape x) (MaxPool.kernel_size_ self) (MaxPool.stride_ self)
    (MaxPool.pad_ self) (MaxPool.cover_all_ self) = true ->
  shape gout = pooled_shape (shape x) (MaxPool.kernel_size_ self)
                 (MaxPool.stride_ self) (MaxPool.pad_ self)
                 (MaxPool.cover_all_ self) ->
  exists gx,
    fst (MaxPool.Backward gout (snd (MaxPool.Forward x self))) = Ok gx
    /\ shape gx = shape x
    /\ wf gx = true.
Proof.
  intros Hvalid Hgout.
  destruct (valid_pool_spec _ _ _ _ _ Hvalid)
    as (b & c & dims & Hx & Hb & Hc & Hdims & Hld & Hlst & Hlpad & Hks & Hst
        & Hpad & Houts).
  set (ks := MaxPool.kernel_size_ self) in *.
  set (st := MaxPool.stride_ self) in *.
  set (pad := MaxPool.pad_ self) in *.
  set (outs := conv_out_dims dims ks st pad (MaxPool.cover_all_ self)) in *.
  assert (Hps : pooled_shape (shape x) ks st pad (MaxPool.cover_all_ self) =
                b :: c :: outs).
  { unfold pooled_shape. rewrite Hx. reflexivity. }
  rewrite Hps in Hgout.
  assert (Hsi : shape (forward_indices self x) = b :: c :: outs).
  { rewrite shape_forward_indices by (rewrite Hx; cbn [length]; fold ks; lia).
    exact Hps. }
  assert (Hlo : length outs = length ks)
    by (unfold outs; now apply conv_out_dims_length).
  pose proof (Forward_forward_done self x) as Hf.
  pose proof (Forward_same_params self x) as Hp.
  rewrite (Backward_run _ x gout Hf)
    by (rewrite (forward_indices_params _ _ x Hp); congruence).
  cbn [fst snd].
  eexists. split; [reflexivity |].
  assert (Hsr : shape (Reshape (backward_gcol (snd (MaxPool.Forward x self)) x gout)
                         (shape gout ++ ks)) = b :: c :: outs ++ ks).
  { cbn [shape Reshape]. now rewrite Hgout. }
  assert (Hsc : shape (backward_colgrad (snd (MaxPool.Forward x self)) x gout) =
                b :: c :: ks ++ outs).
  { unfold backward_colgrad.
    replace (MaxPool.kernel_size_ (snd (MaxPool.Forward x self))) with ks
      by (symmetry; apply Hp).
    now apply (shape_Transpose_swap _ (length ks) b c outs ks). }
  assert (Hsg : shape (backward_of (snd (MaxPool.Forward x self)) x gout) =
                shape x).
  { unfold backward_of. rewrite shape_Col2Im, Hsc, Hx. reflexivity. }
  split; [exact Hsg |].
  unfold backward_of. apply wf_Col2Im. rewrite Hsc, Hx. cbn [skipn].
  repeat constructor; assumption.
Qed.

End MaxPoolBackwardShape.

Lemma MaxPool_Backward_input_shape_witness :
  let x := tensor1 [1; 5; 3; 4] in
  let gout := tensor1 [10; 20; 30; 40; 50] in
  let self := MaxPool.new (T := int64) [2] [1] [1] false in
  valid_pool (shape x) [2] [1] [1] false = true
  /\ shape gout = pooled_shape (shape x) [2] [1] [1] false
  /\ exists gx,
       fst (MaxPool.Backward gout (snd (MaxPool.Forward x self))) = Ok gx
       /\ shape gx = [1; 1; 4]
       /\ wf gx = true.
Proof.
  cbn zeta. split; [reflexivity |]. split; [reflexivity |].
  destruct (MaxPool_Backward_input_shape
              (MaxPool.new (T := int64) [2] [1] [1] false)
              (tensor1 [1; 5; 3; 4]) (tensor1 [10; 20; 30; 40; 50])
              eq_refl eq_refl)
    as (gx & Hrun & Hs & Hwf).
  exists gx. split; [exact Hrun |]. split; [exact Hs | exact Hwf].
Defined.

Section MaxPoolBackwardFailure.

Context {T : Type} {E : Element T}.


End MaxPoolBackwardFailure.


(* ------------------------------------------------------------------ *)
(** ** Max pooling: [DoubleBackward] against [Forward] *)

Section DoubleBackwardForward.

Context {T : Type} {E : Element T}.

(** The gather of [DoubleBackward]: at every output position, the entry of
    the window of [ggx] at the argmax index of the window of [x]. *)
Lemma double_backward_of_window
    (self : MaxPool.NativeMaxPoolForwardBackward T) (x ggx : Array T) (d : T) :
  valid_pool (shape x) (MaxPool.kernel_size_ self) (MaxPool.stride_ self)
    (MaxPool.pad_ self) (MaxPool.cover_all_ self) = true ->
  shape ggx = shape x ->
  let ks := MaxPool.kernel_size_ self in
  let st := MaxPool.stride_ self in
  let pad := MaxPool.pad_ self in
  let r := double_backward_of self x ggx in
  shape r = pooled_shape (shape x) ks st pad (MaxPool.cover_all_ self)
  /\ wf r = true
  /\ forall bi ci oo,
       inb (shape r) (bi :: ci :: oo) = true ->
       At d r (bi :: ci :: oo) =
       znth (At 0 (forward_indices self x) (bi :: ci :: oo))
         (window_elems ggx ks st pad LowestOrInf bi ci oo) d.
Proof.
  intros Hvalid Hggx ks st pad r.
  destruct (valid_pool_spec _ _ _ _ _ Hvalid)
    as (b & c & dims & Hx & Hb & Hc & Hdims & Hld & Hlst & Hlpad & Hks & Hst
        & Hpad & Houts).
  fold ks st pad in Hld, Hlst, Hlpad, Hks, Hst, Hpad, Houts.
  set (outs := conv_out_dims dims ks st pad (MaxPool.cover_all_ self)) in *.
  pose proof (nonneg_pos _ Hks) as Hks0.
  assert (Hps : pooled_shape (shape x) ks st pad (MaxPool.cover_all_ self) =
                b :: c :: outs).
  { unfold pooled_shape. rewrite Hx. reflexivity. }
  set (indices := forward_indices self x).
  assert (Hsi : shape indices = b :: c :: outs).
  { unfold indices.
    rewrite shape_forward_indices by (rewrite Hx; cbn [length]; fold ks; lia).
    exact Hps. }
  assert (Hlo : length outs = length ks)
    by (unfold outs; now apply conv_out_dims_length).
  destruct (forward_indices_range self x Hvalid) as (Hk & Hnn & Hlen & Hidx).
  fold indices ks in Hk, Hnn, Hlen, Hidx.
  set (k := fold_left Z.mul ks 1) in *.
  set (n := GetTotalSize (shape indices)) in *.
  assert (Hsr : shape r = shape indices) by reflexivity.
  set (pos := Add indices (Reshape (forward_offset self x) (shape indices))).
  assert (Hdp : data pos =
                data (Add (mkArray [n] (data indices)) (Arange 0 (n * k) k)))
    by reflexivity.
  split; [now rewrite Hsr, Hsi, Hps |].
  split.
  { apply wf_spec. rewrite Hsr. split; [exact Hnn |].
    unfold r, double_backward_of, Take. cbn [data]. rewrite length_map.
    fold indices. fold pos. rewrite Hdp.
    exact (length_index_plus_offset (data indices) n k Hlen Hk). }
  intros bi ci oo Hin. rewrite Hsr, Hsi in Hin. pose proof Hin as Hin'.
  apply inb_cons in Hin. destruct Hin as [Hbi Hin].
  apply inb_cons in Hin. destruct Hin as [Hci Hoo].
  pose proof (inb_ravel_range _ _ Hin') as Hro.
  set (o := ravel (b :: c :: outs) (bi :: ci :: oo)) in *.
  assert (Ho : 0 <= o < n) by (unfold n; now rewrite Hsi).
  pose proof (Hidx o Ho) as Hio.
  assert (Hzi : znth o (data indices) 0 = At 0 indices (bi :: ci :: oo)).
  { unfold At. now rewrite Hsi. }
  rewrite Hzi in Hio.
  set (index := At 0 indices (bi :: ci :: oo)) in *.
  assert (Hik : 0 <= index < GetTotalSize ks).
  { unfold k in Hio. now rewrite kernel_total_size_eq in Hio. }
  assert (Hkk : inb ks (unravel ks index) = true)
    by (now apply inb_unravel).
  assert (Hrk : ravel ks (unravel ks index) = index)
    by (now apply ravel_unravel).
  assert (Hsp : shape pos = b :: c :: outs) by exact Hsi.
  unfold r, double_backward_of, Take. fold indices ks. fold pos.
  unfold At at 1. cbn [shape data]. rewrite Hsp. fold o.
  rewrite znth_map with (d := 0)
    by (rewrite Hdp, (length_index_plus_offset (data indices) n k Hlen Hk);
        exact Ho).
  rewrite Hdp, (znth_index_plus_offset (data indices) n k o Hlen Hk Ho), Hzi.
  fold index.
  assert (Hxg : shape ggx = b :: c :: dims) by congruence.
  set (colg := forward_col self ggx).
  assert (Hsc : shape colg = b :: c :: ks ++ outs).
  { unfold colg, forward_col. fold ks st pad.
    now rewrite (shape_Im2Col _ _ _ _ _ _ _ _ _ Hxg). }
  pose proof (At_Transpose_swap colg (length ks) b c ks outs (t_cast 0) bi ci
                (unravel ks index) oo Hsc eq_refl Hlo Hbi Hci Hkk Hoo) as Hsw.
  unfold At at 1 in Hsw.
  rewrite (shape_Transpose_swap colg (length ks) b c ks outs Hsc eq_refl Hlo)
    in Hsw.
  change (b :: c :: outs ++ ks) with ((b :: c :: outs) ++ ks) in Hsw.
  change (bi :: ci :: oo ++ unravel ks index)
    with ((bi :: ci :: oo) ++ unravel ks index) in Hsw.
  rewrite ravel_app in Hsw by (now apply inb_length).
  fold o in Hsw. rewrite Hrk, <- kernel_total_size_eq in Hsw. fold k in Hsw.
  replace (index + o * k) with (o * k + index) by lia.
  cbn [data Reshape]. rewrite Hsw.
  unfold colg, forward_col. fold ks st pad.
  rewrite (At_Im2Col ggx ks st pad (MaxPool.cover_all_ self) LowestOrInf
             (t_cast 0) b c dims bi ci (unravel ks index) oo Hxg Hbi Hci Hkk Hoo).
  rewrite (znth_window_elems ggx ks st pad LowestOrInf d bi ci oo index Hik).
  cbn zeta. rewrite Hxg. reflexivity.
Qed.

Context {O : ElementOrder T}.

(** X7: after [Forward(x)] and a [Backward] with a [gout] of the output's
    shape, [DoubleBackward] applied to [x] itself returns the output of
    [Forward(x)]: the gather through the cached argmax indices picks, in
    every window, the maximum that the forward reduction returned (also
    where that maximum is the fill value of a padded position). *)
Theorem MaxPool_DoubleBackward_of_input
    (self : MaxPool.NativeMaxPoolForwardBackward T) (x gout : Array T) :
  valid_pool (shape x) (MaxPool.kernel_size_ self) (MaxPool.stride_ self)
    (MaxPool.pad_ self) (MaxPool.cover_all_ self) = true ->
  shape gout = pooled_shape (shape x) (MaxPool.kernel_size_ self)
                 (MaxPool.stride_ self) (MaxPool.pad_ self)
                 (MaxPool.cover_all_ self) ->
  let s1 := snd (MaxPool.Forward x self) in
  let s2 := snd (MaxPool.Backward gout s1) in
  fst (MaxPool.DoubleBackward x s2) = fst (MaxPool.Forward x self).
Proof.
  intros Hvalid Hgout s1 s2.
  destruct (valid_pool_spec _ _ _ _ _ Hvalid)
    as (b & c & dims & Hx & Hb & Hc & Hdims & Hld & Hlst & Hlpad & Hks & Hst
        & Hpad & Houts).
  set (ks := MaxPool.kernel_size_ self) in *.
  set (st := MaxPool.stride_ self) in *.
  set (pad := MaxPool.pad_ self) in *.
  set (outs := conv_out_dims dims ks st pad (MaxPool.cover_all_ self)) in *.
  pose proof (nonneg_pos _ Hks) as Hks0.
  assert (Hps : pooled_shape (shape x) ks st pad (MaxPool.cover_all_ self) =
                b :: c :: outs).
  { unfold pooled_shape. rewrite Hx. reflexivity. }
  pose proof (Forward_forward_done self x) as Hf.
  pose proof (Forward_same_params self x) as Hp. fold s1 in Hf, Hp.
  assert (Hsi : shape (forward_indices self x) = b :: c :: outs).
  { rewrite shape_forward_indices by (rewrite Hx; cbn [length]; fold ks; lia).
    exact Hps. }
  assert (Hb2 : backward_done x s2 /\ same_params s2 self).
  { unfold s2. rewrite (Backward_run s1 x gout Hf)
      by (rewrite (forward_indices_params _ _ x Hp); congruence).
    cbn [snd]. split; [split; repeat split | exact Hp]. }
  destruct Hb2 as [Hb2 Hp2].
  rewrite (DoubleBackward_run s2 x x Hb2). cbn [fst].
  rewrite (double_backward_of_params _ _ x x Hp2).
  rewrite Forward_run. cbn [fst]. fold ks st pad. f_equal.
  set (out := Max (Im2Col x ks st pad (MaxPool.cover_all_ self) GetLowestOrInf)
                (consec 2 (Z.of_nat (length ks)))).
  assert (Hso : shape out = b :: c :: outs).
  { unfold out, Max. rewrite shape_tabulate.
    rewrite shape_reduced_Im2Col by (rewrite Hx; cbn [length]; fold ks; lia).
    exact Hps. }
  destruct (double_backward_of_window self x x (t_cast 0) Hvalid eq_refl)
    as (Hsr & Hwr & Hat).
  fold ks st pad in Hsr, Hat. rewrite Hps in Hsr.
  apply Array_ext with (d := t_cast 0).
  - exact Hwr.
  - unfold out, Max. apply wf_tabulate. fold out.
    change (nonneg (shape out)). rewrite Hso.
    repeat constructor; assumption.
  - now rewrite Hsr, Hso.
  - intros idx Hin. pose proof Hin as Hin'. rewrite Hsr in Hin'.
    pose proof (inb_length _ _ Hin') as Hl.
    destruct idx as [| bi [| ci oo]]; try discriminate Hl.
    rewrite (Hat bi ci oo Hin).
    apply inb_cons in Hin'. destruct Hin' as [Hbi Hin'].
    apply inb_cons in Hin'. destruct Hin' as [Hci Hoo].
    pose proof (At_forward_indices self x b c dims bi ci oo 0 Hx Hks0 Hbi Hci Hoo)
      as Hati. fold ks st pad in Hati. rewrite Hati.
    pose proof (At_Max_Im2Col x ks st pad (MaxPool.cover_all_ self) (t_cast 0)
                  b c dims bi ci oo Hx Hks0 Hbi Hci Hoo) as HM.
    fold out in HM. rewrite HM. unfold GetLowestOrInf.
    pose proof (argmax_first
                  (window_elems x ks st pad LowestOrInf bi ci oo)
                  (window_elems_nonempty x ks st pad LowestOrInf bi ci oo Hks))
      as (Hrange & Hval & _).
    etransitivity; [| exact Hval]. now apply znth_indep.
Qed.

End DoubleBackwardForward.

Lemma MaxPool_DoubleBackward_of_input_witness :
  let x := tensor1 [1; 5; 3; 4] in
  let gout := tensor1 [10; 20; 30; 40; 50] in
  let self := MaxPool.new (T := int64) [2] [1] [1] false in
  let s2 := snd (MaxPool.Backward gout (snd (MaxPool.Forward x self))) in
  valid_pool (shape x) [2] [1] [1] false = true
  /\ shape gout = pooled_shape (shape x) [2] [1] [1] false
  /\ fst (MaxPool.Forward x self) = Ok (tensor1 [1; 5; 5; 4; 4])
  /\ fst (MaxPool.DoubleBackward x s2) = fst (MaxPool.Forward x self).
Proof.
  cbn zeta. split; [reflexivity |]. split; [reflexivity |].
  split; [vm_compute; reflexivity |].
  apply (MaxPool_DoubleBackward_of_input
           (MaxPool.new (T := int64) [2] [1] [1] false)
           (tensor1 [1; 5; 3; 4]) (tensor1 [10; 20; 30; 40; 50]));
    reflexivity.
Defined.

(* ------------------------------------------------------------------ *)
(** ** Max pooling with windows of one element *)

Lemma GetTotalSize_ones (n : nat) : GetTotalSize (repeat 1 n) = 1.
Proof.
  induction n as [| n IH]; [reflexivity |].
  cbn [repeat]. rewrite GetTotalSize_cons, IH. reflexivity.
Qed.

Lemma unravel_ones (n : nat) : unravel (repeat 1 n) 0 = repeat 0 n.
Proof.
  induction n as [| n IH]; [reflexivity |].
  cbn [repeat unravel]. rewrite GetTotalSize_ones.
  change (0 / 1) with 0. change (0 mod 1) with 0. now rewrite IH.
Qed.

Lemma all_indices_ones (n : nat) : all_indices (repeat 1 n) = [repeat 0 n].
Proof.
  unfold all_indices. rewrite GetTotalSize_ones.
  change (zrange 1) with [0]. cbn [map]. now rewrite unravel_ones.
Qed.

Lemma conv_out_dims_ones (dims : list Z) (cover_all : bool) :
  conv_out_dims dims (repeat 1 (length dims)) (repeat 1 (length dims))
    (repeat 0 (length dims)) cover_all = dims.
Proof.
  induction dims as [| d dims IH]; [reflexivity |].
  cbn [length repeat conv_out_dims]. rewrite IH. f_equal.
  unfold GetConvOutDim. rewrite Z.mod_1_r, Z.div_1_r. cbn [Z.eqb negb].
  rewrite andb_false_r. lia.
Qed.

Lemma sample_coords_ones (oo : list Z) :
  sample_coords oo (repeat 0 (length oo)) (repeat 1 (length oo))
    (repeat 0 (length oo)) = oo.
Proof.
  induction oo as [| o oo IH]; [reflexivity |].
  cbn [length repeat sample_coords]. rewrite IH. f_equal. lia.
Qed.

Section UnitKernel.

Context {T : Type} {E : Element T} {O : ElementOrder T}.

(** X8: max pooling with kernel size 1, stride 1 and no padding on every
    spatial axis returns its input, with or without [cover_all]: every
    window holds one element, and the maximum of the fill value and that
    element is the element. *)
Theorem MaxPool_Forward_unit_kernel (x : Array T) (cover_all : bool) :
  wf x = true ->
  (2 <= length (shape x))%nat ->
  let n := (length (shape x) - 2)%nat in
  let self :=
    GetMaxPoolForwardBackward (T := T) (repeat 1 n) (repeat 1 n) (repeat 0 n)
      cover_all in
  fst (MaxPool.Forward x self) = Ok x.
Proof.
  intros Hwf Hrank n self.
  destruct (shape x) as [| b [| c dims]] eqn:Hx; cbn [length] in Hrank; try lia.
  assert (Hn : n = length dims) by (unfold n; cbn [length]; lia).
  clearbody n. subst n.
  pose proof (proj1 (wf_spec x) Hwf) as [Hnn _]. rewrite Hx in Hnn.
  set (ks := repeat 1 (length dims)) in *.
  set (pad := repeat 0 (length dims)) in *.
  assert (Hlk : length ks = length dims) by apply repeat_length.
  assert (Hks0 : nonneg ks).
  { unfold ks. apply Forall_forall. intros k Hk.
    apply repeat_spec in Hk. lia. }
  assert (Houts : conv_out_dims dims ks ks pad cover_all = dims)
    by apply conv_out_dims_ones.
  rewrite Forward_run. cbn [fst]. f_equal.
  change (MaxPool.kernel_size_ self) with ks.
  change (MaxPool.stride_ self) with ks.
  change (MaxPool.pad_ self) with pad.
  change (MaxPool.cover_all_ self) with cover_all.
  set (out := Max (Im2Col x ks ks pad cover_all GetLowestOrInf)
                (consec 2 (Z.of_nat (length ks)))).
  assert (Hso : shape out = b :: c :: dims).
  { unfold out, Max. rewrite shape_tabulate.
    rewrite shape_reduced_Im2Col by (rewrite Hx; cbn [length]; lia).
    unfold pooled_shape. rewrite Hx. cbn [skipn]. rewrite Houts. reflexivity. }
  apply Array_ext with (d := LowestOrInf).
  - unfold out, Max. apply wf_tabulate. fold out.
    change (nonneg (shape out)). now rewrite Hso.
  - exact Hwf.
  - now rewrite Hso, Hx.
  - intros idx Hin. rewrite Hso in Hin.
    pose proof (inb_length _ _ Hin) as Hl.
    destruct idx as [| bi [| ci oo]]; try discriminate Hl.
    pose proof Hin as Hin'.
    apply inb_cons in Hin'. destruct Hin' as [Hbi Hin'].
    apply inb_cons in Hin'. destruct Hin' as [Hci Hoo].
    assert (Hlo : length oo = length dims) by (now apply inb_length).
    unfold out.
    rewrite (At_Max_Im2Col x ks ks pad cover_all LowestOrInf b c dims bi ci oo
               Hx Hks0 Hbi Hci)
      by (now rewrite Houts).
    unfold window_elems, GetLowestOrInf.
    change (all_indices ks) with (all_indices (repeat 1 (length dims))).
    rewrite all_indices_ones. cbn [map fold_left].
    unfold ks, pad. rewrite <- Hlo, sample_coords_ones.
    rewrite Hx. cbn [skipn]. rewrite Hoo.
    apply max_step_lowest.
Qed.

End UnitKernel.

Lemma MaxPool_Forward_unit_kernel_witness :
  let x : Array int64 := mkArray [1; 2; 2; 2] (map i64 [3; -1; 4; 1; -5; 9; 2; 6]) in
  wf x = true
  /\ (2 <= length (shape x))%nat
  /\ fst (MaxPool.Forward x (GetMaxPoolForwardBackward [1; 1] [1; 1] [0; 0] true))
     = Ok x.
Proof.
  cbn zeta. split; [reflexivity |]. split; [cbn; lia |].
  apply (MaxPool_Forward_unit_kernel
           (mkArray [1; 2; 2; 2] (map i64 [3; -1; 4; 1; -5; 9; 2; 6])
              : Array int64) true);
    [reflexivity | cbn; lia].
Defined.

Lemma int64_div_one (v : int64) : t_div v (t_cast 1) = v.
Proof.
  cbn [t_div t_cast Int64].
  assert (H1 : word.signed (word.of_Z 1 : int64) = 1)
    by (apply int64_signed_small; lia).
  apply word.signed_inj.
  rewrite word.signed_divs_nowrap by (rewrite H1; lia || (right; lia)).
  rewrite H1. apply Z.quot_1_r.
Qed.

Section UnitKernelAverage.

Context {T : Type} {E : Element T}.

(** X9: for an element type in which adding to zero and dividing by one
    change nothing, average pooling in zero mode with kernel size 1, stride
    1 and no padding on every spatial axis returns its input. *)
Theorem AveragePool_Forward_unit_kernel (x : Array T) :
  (forall v : T, t_add (t_cast 0) v = v) ->
  (forall v : T, t_div v (t_cast 1) = v) ->
  wf x = true ->
  (2 <= length (shape x))%nat ->
  let n := (length (shape x) - 2)%nat in
  fst (AveragePool.Forward x
         (GetAveragePoolForwardBackward (repeat 1 n) (repeat 1 n) (repeat 0 n)
            kZero)) = Ok x.
Proof.
  intros Hadd Hdiv Hwf Hrank n.
  destruct (shape x) as [| b [| c dims]] eqn:Hx; cbn [length] in Hrank; try lia.
  assert (Hn : n = length dims) by (unfold n; cbn [length]; lia).
  clearbody n. subst n.
  pose proof (proj1 (wf_spec x) Hwf) as [Hnn _]. rewrite Hx in Hnn.
  set (ks := repeat 1 (length dims)) in *.
  set (pad := repeat 0 (length dims)) in *.
  assert (Hlk : length ks = length dims) by apply repeat_length.
  assert (Hks0 : nonneg ks).
  { unfold ks. apply Forall_forall. intros k Hk.
    apply repeat_spec in Hk. lia. }
  assert (Houts : conv_out_dims dims ks ks pad false = dims)
    by apply conv_out_dims_ones.
  unfold AveragePool.Forward, bind, get, ret.
  cbn [GetAveragePoolForwardBackward AveragePool.pad_mode_
       AveragePool.kernel_size_ AveragePool.stride_ AveragePool.pad_ fst].
  rewrite iota_resize. f_equal.
  set (col := Im2Col x ks ks pad false (t_cast 0)).
  set (axes := consec 2 (Z.of_nat (length ks))).
  assert (Hsh : shape (EmptyReduced (T := T) (shape col) axes) =
                b :: c :: conv_out_dims dims ks ks pad false).
  { unfold col, axes. rewrite shape_EmptyReduced_Im2Col
      by (rewrite Hx; cbn [length]; lia).
    unfold pooled_shape. now rewrite Hx. }
  assert (Hcount : CountItemsAlongAxes (shape col) axes = 1).
  { unfold CountItemsAlongAxes, col, axes.
    rewrite (shape_Im2Col _ _ _ _ _ _ _ _ _ Hx).
    rewrite axes_dims_kernel. apply GetTotalSize_ones. }
  unfold Mean, DivideAS. rewrite Hcount.
  set (S0 := Sum col axes (EmptyReduced (shape col) axes)).
  assert (HsS : shape S0 = b :: c :: dims).
  { unfold S0, Sum. now rewrite shape_tabulate, Hsh, Houts. }
  assert (HlS : Z.of_nat (length (data S0)) = GetTotalSize (b :: c :: dims)).
  { unfold S0, Sum. rewrite tabulate_length, Hsh, Houts.
    pose proof (GetTotalSize_nonneg _ Hnn). lia. }
  apply Array_ext with (d := t_cast 0).
  - apply wf_spec. cbn [shape data]. rewrite HsS, length_map. now split.
  - exact Hwf.
  - cbn [shape]. now rewrite HsS, Hx.
  - cbn [shape]. rewrite HsS. intros idx Hin.
    pose proof (inb_length _ _ Hin) as Hl.
    destruct idx as [| bi [| ci oo]]; try discriminate Hl.
    pose proof (inb_ravel_range _ _ Hin) as Hr.
    pose proof Hin as Hin'.
    apply inb_cons in Hin'. destruct Hin' as [Hbi Hin'].
    apply inb_cons in Hin'. destruct Hin' as [Hci Hoo].
    assert (Hlo : length oo = length dims) by (now apply inb_length).
    unfold At at 1. cbn [shape data].
    rewrite znth_map with (d := t_cast 0) by lia.
    rewrite Hdiv.
    pose proof (At_Sum_Im2Col x ks ks pad false (t_cast 0) (t_cast 0)
                  (EmptyReduced (shape col) axes) b c dims bi ci oo
                  Hx Hsh Hks0 Hbi Hci) as HS.
    rewrite Houts in HS. specialize (HS Hoo).
    fold col axes S0 in HS. unfold At in HS. rewrite HsS in HS. rewrite HS.
    unfold window_elems.
    change (all_indices ks) with (all_indices (repeat 1 (length dims))).
    rewrite all_indices_ones. cbn [map fold_left].
    unfold ks, pad. rewrite <- Hlo, sample_coords_ones.
    rewrite Hx. cbn [skipn]. rewrite Hoo. rewrite Hadd.
    unfold At. now rewrite Hx.
Qed.

End UnitKernelAverage.

Lemma AveragePool_Forward_unit_kernel_witness :
  let x : Array int64 := mkArray [1; 2; 2; 2] (map i64 [3; -1; 4; 1; -5; 9; 2; 6]) in
  wf x = true
  /\ (2 <= length (shape x))%nat
  /\ fst (AveragePool.Forward x
            (GetAveragePoolForwardBackward [1; 1] [1; 1] [0; 0] kZero))
     = Ok x.
Proof.
  cbn zeta. split; [reflexivity |]. split; [cbn; lia |].
  apply (AveragePool_Forward_unit_kernel
           (mkArray [1; 2; 2; 2] (map i64 [3; -1; 4; 1; -5; 9; 2; 6])
              : Array int64) t_add_zero int64_div_one);
    [reflexivity | cbn; lia].
Defined.

(* ------------------------------------------------------------------ *)
(** ** Max pooling: where [Backward] routes the gradient *)

Section BackwardRouting.

Context {T : Type} {E : Element T}.

(** X10: when no two windows overlap (kernel size at most the stride on every
    axis), [Backward] routes every [gout] value to one input position.  The
    input position that window [oo] samples at kernel offset [kk] receives
    the [gout] value of the window when [kk] is the window's argmax offset,
    and zero otherwise; an input position that no window samples receives
    zero.  A [gout] value whose window has its maximum in the padding
    reaches no input position. *)
Theorem MaxPool_Backward_disjoint_windows
    (self : MaxPool.NativeMaxPoolForwardBackward T) (x gout : Array T) :
  valid_pool (shape x) (MaxPool.kernel_size_ self) (MaxPool.stride_ self)
    (MaxPool.pad_ self) (MaxPool.cover_all_ self) = true ->
  disjoint_windows (MaxPool.kernel_size_ self) (MaxPool.stride_ self) = true ->
  shape gout = pooled_shape (shape x) (MaxPool.kernel_size_ self)
                 (MaxPool.stride_ self) (MaxPool.pad_ self)
                 (MaxPool.cover_all_ self) ->
  (forall v : T, t_add (t_cast 0) v = v) ->
  let ks := MaxPool.kernel_size_ self in
  let st := MaxPool.stride_ self in
  let pad := MaxPool.pad_ self in
  let dims := skipn 2 (shape x) in
  let outs := conv_out_dims dims ks st pad (MaxPool.cover_all_ self) in
  let indices := forward_indices self x in
  exists gx,
    fst (MaxPool.Backward gout (snd (MaxPool.Forward x self))) = Ok gx
    /\ shape gx = shape x
    /\ (forall bi ci kk oo,
          inb (shape gout) (bi :: ci :: oo) = true ->
          inb ks kk = true ->
          inb dims (sample_coords oo kk st pad) = true ->
          At (t_cast 0) gx (bi :: ci :: sample_coords oo kk st pad) =
          if ravel ks kk =? At 0 indices (bi :: ci :: oo)
          then At (t_cast 0) gout (bi :: ci :: oo)
          else t_cast 0)
    /\ (forall bi ci coords,
          inb (shape x) (bi :: ci :: coords) = true ->
          (forall kk oo,
              inb ks kk = true -> inb outs oo = true ->
              sample_coords oo kk st pad <> coords) ->
          At (t_cast 0) gx (bi :: ci :: coords) = t_cast 0).
Proof.
  intros Hvalid Hdis Hgout Hzero ks st pad dims0 outs0 indices.
  destruct (valid_pool_spec _ _ _ _ _ Hvalid)
    as (b & c & dims & Hx & Hb & Hc & Hdims & Hld & Hlst & Hlpad & Hks & Hst
        & Hpad & Houts).
  fold ks st pad in Hld, Hlst, Hlpad, Hks, Hst, Hpad, Houts, Hdis, Hgout.
  assert (Hd0 : dims0 = dims) by (unfold dims0; now rewrite Hx).
  subst outs0. rewrite Hd0. clear Hd0. clearbody dims0. clear dims0.
  set (outs := conv_out_dims dims ks st pad (MaxPool.cover_all_ self)) in *.
  pose proof (nonneg_pos _ Hks) as Hks0.
  assert (Hps : pooled_shape (shape x) ks st pad (MaxPool.cover_all_ self) =
                b :: c :: outs).
  { unfold pooled_shape. rewrite Hx. reflexivity. }
  rewrite Hps in Hgout.
  assert (Hsi : shape indices = b :: c :: outs).
  { unfold indices.
    rewrite shape_forward_indices by (rewrite Hx; cbn [length]; fold ks; lia).
    exact Hps. }
  assert (Hlo : length outs = length ks)
    by (unfold outs; now apply conv_out_dims_length).
  pose proof (Forward_forward_done self x) as Hf.
  pose proof (Forward_same_params self x) as Hp.
  rewrite (Backward_run _ x gout Hf)
    by (rewrite (forward_indices_params _ _ x Hp); fold indices; congruence).
  rewrite (backward_of_params _ _ x gout Hp). cbn [fst].
  eexists. split; [reflexivity |].
  unfold backward_of. fold ks st pad. rewrite Hx. cbn [skipn].
  set (col := backward_colgrad self x gout).
  assert (Hsr : shape (Reshape (backward_gcol self x gout) (shape gout ++ ks)) =
                b :: c :: outs ++ ks).
  { cbn [shape Reshape]. now rewrite Hgout. }
  assert (Hsc : shape col = b :: c :: ks ++ outs).
  { unfold col, backward_colgrad. fold ks.
    now apply (shape_Transpose_swap _ (length ks) b c outs ks). }
  assert (Hnc : nonneg (shape col)).
  { rewrite Hsc. repeat constructor; try assumption. now apply nonneg_app. }
  assert (Hinj : forall kk oo kk' oo',
             inb ks kk = true -> inb outs oo = true ->
             inb ks kk' = true -> inb outs oo' = true ->
             sample_coords oo kk st pad = sample_coords oo' kk' st pad ->
             kk = kk' /\ oo = oo').
  { intros kk oo kk' oo' Hkk Hoo Hkk' Hoo' Heq.
    apply (sample_coords_disjoint ks st pad kk oo kk' oo' Hdis Hlst Hlpad);
      try assumption.
    - apply inb_length in Hoo. lia.
    - apply inb_length in Hoo'. lia. }
  destruct (At_Col2Im_disjoint col st pad dims b c ks outs (t_cast 0) Hsc
              (eq_sym Hld) Hnc Hb Hc Hdims Hinj) as [Hone Hnone].
  split.
  { rewrite shape_Col2Im, Hsc. reflexivity. }
  split.
  - intros bi ci kk oo Hin Hkk Hcoords. rewrite Hgout in Hin.
    apply inb_cons in Hin. destruct Hin as [Hbi Hin].
    apply inb_cons in Hin. destruct Hin as [Hci Hoo].
    rewrite (Hone bi ci kk oo Hbi Hci Hkk Hoo Hcoords).
    destruct (At_backward_colgrad self x gout (t_cast 0) b c dims bi ci kk oo
                Hvalid Hx Hgout Hbi Hci Hkk Hoo) as [_ Hat].
    fold col ks indices in Hat. rewrite Hat, Hzero.
    destruct (ravel ks kk =? At 0 indices (bi :: ci :: oo));
      [apply Hzero | reflexivity].
  - intros bi ci coords Hin Hno. apply Hnone; assumption.
Qed.

End BackwardRouting.

Lemma MaxPool_Backward_disjoint_windows_witness :
  let x := tensor1 [1; 5; 3; 4; 9] in
  let gout := tensor1 [10; 20] in
  let self := MaxPool.new (T := int64) [2] [3] [1] false in
  valid_pool (shape x) [2] [3] [1] false = true
  /\ disjoint_windows [2] [3] = true
  /\ shape gout = pooled_shape (shape x) [2] [3] [1] false
  /\ fst (MaxPool.Backward gout (snd (MaxPool.Forward x self)))
     = Ok (tensor1 [10; 0; 0; 20; 0])
  /\ exists gx,
       fst (MaxPool.Backward gout (snd (MaxPool.Forward x self))) = Ok gx
       /\ shape gx = shape x.
Proof.
  cbn zeta. split; [reflexivity |]. split; [reflexivity |].
  split; [reflexivity |]. split; [vm_compute; reflexivity |].
  destruct (MaxPool_Backward_disjoint_windows
              (MaxPool.new (T := int64) [2] [3] [1] false)
              (tensor1 [1; 5; 3; 4; 9]) (tensor1 [10; 20])
              eq_refl eq_refl eq_refl t_add_zero)
    as (gx & Hrun & Hs & _).
  exists gx. split; [exact Hrun | exact Hs].
Defined.

(* ------------------------------------------------------------------ *)
(** ** Average pooling: the widths of ignore mode *)

Lemma pool_width_inside (d k s p i : Z) :
  0 <= i * s - p -> i * s - p + k <= d -> pool_width d k s p i = k.
Proof. intros H1 H2. unfold pool_width. lia. Qed.

(** Without padding every window lies inside the input: the width is the
    kernel size. *)
Lemma pool_width_no_pad (d k s i : Z) :
  0 < s -> 0 <= i < GetConvOutDim d k s 0 false -> pool_width d k s 0 i = k.
Proof.
  intros Hs Hi. pose proof (out_position_bound d k s 0 i Hs Hi) as Hb.
  apply pool_width_inside; nia.
Qed.

Lemma pool_widths_no_pad (dims ks st pad oo : list Z) :
  length dims = length ks -> length st = length ks -> length pad = length ks ->
  Forall (fun s => 0 < s) st ->
  Forall (fun p => p = 0) pad ->
  inb (conv_out_dims dims ks st pad false) oo = true ->
  pool_widths dims ks st pad oo = ks.
Proof.
  revert ks st pad oo.
  induction dims as [| d dims IH]; intros ks st pad oo H1 H2 H3 Hs Hp Hoo;
    destruct ks as [| k ks]; try discriminate H1;
    destruct st as [| s st]; try discriminate H2;
    destruct pad as [| p pad]; try discriminate H3.
  - reflexivity.
  - cbn [conv_out_dims] in Hoo. destruct oo as [| o oo]; [discriminate Hoo |].
    apply inb_cons in Hoo. destruct Hoo as [Ho Hoo].
    inversion Hs; subst. inversion Hp; subst.
    cbn [length] in H1, H2, H3.
    cbn [pool_widths]. f_equal.
    + now apply pool_width_no_pad.
    + apply IH; try assumption; lia.
Qed.

Section IgnoreWidthBounds.

Context {T : Type} {E : Element T} {bound : Z} {X : ElementExact T bound}.

(** X13: the width that [Impl] computes for output position [i] of an axis
    (extent [d], kernel size [k], stride [s], pad [p], all within the range
    in which the element type computes exactly) does not depend on the
    previous contents of [w]; it is at most the kernel size and at most the
    extent of the axis; and it is the kernel size when the window lies
    inside the input. *)
Theorem Impl_width_bounds (d k s p i : Z) (w : T) :
  0 <= i -> 0 < s -> 0 <= p -> 0 < k -> 0 <= d ->
  d + k + p + (i + 1) * s <= bound ->
  exists width,
    Impl (t_cast d) (t_cast k) (t_cast s) (t_cast p) i w = t_cast width
    /\ width = Z.min (i * s - p + k) d - Z.max (i * s - p) 0
    /\ width <= k
    /\ width <= d
    /\ (0 <= i * s - p -> i * s - p + k <= d -> width = k).
Proof.
  intros Hi Hs Hp Hk Hd Hb.
  exists (pool_width d k s p i).
  split; [now apply Impl_exact |].
  split; [reflexivity |].
  split; [now apply pool_width_upper |].
  split; [now apply pool_width_upper |].
  apply pool_width_inside.
Qed.

(** The product of positive kernel sizes, in the element type. *)
Lemma t_product_cast (ks : list Z) :
  Forall (fun k => 0 < k) ks -> GetTotalSize ks <= bound -> 1 <= bound ->
  t_product (T := T) ks = t_cast (GetTotalSize ks).
Proof.
  intros Hks Hb H1. destruct ks as [| k ks]; [reflexivity |].
  cbn [t_product]. rewrite GetTotalSize_cons in *.
  inversion Hks as [| ? ? Hk Hks']; subst. clear Hks.
  revert k Hk Hb. induction ks as [| k' ks IH]; intros k Hk Hb.
  - cbn [fold_left]. f_equal. cbn. lia.
  - inversion Hks' as [| ? ? Hk' Hks'']; subst.
    pose proof (GetTotalSize_pos ks Hks'') as Hpos.
    rewrite GetTotalSize_cons in Hb.
    assert (Hkk : 0 < k * k') by nia.
    assert (Hkb : k * k' <= bound) by nia.
    assert (Hk1 : k <= bound) by nia.
    assert (Hk2 : k' <= bound) by nia.
    cbn [fold_left]. rewrite cast_mul by lia.
    rewrite (IH Hks'' (k * k')) by nia.
    f_equal. rewrite GetTotalSize_cons. ring.
Qed.

End IgnoreWidthBounds.

Lemma Impl_width_bounds_witness :
  exists width,
    Impl (T := int64) (t_cast 5) (t_cast 3) (t_cast 2) (t_cast 1) 2 (t_cast 77)
    = t_cast width
    /\ width = 2.
Proof.
  destruct (Impl_width_bounds (T := int64) (bound := 2 ^ 63 - 1) 5 3 2 1 2
              (t_cast 77) ltac:(lia) ltac:(lia) ltac:(lia) ltac:(lia)
              ltac:(lia) ltac:(lia))
    as (width & Hrun & Hval & _).
  exists width. split; [exact Hrun |]. rewrite Hval. reflexivity.
Defined.

Lemma map2_const_r {A B C : Type} (f : A -> B -> C) (l1 : list A) (l2 : list B)
    (c : B) :
  length l2 = length l1 -> Forall (fun v => v = c) l2 ->
  map2 f l1 l2 = map (fun a => f a c) l1.
Proof.
  revert l2. induction l1 as [| a l1 IH]; intros l2 Hl Hc;
    destruct l2 as [| v l2]; try discriminate Hl.
  - reflexivity.
  - inversion Hc; subst. cbn [map2 map]. f_equal.
    apply IH; [now injection Hl | assumption].
Qed.

Section ModesAgree.

Context {T : Type} {E : Element T} {bound : Z} {X : ElementExact T bound}.

(** X14: without padding the two modes of average pooling agree.  On a
    valid input with at least one spatial axis and pad 0 on every axis,
    every window lies inside the input, the widths tensor of ignore mode
    holds the kernel volume at every position, and [Forward] in ignore mode
    returns the output of [Forward] in zero mode. *)
Theorem AveragePool_Forward_modes_agree (kernel_size stride pad : list Z)
    (x : Array T) :
  valid_pool (shape x) kernel_size stride pad false = true ->
  kernel_size <> [] ->
  Forall (fun p => p = 0) pad ->
  axes_within bound (skipn 2 (shape x)) kernel_size stride pad = true ->
  GetTotalSize kernel_size <= bound ->
  fst (AveragePool.Forward x
         (GetAveragePoolForwardBackward kernel_size stride pad kIgnore)) =
  fst (AveragePool.Forward x
         (GetAveragePoolForwardBackward kernel_size stride pad kZero)).
Proof.
  intros Hvalid Hne Hp0 Hw Hvol.
  set (ks := kernel_size) in *. set (st := stride) in *.
  destruct (GetPadModeIgnorePoolingWidths_run (shape x) ks st pad Hvalid Hne Hw)
    as (widths & Hrun & Hshw & Hatw).
  destruct (valid_pool_spec _ _ _ _ _ Hvalid)
    as (b & c & dims & Hx & Hb & Hc & Hdims & Hld & Hlst & Hlpad & Hks & Hst
        & Hpad & Houts).
  rewrite Hx in Hshw, Hatw. cbn [skipn] in Hshw, Hatw.
  set (outs := conv_out_dims dims ks st pad false) in *.
  pose proof (nonneg_pos _ Hks) as Hks0.
  pose proof (GetTotalSize_pos ks Hks) as Hpos.
  unfold AveragePool.Forward, bind, get, lift, deref, ret.
  cbn [GetAveragePoolForwardBackward AveragePool.pad_mode_
       AveragePool.kernel_size_ AveragePool.stride_ AveragePool.pad_].
  fold ks st. rewrite Hrun. cbn [fst]. rewrite iota_resize.
  set (col := Im2Col x ks st pad false (t_cast 0)).
  set (axes := consec 2 (Z.of_nat (length ks))).
  assert (Hsh : shape (EmptyReduced (T := T) (shape col) axes) =
                b :: c :: outs).
  { unfold col, axes. rewrite shape_EmptyReduced_Im2Col
      by (rewrite Hx; cbn [length]; lia).
    unfold pooled_shape. now rewrite Hx. }
  f_equal. unfold Mean, Divide, DivideAS. f_equal.
  set (S0 := Sum col axes (EmptyReduced (shape col) axes)).
  assert (HsS : shape S0 = b :: c :: outs).
  { unfold S0, Sum. now rewrite shape_tabulate. }
  assert (Hcount : CountItemsAlongAxes (shape col) axes = GetTotalSize ks).
  { unfold CountItemsAlongAxes, col, axes.
    rewrite (shape_Im2Col _ _ _ _ _ _ _ _ _ Hx).
    now rewrite axes_dims_kernel. }
  rewrite Hcount.
  assert (Hnn : nonneg (b :: c :: outs)) by (repeat constructor; assumption).
  apply map2_const_r.
  - unfold BroadcastTo, S0, Sum. rewrite !tabulate_length, shape_tabulate.
    reflexivity.
  - unfold BroadcastTo. cbn [data tabulate]. apply Forall_forall.
    intros v Hv. apply in_map_iff in Hv. destruct Hv as (idx & <- & Hidx).
    rewrite HsS in Hidx. apply In_all_indices in Hidx; [| exact Hnn].
    pose proof (inb_length _ _ Hidx) as Hl.
    destruct idx as [| bi [| ci oo]]; try discriminate Hl.
    apply inb_cons in Hidx. destruct Hidx as [Hbi Hidx].
    apply inb_cons in Hidx. destruct Hidx as [Hci Hoo].
    rewrite HsS, Hshw. cbn [length].
    replace (S (S (length outs)) - length outs)%nat with 2%nat by lia.
    cbn [skipn]. rewrite (broadcast_index _ _ Hoo).
    rewrite (Hatw oo Hoo).
    rewrite (pool_widths_no_pad dims ks st pad oo Hld Hlst Hlpad Hst Hp0 Hoo).
    apply t_product_cast; [exact Hks | exact Hvol | lia].
Qed.

End ModesAgree.

Lemma AveragePool_Forward_modes_agree_witness :
  let x := tensor1 [2; 4; 6; 8; 10] in
  valid_pool (shape x) [3] [2] [0] false = true
  /\ axes_within (2 ^ 63 - 1) (skipn 2 (shape x)) [3] [2] [0] = true
  /\ fst (AveragePool.Forward x (GetAveragePoolForwardBackward [3] [2] [0] kZero))
     = Ok (tensor1 [4; 8])
  /\ fst (AveragePool.Forward x (GetAveragePoolForwardBackward [3] [2] [0] kIgnore))
     = fst (AveragePool.Forward x (GetAveragePoolForwardBackward [3] [2] [0] kZero)).
Proof.
  cbn zeta. split; [reflexivity |]. split; [reflexivity |].
  split; [vm_compute; reflexivity |].
  apply (AveragePool_Forward_modes_agree (T := int64) (bound := 2 ^ 63 - 1)
           [3] [2] [0] (tensor1 [2; 4; 6; 8; 10]) eq_refl).
  - discriminate.
  - repeat constructor.
  - reflexivity.
  - cbn. lia.
Defined.

(* ------------------------------------------------------------------ *)
(** ** Average pooling: the widths of ignore mode count the window *)

(** The indices of a shape, axis by axis. *)
Lemma all_indices_cons (d : Z) (sh : Shape) :
  nonneg sh ->
  all_indices (d :: sh) =
  flat_map (fun i => map (cons i) (all_indices sh)) (zrange d).
Proof.
  intros Hsh. unfold all_indices. rewrite GetTotalSize_cons.
  pose proof (GetTotalSize_nonneg _ Hsh) as HG.
  set (G := GetTotalSize sh) in *.
  destruct (Z.le_gt_cases 0 d) as [Hd | Hd].
  2:{ rewrite (zrange_nonpos d) by lia.
      rewrite (zrange_nonpos (d * G)) by nia. reflexivity. }
  revert d Hd. apply natlike_ind.
  - reflexivity.
  - intros m Hm IH. rewrite <- Z.add_1_r.
    replace ((m + 1) * G) with (m * G + G) by ring.
    rewrite zrange_app by nia. rewrite map_app.
    rewrite zrange_succ by lia. rewrite flat_map_app. cbn [flat_map].
    rewrite app_nil_r. f_equal.
    + rewrite <- IH. apply map_ext. intros j. reflexivity.
    + unfold consec. rewrite !map_map. apply map_ext_in. intros i Hi.
      apply In_zrange in Hi. cbn [unravel]. fold G.
      replace (m * G + i) with (i + m * G) by ring.
      rewrite Z.div_add, Z.mod_add by lia.
      rewrite Z.div_small, Z.mod_small by lia. reflexivity.
Qed.

Lemma count_map_cons (P P' : list Z -> bool) (p1 : Z -> bool) (i : Z)
    (L : list (list Z)) :
  (forall r, P (i :: r) = p1 i && P' r) ->
  length (filter P (map (cons i) L)) =
  if p1 i then length (filter P' L) else 0%nat.
Proof.
  intros HP. induction L as [| r L IH]; cbn [map filter].
  - now destruct (p1 i).
  - rewrite HP. destruct (p1 i) eqn:H1; cbn [andb].
    + destruct (P' r); cbn [length]; now rewrite IH.
    + exact IH.
Qed.

(** Counting over a product of ranges. *)
Lemma count_product (P P' : list Z -> bool) (p1 : Z -> bool) (l1 : list Z)
    (L : list (list Z)) :
  (forall i r, P (i :: r) = p1 i && P' r) ->
  length (filter P (flat_map (fun i => map (cons i) L) l1)) =
  (length (filter p1 l1) * length (filter P' L))%nat.
Proof.
  intros HP. induction l1 as [| i l1 IH]; cbn [flat_map filter].
  - reflexivity.
  - rewrite filter_app, length_app, IH.
    rewrite (count_map_cons P P' p1 i L (HP i)).
    destruct (p1 i); cbn [length]; lia.
Qed.

Lemma count_interval (lo hi k : Z) :
  0 <= k ->
  Z.of_nat (length (filter (fun i => (lo <=? i) && (i <? hi)) (zrange k))) =
  Z.max 0 (Z.min k hi - Z.max 0 lo).
Proof.
  revert k. apply natlike_ind.
  - cbn. lia.
  - intros k Hk IH. rewrite <- Z.add_1_r, zrange_succ by lia.
    rewrite filter_app, length_app, Nat2Z.inj_add, IH. cbn [filter].
    destruct (Z.leb_spec lo k); destruct (Z.ltb_spec k hi);
      cbn [andb length]; lia.
Qed.

(** On one axis, the entries of a window inside the input are as many as
    the width, or none when the width is negative. *)
Lemma count_axis (d k s p o : Z) :
  0 <= k ->
  Z.of_nat
    (length
       (filter (fun kk => (0 <=? o * s + kk - p) && (o * s + kk - p <? d))
          (zrange k))) =
  Z.max 0 (pool_width d k s p o).
Proof.
  intros Hk.
  rewrite (filter_ext _
             (fun i => (p - o * s <=? i) && (i <? d + p - o * s))).
  - rewrite count_interval by exact Hk. unfold pool_width. lia.
  - intros kk.
    destruct (Z.leb_spec 0 (o * s + kk - p));
      destruct (Z.leb_spec (p - o * s) kk); try lia;
      destruct (Z.ltb_spec (o * s + kk - p) d);
      destruct (Z.ltb_spec kk (d + p - o * s)); try lia; reflexivity.
Qed.

Lemma window_inside_count_widths (dims ks st pad oo : list Z) :
  length dims = length ks -> length st = length ks -> length pad = length ks ->
  length oo = length ks ->
  nonneg ks ->
  window_inside_count dims ks st pad oo =
  GetTotalSize (map (Z.max 0) (pool_widths dims ks st pad oo)).
Proof.
  revert dims st pad oo.
  induction ks as [| k ks IH]; intros dims st pad oo H1 H2 H3 H4 Hks;
    destruct dims as [| d dims]; try discriminate H1;
    destruct st as [| s st]; try discriminate H2;
    destruct pad as [| p pad]; try discriminate H3;
    destruct oo as [| o oo]; try discriminate H4.
  - reflexivity.
  - inversion Hks as [| ? ? Hk Hks']; subst.
    cbn [length] in H1, H2, H3, H4.
    unfold window_inside_count. rewrite all_indices_cons by exact Hks'.
    rewrite (count_product _
               (fun r => inb dims (sample_coords oo r st pad))
               (fun i => (0 <=? o * s + i - p) && (o * s + i - p <? d)))
      by (intros i r; reflexivity).
    rewrite Nat2Z.inj_mul, count_axis by exact Hk.
    cbn [pool_widths map]. rewrite GetTotalSize_cons. f_equal.
    apply IH; try assumption; lia.
Qed.

Lemma map_max_nonneg (ws : list Z) :
  Forall (fun w => 0 <= w) ws -> map (Z.max 0) ws = ws.
Proof.
  induction 1 as [| w ws Hw _ IH]; [reflexivity |].
  cbn [map]. rewrite IH. f_equal. lia.
Qed.

Lemma pad_below_within (ks pad : list Z) :
  pad_below_kernel ks pad = true -> pad_within_kernel ks pad = true.
Proof.
  revert pad. induction ks as [| k ks IH]; intros pad H;
    destruct pad as [| p pad]; try reflexivity.
  cbn [pad_below_kernel] in H. apply andb_prop in H. destruct H as [H1 H2].
  cbn [pad_within_kernel]. rewrite (IH pad H2), andb_true_r.
  apply Z.ltb_lt in H1. apply Z.leb_le. lia.
Qed.

Section IgnoreCounts.

Context {T : Type} {E : Element T} {bound : Z} {X : ElementExact T bound}.

(** Where the pad is at most the kernel size, the product of the widths of
    an output position is the number of entries of its window that lie
    inside the input. *)
Lemma widths_product_count (dims ks st pad oo : list Z) :
  length dims = length ks -> length st = length ks -> length pad = length ks ->
  nonneg dims ->
  Forall (fun k => 0 < k) ks ->
  Forall (fun s => 0 < s) st ->
  Forall (fun p => 0 <= p) pad ->
  ks <> [] ->
  pad_within_kernel ks pad = true ->
  GetTotalSize ks <= bound ->
  inb (conv_out_dims dims ks st pad false) oo = true ->
  GetTotalSize (pool_widths dims ks st pad oo) =
  window_inside_count dims ks st pad oo
  /\ t_product (T := T) (pool_widths dims ks st pad oo) =
     t_cast (window_inside_count dims ks st pad oo).
Proof.
  intros Hld Hlst Hlpad Hdims Hks Hst Hpad Hne Hpk Hvol Hoo.
  pose proof (nonneg_pos _ Hks) as Hks0.
  assert (Hloo : length oo = length ks).
  { apply inb_length in Hoo.
    rewrite conv_out_dims_length in Hoo by assumption. exact Hoo. }
  destruct (pool_widths_clamped dims ks st pad oo Hld Hlst Hlpad Hdims Hst
              Hpad Hpk Hoo) as [_ Hnn].
  rewrite (window_inside_count_widths dims ks st pad oo Hld Hlst Hlpad Hloo
             Hks0).
  rewrite (map_max_nonneg _ Hnn).
  split; [reflexivity |].
  apply (t_product_widths _ ks); try assumption.
  - now apply pool_widths_upper.
  - intros Hnil. apply (f_equal (@length Z)) in Hnil.
    rewrite pool_widths_length in Hnil by (assumption || lia).
    destruct ks; [congruence |]. cbn [length] in *. lia.
Qed.

(** [Forward] in ignore mode when the pad is below the kernel size and no
    axis is empty: the widths tensor holds the counts of the windows, every
    count is positive, and every output position is the sum of its window
    divided by its count. *)
Lemma ignore_forward_counts
    (kernel_size stride pad : list Z) (x : Array T) :
  valid_pool (shape x) kernel_size stride pad false = true ->
  kernel_size <> [] ->
  pad_below_kernel kernel_size pad = true ->
  Forall (fun d => 0 < d) (skipn 2 (shape x)) ->
  axes_within bound (skipn 2 (shape x)) kernel_size stride pad = true ->
  GetTotalSize kernel_size <= bound ->
  let dims := skipn 2 (shape x) in
  let outs := conv_out_dims dims kernel_size stride pad false in
  (forall oo,
      inb outs oo = true ->
      0 < window_inside_count dims kernel_size stride pad oo
        <= GetTotalSize kernel_size)
  /\ exists out,
       fst (AveragePool.Forward x
              (GetAveragePoolForwardBackward kernel_size stride pad kIgnore))
       = Ok out
       /\ shape out = pooled_shape (shape x) kernel_size stride pad false
       /\ wf out = true
       /\ forall bi ci oo,
            inb (shape out) (bi :: ci :: oo) = true ->
            At (t_cast 0) out (bi :: ci :: oo) =
            t_div
              (fold_left t_add
                 (window_elems x kernel_size stride pad (t_cast 0) bi ci oo)
                 (t_cast 0))
              (t_cast (window_inside_count dims kernel_size stride pad oo)).
Proof.
  intros Hvalid Hne Hpk Hdpos Hw Hvol dims outs.
  set (ks := kernel_size) in *. set (st := stride) in *.
  destruct (GetPadModeIgnorePoolingWidths_run (shape x) ks st pad Hvalid Hne Hw)
    as (widths & Hrun & Hshw & Hatw).
  fold dims outs in Hshw, Hatw.
  destruct (valid_pool_spec _ _ _ _ _ Hvalid)
    as (b & c & dims' & Hx & Hb & Hc & Hdims & Hld & Hlst & Hlpad & Hks & Hst
        & Hpad & Houts).
  assert (Hd' : dims = dims') by (unfold dims; now rewrite Hx). subst dims'.
  fold dims in Hdpos. fold outs in Houts.
  pose proof (pad_below_within ks pad Hpk) as Hpk'.
  assert (Hent : forall oo,
             inb outs oo = true ->
             At (t_cast 0) widths oo =
             t_cast (window_inside_count dims ks st pad oo)
             /\ 0 < window_inside_count dims ks st pad oo <= GetTotalSize ks).
  { intros oo Hoo.
    destruct (widths_product_count dims ks st pad oo Hld Hlst Hlpad Hdims Hks
                Hst Hpad Hne Hpk' Hvol Hoo) as [Hn Hprod].
    destruct (widths_product_positive (T := T) dims ks st pad oo Hld Hlst Hlpad
                Hdpos Hks Hst Hpad Hne Hpk Hvol Hoo) as (_ & Hpos & _).
    cbn zeta in Hpos. rewrite Hn in Hpos.
    split; [| exact Hpos]. now rewrite (Hatw oo Hoo). }
  split; [intros oo Hoo; now apply Hent |].
  destruct (ignore_forward_run
              (GetAveragePoolForwardBackward ks st pad kIgnore) x widths
              eq_refl Hvalid Hrun Hshw)
    as (out & Hfw & Hso & Hwf & Hat).
  { intros oo Hoo. destruct (Hent oo Hoo) as [-> Hpos].
    rewrite cast_lt by lia. apply Z.ltb_lt. lia. }
  cbn [GetAveragePoolForwardBackward AveragePool.kernel_size_
       AveragePool.stride_ AveragePool.pad_] in Hso, Hat.
  exists out. split; [now rewrite Hfw |]. split; [exact Hso |].
  split; [exact Hwf |].
  intros bi ci oo Hin. rewrite (Hat bi ci oo Hin). f_equal.
  assert (Hoo : inb outs oo = true).
  { rewrite Hso in Hin. unfold pooled_shape in Hin. rewrite Hx in Hin.
    apply inb_cons in Hin. destruct Hin as [_ Hin].
    apply inb_cons in Hin. destruct Hin as [_ Hin]. exact Hin. }
  now apply Hent.
Qed.

(** X15: in ignore mode the divisor of an output position is the number of
    entries of its window that lie inside the input.  When the pad is at
    most the kernel size on every axis, the entry of the tensor of
    [GetPadModeIgnorePoolingWidths] there is that count.  When moreover the
    pad is below the kernel size and no axis of the input is empty, that
    count is positive and [Forward] returns the sum of the window divided by
    it. *)
Theorem AveragePool_Forward_ignore_counts
    (kernel_size stride pad : list Z) (x : Array T) :
  valid_pool (shape x) kernel_size stride pad false = true ->
  kernel_size <> [] ->
  pad_within_kernel kernel_size pad = true ->
  axes_within bound (skipn 2 (shape x)) kernel_size stride pad = true ->
  GetTotalSize kernel_size <= bound ->
  let dims := skipn 2 (shape x) in
  let outs := conv_out_dims dims kernel_size stride pad false in
  exists widths,
    GetPadModeIgnorePoolingWidths (shape x) kernel_size stride pad
    = Ok (Some widths)
    /\ shape widths = outs
    /\ (forall oo,
          inb outs oo = true ->
          At (t_cast 0) widths oo =
          t_cast (window_inside_count dims kernel_size stride pad oo))
    /\ (pad_below_kernel kernel_size pad = true ->
        Forall (fun d => 0 < d) dims ->
        (forall oo,
            inb outs oo = true ->
            0 < window_inside_count dims kernel_size stride pad oo
              <= GetTotalSize kernel_size)
        /\ exists out,
             fst (AveragePool.Forward x
                    (GetAveragePoolForwardBackward kernel_size stride pad
                       kIgnore))
             = Ok out
             /\ shape out = pooled_shape (shape x) kernel_size stride pad false
             /\ forall bi ci oo,
                  inb (shape out) (bi :: ci :: oo) = true ->
                  At (t_cast 0) out (bi :: ci :: oo) =
                  t_div
                    (fold_left t_add
                       (window_elems x kernel_size stride pad (t_cast 0)
                          bi ci oo)
                       (t_cast 0))
                    (t_cast
                       (window_inside_count dims kernel_size stride pad oo))).
Proof.
  intros Hvalid Hne Hpk Hw Hvol dims outs.
  destruct (GetPadModeIgnorePoolingWidths_run (shape x) kernel_size stride pad
              Hvalid Hne Hw)
    as (widths & Hrun & Hshw & Hatw).
  fold dims outs in Hshw, Hatw.
  destruct (valid_pool_spec _ _ _ _ _ Hvalid)
    as (b & c & dims' & Hx & Hb & Hc & Hdims & Hld & Hlst & Hlpad & Hks & Hst
        & Hpad & Houts).
  assert (Hd' : dims = dims') by (unfold dims; now rewrite Hx). subst dims'.
  exists widths. split; [exact Hrun |]. split; [exact Hshw |].
  split.
  { intros oo Hoo. rewrite (Hatw oo Hoo).
    now apply widths_product_count. }
  intros Hbelow Hdpos.
  destruct (ignore_forward_counts kernel_size stride pad x Hvalid Hne Hbelow
              Hdpos Hw Hvol)
    as (Hcnt & out & Hfw & Hso & _ & Hat).
  split; [exact Hcnt |].
  exists out. split; [exact Hfw |]. split; [exact Hso | exact Hat].
Qed.

End IgnoreCounts.

Lemma AveragePool_Forward_ignore_counts_witness :
  let x := tensor1 [2; 4; 6; 8] in
  valid_pool (shape x) [2] [2] [1] false = true
  /\ pad_within_kernel [2] [1] = true
  /\ pad_below_kernel [2] [1] = true
  /\ axes_within (2 ^ 63 - 1) (skipn 2 (shape x)) [2] [2] [1] = true
  /\ window_inside_count (skipn 2 (shape x)) [2] [2] [1] [0] = 1
  /\ window_inside_count (skipn 2 (shape x)) [2] [2] [1] [1] = 2
  /\ fst (AveragePool.Forward x
            (GetAveragePoolForwardBackward [2] [2] [1] kIgnore))
     = Ok (tensor1 [2; 5; 8])
  /\ exists out,
       fst (AveragePool.Forward x
              (GetAveragePoolForwardBackward [2] [2] [1] kIgnore)) = Ok out
       /\ shape out = [1; 1; 3].
Proof.
  cbn zeta. split; [reflexivity |]. split; [reflexivity |].
  split; [reflexivity |]. split; [reflexivity |]. split; [reflexivity |].
  split; [reflexivity |]. split; [vm_compute; reflexivity |].
  destruct (AveragePool_Forward_ignore_counts (T := int64)
              (bound := 2 ^ 63 - 1) [2] [2] [1] (tensor1 [2; 4; 6; 8])
              eq_refl ltac:(discriminate) eq_refl eq_refl ltac:(cbn; lia))
    as (widths & _ & _ & _ & Hfw).
  destruct (Hfw eq_refl ltac:(repeat constructor; lia))
    as (_ & out & Hrun & Hshape & _).
  exists out. split; [exact Hrun | exact Hshape].
Defined.

(* ------------------------------------------------------------------ *)
(** ** Average pooling: a constant input in ignore mode *)

Lemma int64_div_exact (a n : Z) :
  0 < n <= 2 ^ 63 - 1 -> Z.abs (a * n) <= 2 ^ 63 - 1 ->
  t_div (t_cast (a * n) : int64) (t_cast n) = t_cast a.
Proof.
  intros Hn Han. cbn [t_div t_cast Int64].
  assert (Ha : Z.abs a <= 2 ^ 63 - 1) by nia.
  assert (H1 : word.signed (word.of_Z n : int64) = n)
    by (apply int64_signed_small; lia).
  apply word.signed_inj.
  rewrite word.signed_divs_nowrap by (rewrite H1; lia || (right; lia)).
  rewrite H1, !int64_signed_small by assumption.
  apply Z.quot_mul. lia.
Qed.

Section ConstantInput.

Context {T : Type} {E : Element T} {bound : Z} {X : ElementExact T bound}.

(** The sum of a window that holds [v] at the entries a predicate selects
    and zero at the others. *)
Lemma fold_add_indicator (P : list Z -> bool) (v : Z) (L : list (list Z))
    (a : Z) :
  Z.abs a + Z.abs v * Z.of_nat (length L) <= bound ->
  fold_left t_add
    (map (fun kk => if P kk then t_cast v else t_cast (T := T) 0) L)
    (t_cast a) =
  t_cast (a + v * Z.of_nat (length (filter P L))).
Proof.
  revert a. induction L as [| e L IH]; intros a Hb; cbn [map fold_left filter].
  - f_equal. cbn. lia.
  - cbn [length] in Hb. rewrite Nat2Z.inj_succ in Hb.
    destruct (P e).
    + rewrite cast_add by nia. rewrite IH by nia.
      f_equal. cbn [length]. lia.
    + rewrite cast_add by nia. rewrite IH by nia.
      f_equal. lia.
Qed.

(** X16: in ignore mode the borders are not biased towards zero.  For an
    element type that computes exactly, with pad below the kernel size and
    no empty axis, [Forward] of a tensor that holds the same value
    everywhere returns the tensor of the output's shape that holds that
    value everywhere. *)
Theorem AveragePool_Forward_ignore_constant
    (kernel_size stride pad : list Z) (sh : Shape) (v : Z) :
  (forall a n : Z,
      0 < n <= bound -> Z.abs (a * n) <= bound ->
      t_div (t_cast (T := T) (a * n)) (t_cast n) = t_cast a) ->
  valid_pool sh kernel_size stride pad false = true ->
  kernel_size <> [] ->
  pad_below_kernel kernel_size pad = true ->
  Forall (fun d => 0 < d) (skipn 2 sh) ->
  axes_within bound (skipn 2 sh) kernel_size stride pad = true ->
  Z.abs v * GetTotalSize kernel_size <= bound ->
  GetTotalSize kernel_size <= bound ->
  let x := mkArray sh (repeat (t_cast (T := T) v) (Z.to_nat (GetTotalSize sh))) in
  let out_shape := pooled_shape sh kernel_size stride pad false in
  fst (AveragePool.Forward x
         (GetAveragePoolForwardBackward kernel_size stride pad kIgnore)) =
  Ok (mkArray out_shape (repeat (t_cast v) (Z.to_nat (GetTotalSize out_shape)))).
Proof.
  intros Hdiv Hvalid Hne Hpk Hdpos Hw Hv Hvol x out_shape.
  set (ks := kernel_size) in *. set (st := stride) in *.
  destruct (ignore_forward_counts ks st pad x Hvalid Hne Hpk Hdpos Hw Hvol)
    as (_ & out & Hfw & Hso & Hwf & Hat).
  rewrite Hfw. f_equal.
  destruct (valid_pool_spec _ _ _ _ _ Hvalid)
    as (b & c & dims & Hx & Hb & Hc & Hdims & Hld & Hlst & Hlpad & Hks & Hst
        & Hpad & Houts).
  change (shape x) with sh in Hso, Hat. fold out_shape in Hso.
  rewrite Hx in Hdpos, Hat. cbn [skipn] in Hdpos, Hat.
  set (outs := conv_out_dims dims ks st pad false) in *.
  pose proof (nonneg_pos _ Hks) as Hks0.
  assert (Hos : out_shape = b :: c :: outs).
  { unfold out_shape, pooled_shape. rewrite Hx. reflexivity. }
  assert (Hnn : nonneg out_shape).
  { rewrite Hos. repeat constructor; assumption. }
  pose proof (GetTotalSize_nonneg _ Hnn) as Hsz.
  assert (Hnx : nonneg sh).
  { rewrite Hx. repeat constructor; assumption. }
  pose proof (GetTotalSize_nonneg _ Hnx) as Hszx.
  apply Array_ext with (d := t_cast 0).
  - exact Hwf.
  - apply wf_spec. cbn [shape data]. split; [exact Hnn |].
    rewrite repeat_length. lia.
  - exact Hso.
  - intros idx Hin. rewrite Hso, Hos in Hin.
    pose proof (inb_length _ _ Hin) as Hl.
    destruct idx as [| bi [| ci oo]]; try discriminate Hl.
    assert (Hin2 : inb (shape out) (bi :: ci :: oo) = true)
      by (now rewrite Hso, Hos).
    rewrite (Hat bi ci oo Hin2).
    pose proof Hin as Hin'.
    apply inb_cons in Hin'. destruct Hin' as [Hbi Hin'].
    apply inb_cons in Hin'. destruct Hin' as [Hci Hoo].
    assert (Hloo : length oo = length ks) by (apply inb_length in Hoo;
      unfold outs in Hoo; rewrite conv_out_dims_length in Hoo by assumption;
      lia).
    (* the window *)
    assert (Hwin : window_elems x ks st pad (t_cast 0) bi ci oo =
                   map (fun kk =>
                          if inb dims (sample_coords oo kk st pad)
                          then t_cast v else t_cast 0)
                     (all_indices ks)).
    { unfold window_elems. change (shape x) with sh. rewrite Hx. cbn [skipn].
      apply map_ext. intros kk. cbn zeta.
      destruct (inb dims (sample_coords oo kk st pad)) eqn:Hc'; [| reflexivity].
      unfold At, x. cbn [shape data]. rewrite Hx.
      apply znth_repeat.
      assert (Hi : inb (b :: c :: dims) (bi :: ci :: sample_coords oo kk st pad)
                   = true).
      { apply inb_cons. split; [exact Hbi |]. apply inb_cons. now split. }
      pose proof (inb_ravel_range _ _ Hi). rewrite Hx in Hszx. lia. }
    rewrite Hwin.
    assert (Hlen : Z.of_nat (length (all_indices ks)) = GetTotalSize ks).
    { rewrite all_indices_length.
      pose proof (GetTotalSize_nonneg _ Hks0). lia. }
    rewrite fold_add_indicator by (rewrite Hlen; lia).
    fold (window_inside_count dims ks st pad oo). rewrite Z.add_0_l.
    (* the count is positive and at most the kernel volume *)
    assert (Hcnt : 0 < window_inside_count dims ks st pad oo <= GetTotalSize ks).
    { split.
      - rewrite (window_inside_count_widths dims ks st pad oo Hld Hlst Hlpad
                   Hloo Hks0).
        pose proof (pool_widths_positive dims ks st pad oo Hld Hlst Hlpad
                      Hdpos Hst Hpad Hpk Hoo) as Hpos.
        rewrite map_max_nonneg
          by (eapply Forall_impl; [| exact Hpos]; cbv beta; intros; lia).
        now apply GetTotalSize_pos.
      - unfold window_inside_count. rewrite <- Hlen.
        apply inj_le. apply filter_length_le. }
    rewrite Hdiv by nia.
    unfold At. cbn [shape data]. symmetry. apply znth_repeat.
    pose proof (inb_ravel_range _ _ Hin). rewrite Hos. rewrite Hos in Hsz. lia.
Qed.

End ConstantInput.

Lemma AveragePool_Forward_ignore_constant_witness :
  let x := tensor1 [7; 7; 7; 7] in
  valid_pool [1; 1; 4] [2] [2] [1] false = true
  /\ pad_below_kernel [2] [1] = true
  /\ axes_within (2 ^ 63 - 1) (skipn 2 [1; 1; 4]) [2] [2] [1] = true
  /\ fst (AveragePool.Forward x (GetAveragePoolForwardBackward [2] [2] [1] kZero))
     = Ok (tensor1 [3; 7; 3])
  /\ fst (AveragePool.Forward x
            (GetAveragePoolForwardBackward [2] [2] [1] kIgnore))
     = Ok (tensor1 [7; 7; 7]).
Proof.
  cbn zeta. split; [reflexivity |]. split; [reflexivity |].
  split; [reflexivity |]. split; [vm_compute; reflexivity |].
  apply (AveragePool_Forward_ignore_constant (T := int64)
           (bound := 2 ^ 63 - 1) [2] [2] [1] [1; 1; 4] 7 int64_div_exact
           eq_refl).
  - discriminate.
  - reflexivity.
  - repeat constructor.
  - reflexivity.
  - cbn. lia.
  - cbn. lia.
Defined.

(* ------------------------------------------------------------------ *)
(** ** Max pooling: the gradient mass without padding *)

(** Without padding and without [cover_all] every window lies inside the
    input, whatever the stride. *)
Lemma no_pad_inside (dims ks st pad kk oo : list Z) :
  length dims = length ks -> length st = length ks -> length pad = length ks ->
  Forall (fun s => 0 < s) st ->
  Forall (fun p => p = 0) pad ->
  inb ks kk = true ->
  inb (conv_out_dims dims ks st pad false) oo = true ->
  inb dims (sample_coords oo kk st pad) = true.
Proof.
  revert ks st pad kk oo.
  induction dims as [| d dims IH]; intros ks st pad kk oo H1 H2 H3 Hs Hp Hkk Hoo;
    destruct ks as [| k ks]; try discriminate H1;
    destruct st as [| s st]; try discriminate H2;
    destruct pad as [| p pad]; try discriminate H3.
  - destruct oo; [| discriminate Hoo]. reflexivity.
  - destruct kk as [| k0 kk]; [discriminate Hkk |].
    cbn [conv_out_dims] in Hoo. destruct oo as [| o oo]; [discriminate Hoo |].
    apply inb_cons in Hkk, Hoo. destruct Hkk as [Hk0 Hkk], Hoo as [Ho Hoo].
    inversion Hs; subst. inversion Hp; subst.
    cbn [length] in H1, H2, H3.
    cbn [sample_coords]. apply inb_cons. split.
    + pose proof (out_position_bound d k s 0 o ltac:(assumption) Ho). nia.
    + apply (IH ks st pad); try assumption; lia.
Qed.

Section GradientMassNoPad.

Context {T : Type} {E : Element T} {Mo : ElementMonoid T}.

(** X17: without padding and without [cover_all], [Backward] keeps the
    gradient mass for every kernel size and stride, overlapping windows
    included: the sum of the input gradient it returns is the sum of
    [gout]. *)
Theorem MaxPool_Backward_mass_without_pad
    (self : MaxPool.NativeMaxPoolForwardBackward T) (x gout : Array T) :
  valid_pool (shape x) (MaxPool.kernel_size_ self) (MaxPool.stride_ self)
    (MaxPool.pad_ self) (MaxPool.cover_all_ self) = true ->
  MaxPool.cover_all_ self = false ->
  Forall (fun p => p = 0) (MaxPool.pad_ self) ->
  wf gout = true ->
  shape gout = pooled_shape (shape x) (MaxPool.kernel_size_ self)
                 (MaxPool.stride_ self) (MaxPool.pad_ self) false ->
  exists gx,
    fst (MaxPool.Backward gout (snd (MaxPool.Forward x self))) = Ok gx
    /\ shape gx = shape x
    /\ t_sum (data gx) = t_sum (data gout).
Proof.
  intros Hvalid Hcover Hp0 Hwf Hgout.
  destruct (valid_pool_spec _ _ _ _ _ Hvalid)
    as (b & c & dims & Hx & Hb & Hc & Hdims & Hld & Hlst & Hlpad & Hks & Hst
        & Hpad & Houts).
  set (ks := MaxPool.kernel_size_ self) in *.
  set (st := MaxPool.stride_ self) in *.
  set (pad := MaxPool.pad_ self) in *.
  rewrite Hcover in Houts.
  set (outs := conv_out_dims dims ks st pad false) in *.
  pose proof (nonneg_pos _ Hks) as Hks0.
  assert (Hps : pooled_shape (shape x) ks st pad false = b :: c :: outs).
  { unfold pooled_shape. rewrite Hx. reflexivity. }
  rewrite Hps in Hgout.
  assert (Hsi : shape (forward_indices self x) = b :: c :: outs).
  { rewrite shape_forward_indices by (rewrite Hx; cbn [length]; fold ks; lia).
    fold ks st pad. rewrite Hcover. exact Hps. }
  assert (Hlo : length outs = length ks)
    by (unfold outs; now apply conv_out_dims_length).
  pose proof (Forward_forward_done self x) as Hf.
  pose proof (Forward_same_params self x) as Hp.
  rewrite (Backward_run _ x gout Hf)
    by (rewrite (forward_indices_params _ _ x Hp); congruence).
  rewrite (backward_of_params _ _ x gout Hp). cbn [fst].
  eexists. split; [reflexivity |].
  unfold backward_of. fold ks st pad. rewrite Hx. cbn [skipn].
  destruct (backward_gcol_slices self x gout (t_cast 0) Hvalid)
    as (_ & Hlg & _).
  rewrite Hsi, kernel_total_size_eq in Hlg. fold ks in Hlg.
  assert (Hwr : wf (Reshape (backward_gcol self x gout) (shape gout ++ ks)) = true).
  { apply wf_spec. cbn [shape data Reshape]. rewrite Hgout. split.
    - change ((b :: c :: outs) ++ ks) with (b :: c :: outs ++ ks).
      repeat constructor; try assumption. now apply nonneg_app.
    - rewrite Hlg. now rewrite GetTotalSize_app. }
  assert (Hsr : shape (Reshape (backward_gcol self x gout) (shape gout ++ ks)) =
                b :: c :: outs ++ ks).
  { cbn [shape Reshape]. now rewrite Hgout. }
  assert (Hsc : shape (backward_colgrad self x gout) = b :: c :: ks ++ outs).
  { unfold backward_colgrad. fold ks.
    now apply (shape_Transpose_swap _ (length ks) b c outs ks). }
  split.
  { unfold Col2Im. cbn [shape]. rewrite Hsc. reflexivity. }
  rewrite (t_sum_Col2Im (backward_colgrad self x gout) st pad dims b c ks outs
             Hsc (eq_sym Hld)); try assumption.
  - unfold backward_colgrad. fold ks.
    rewrite (t_sum_Transpose_swap _ (length ks) b c outs ks Hsr Hlo eq_refl Hwr).
    cbn [data Reshape]. apply t_sum_backward_gcol; try assumption. congruence.
  - unfold backward_colgrad, Transpose. apply wf_tabulate.
    fold ks. rewrite Hsr.
    rewrite (axes_dims_swap (length ks) b c outs ks Hlo eq_refl).
    repeat constructor; try assumption. now apply nonneg_app.
  - intros kk oo Hkk Hoo.
    now apply (no_pad_inside dims ks st pad kk oo).
Qed.

End GradientMassNoPad.

Lemma MaxPool_Backward_mass_without_pad_witness :
  let x := tensor1 [1; 5; 3; 4] in
  let gout := tensor1 [10; 20; 30] in
  let self := MaxPool.new (T := int64) [2] [1] [0] false in
  valid_pool (shape x) [2] [1] [0] false = true
  /\ wf gout = true
  /\ shape gout = pooled_shape (shape x) [2] [1] [0] false
  /\ fst (MaxPool.Backward gout (snd (MaxPool.Forward x self)))
     = Ok (tensor1 [0; 30; 0; 30])
  /\ exists gx,
       fst (MaxPool.Backward gout (snd (MaxPool.Forward x self))) = Ok gx
       /\ t_sum (data gx) = t_sum (data gout).
Proof.
  cbn zeta. split; [reflexivity |]. split; [reflexivity |].
  split; [reflexivity |]. split; [vm_compute; reflexivity |].
  destruct (MaxPool_Backward_mass_without_pad
              (MaxPool.new (T := int64) [2] [1] [0] false)
              (tensor1 [1; 5; 3; 4]) (tensor1 [10; 20; 30])
              eq_refl eq_refl ltac:(repeat constructor) eq_refl eq_refl)
    as (gx & Hrun & _ & Hsum).
  exists gx. split; [exact Hrun | exact Hsum].
Defined.
